(** * Bookmark homepage: the bookmark tree engine of [script.js]

    A shallow embedding of the store ([bookmarks], an array of records),
    of the tree operations that read and mutate it, of the navigation
    cursor ([currentPath]), of search, and of the two import paths,
    together with the properties the specification states about them.

    Conventions.
    - The store is the JavaScript array [bookmarks], a [list Node]; an
      object reference into the store is its index in the array.
    - JavaScript recursion that may not return is modelled with fuel:
      [None] means the fuel ran out, never a result of the program.
    - [Array.prototype.sort] is stable and, for a consistent comparator,
      returns the one stable sorted arrangement; it is modelled by stable
      insertion ([js_sort]). Only the sign of a comparator's result
      matters to it. *)

From Stdlib Require Import String Ascii List ZArith Lia Bool Arith.
From Stdlib Require Import Permutation Sorted Relations.
From Stdlib Require Import DecimalString DecimalPos DecimalZ.
Import ListNotations.

Local Open Scope string_scope.
Local Open Scope list_scope.

Set Implicit Arguments.
Set Warnings "-register-all".

(** ** Data model *)

(** [type: 'folder' | 'bookmark'] *)
Inductive NodeType : Set := folder | bookmark.

Definition NodeType_eqb (a b : NodeType) : bool :=
  match a, b with
  | folder, folder | bookmark, bookmark => true
  | _, _ => false
  end.

(** One element of [bookmarks]. A property the object does not carry
    (reads as [undefined]) is [None]: folders have no [url] and, unless
    loaded through [loadBookmarks], no [accessTime]; [order] is
    [undefined] after a move to another parent and on imported folders. *)
Record Node : Set := mkNode {
  id : string;
  name : string;
  type : NodeType;
  parent : string;
  url : option string;
  accessTime : option Z;
  order : option Z
}.

Definition Store := list Node.

(** JavaScript truthiness of a string: only the empty string is falsy. *)
Definition truthy (s : string) : bool := negb (s =? "").

(** [a || b] on strings. *)
Definition str_or (a b : string) : string := if truthy a then a else b.

(** [bookmarks.find(b => b.id === i)] *)
Definition find_by_id (bookmarks : Store) (i : string) : option Node :=
  find (fun b => id b =? i) bookmarks.

(** ** Ancestry check *)

(** [isDescendant(itemId, ancestorId)], lines 822-827. *)
Fixpoint isDescendant (fuel : nat) (bookmarks : Store)
         (itemId ancestorId : string) : option bool :=
  match fuel with
  | O => None
  | S fuel' =>
      match find_by_id bookmarks itemId with
      | None => Some false
      | Some item =>
          if negb (truthy (parent item)) then Some false
          else if parent item =? ancestorId then Some true
          else isDescendant fuel' bookmarks (parent item) ancestorId
      end
  end.

(** The parent graph of a store: an edge from the id of every node to the
    value of its [parent] field. *)
Definition parent_edge (st : Store) (c p : string) : Prop :=
  exists n, In n st /\ id n = c /\ parent n = p.

(** A store is acyclic when no id reaches itself along parent edges. *)
Definition acyclic (st : Store) : Prop :=
  forall i, ~ clos_trans string (parent_edge st) i i.

(** The step [isDescendant] takes: from an id to the non-empty parent of
    the first node carrying that id. *)
Definition parent_step (st : Store) (c p : string) : Prop :=
  exists item, find_by_id st c = Some item /\ parent item = p /\ p <> "".


(** The ids a walk from [start] goes through when [start] lies on a
    cycle: reached from [start], and leading back to it. *)
Definition on_walk (st : Store) (start j : string) : Prop :=
  clos_refl_trans string (parent_step st) start j
  /\ clos_trans string (parent_step st) j start.

(** [i] lies in the subtree of [f]: it is [f] or reaches [f] along
    parent edges. *)
Definition in_subtree (st : Store) (f i : string) : Prop :=
  i = f \/ clos_trans string (parent_edge st) i f.

(** ** Arrays and strings of the host language *)

(** What a comparator says when its result is not positive. *)
Definition cmp_le (A : Type) (cmp : A -> A -> Z) (a b : A) : Prop :=
  (cmp a b <= 0)%Z.


(** [Array.prototype.sort(cmp)]: stable insertion. An element is placed
    before the first later element it does not compare greater than. *)
Fixpoint js_insert (A : Type) (cmp : A -> A -> Z) (x : A) (l : list A) : list A :=
  match l with
  | [] => [x]
  | y :: l' => if (cmp x y <=? 0)%Z then x :: y :: l' else y :: js_insert cmp x l'
  end.

Definition js_sort (A : Type) (cmp : A -> A -> Z) (l : list A) : list A :=
  fold_right (js_insert cmp) [] l.

(** [Array.prototype.findIndex]; [None] stands for [-1]. *)
Fixpoint findIndex (A : Type) (f : A -> bool) (l : list A) : option nat :=
  match l with
  | [] => None
  | x :: l' => if f x then Some O else option_map S (findIndex f l')
  end.

(** [arr.splice(i, 0, x)] *)
Definition splice_insert (A : Type) (i : nat) (x : A) (l : list A) : list A :=
  firstn i l ++ x :: skipn i l.

(** [arr.slice(0, e)]; a negative [e] counts from the end. *)
Definition js_slice0 (A : Type) (l : list A) (e : Z) : list A :=
  if (e <? 0)%Z
  then firstn (Z.to_nat (Z.max (Z.of_nat (length l) + e) 0)) l
  else firstn (Z.to_nat e) l.

(** In-place mutation of the object at index [i]. *)
Fixpoint update_at (A : Type) (i : nat) (f : A -> A) (l : list A) : list A :=
  match l, i with
  | [], _ => []
  | x :: l', O => f x :: l'
  | x :: l', S i' => x :: update_at i' f l'
  end.

(** [s.startsWith(p)] *)
Fixpoint startsWith (s p : string) : bool :=
  match p, s with
  | EmptyString, _ => true
  | String b p', String a s' => Ascii.eqb a b && startsWith s' p'
  | String _ _, EmptyString => false
  end.

(** [s.includes(sub)] *)
Fixpoint includes (s sub : string) : bool :=
  startsWith s sub ||
  match s with
  | EmptyString => false
  | String _ s' => includes s' sub
  end.

(** [s.endsWith(p)] *)
Definition endsWith (s p : string) : bool :=
  (String.length p <=? String.length s)%nat &&
  (substring (String.length s - String.length p) (String.length p) s =? p).

(** White space removed by [trim]: space, tab, line feed, vertical tab,
    form feed, carriage return (the ASCII part of the set). *)
Definition is_space (c : ascii) : bool :=
  let n := nat_of_ascii c in
  (n =? 32)%nat || ((9 <=? n)%nat && (n <=? 13)%nat).

Fixpoint trimStart (s : string) : string :=
  match s with
  | String c s' => if is_space c then trimStart s' else s
  | EmptyString => EmptyString
  end.

Fixpoint trimEnd (s : string) : string :=
  match s with
  | EmptyString => EmptyString
  | String c s' =>
      match trimEnd s' with
      | EmptyString => if is_space c then EmptyString else String c EmptyString
      | t => String c t
      end
  end.

Definition trim (s : string) : string := trimEnd (trimStart s).

(** Decimal rendering of an integer, as in a template literal or in JSON. *)
Definition Z_to_string (z : Z) : string := NilZero.string_of_int (Z.to_int z).

(** ** Children of a parent *)

(** An object of the store: its index in [bookmarks] and its fields. *)
Abbreviation Ref := (nat * Node)%type (only parsing).

Definition indexed (bookmarks : Store) : list Ref :=
  combine (seq 0 (length bookmarks)) bookmarks.

(** The comparator of [getItemsByParent]: [order], a missing [order]
    counting as [Infinity], then [bookmarks.indexOf]. *)
Definition compare_order (a b : Ref) : Z :=
  let byIndex := (Z.of_nat (fst a) - Z.of_nat (fst b))%Z in
  match order (snd a), order (snd b) with
  | Some x, Some y => if (x =? y)%Z then byIndex else (x - y)%Z
  | Some _, None => (-1)%Z
  | None, Some _ => 1%Z
  | None, None => byIndex
  end.

(** [getItemsByParent(parentId)], lines 464-476, as object references. *)
Definition getItemsByParent_refs (bookmarks : Store) (parentId : string) : list Ref :=
  js_sort compare_order
          (filter (fun item => parent (snd item) =? parentId) (indexed bookmarks)).

Definition getItemsByParent (bookmarks : Store) (parentId : string) : list Node :=
  map snd (getItemsByParent_refs bookmarks parentId).

(** ** Reorder within one parent *)

Definition set_order (o : option Z) (n : Node) : Node :=
  mkNode (id n) (name n) (type n) (parent n) (url n) (accessTime n) o.

Definition set_parent (p : string) (n : Node) : Node :=
  mkNode (id n) (name n) (type n) p (url n) (accessTime n) (order n).

(** [siblings.forEach((sibling, index) => sibling.order = index)],
    counting from [k]. *)
Fixpoint assign_orders (siblings : list nat) (k : nat) (bookmarks : Store) : Store :=
  match siblings with
  | [] => bookmarks
  | r :: rest =>
      assign_orders rest (S k)
                    (update_at r (set_order (Some (Z.of_nat k))) bookmarks)
  end.

(** [reorderBookmark(draggedItem, targetItem, parentId)], lines 830-852. *)
Definition reorderBookmark (bookmarks : Store) (draggedItem targetItem : Ref)
           (parentId : string) : Store :=
  let siblings := getItemsByParent_refs bookmarks parentId in
  let siblingsWithoutDragged :=
      filter (fun s => negb (id (snd s) =? id (snd draggedItem))) siblings in
  match findIndex (fun s => id (snd s) =? id (snd targetItem))
                  siblingsWithoutDragged with
  | None => bookmarks
  | Some targetIndex =>
      let arranged := splice_insert targetIndex draggedItem siblingsWithoutDragged in
      update_at (fst draggedItem) (set_parent parentId)
                (assign_orders (map fst arranged) 0 bookmarks)
  end.

(** The sibling sequence after [forEach] has numbered it from [j]. *)
Fixpoint renumber (siblings : list Ref) (j : nat) : list Ref :=
  match siblings with
  | [] => []
  | (k, n) :: rest => (k, set_order (Some (Z.of_nat j)) n) :: renumber rest (S j)
  end.

(** ** Drag and drop in the navigation panes *)

(** What the [drop] listener of [setupDropZone] closes over: the item of
    the element ([null] for the placeholder of an empty list) and
    [parentId], computed when the element is rendered. *)
Record DropZone : Set := mkDropZone {
  dz_item : option Ref;
  dz_parentId : string
}.

(** [setupDropZone(element, level, item)], line 613; [levelParentId] is
    the value of [getCurrentParentId(level)]: the folder shown in the
    pane of that level, [""] for the first pane. *)
Definition setupDropZone (levelParentId : string) (item : option Ref) : DropZone :=
  {| dz_item := item;
     dz_parentId := match item with
                    | Some it => str_or (parent (snd it)) levelParentId
                    | None => levelParentId
                    end |}.

Inductive DropOutcome : Set :=
| DropNoSuchItem      (* the dragged id is not in the store *)
| DropOnItself        (* silent return *)
| DropIntoDescendant  (* alert, return *)
| DropReordered
| DropMoved.

Definition is_folder (item : Ref) : bool := NodeType_eqb (type (snd item)) folder.

(** The [drop] listener, lines 639-696; [None] when the ancestry check
    does not return. *)
Definition onDrop (fuel : nat) (bookmarks : Store) (dz : DropZone)
           (draggedId : string) : option (DropOutcome * Store) :=
  match find (fun b => id (snd b) =? draggedId) (indexed bookmarks) with
  | None => Some (DropNoSuchItem, bookmarks)
  | Some draggedItemObj =>
      let item := dz_item dz in
      if match item with
         | Some it => id (snd it) =? id (snd draggedItemObj)
         | None => false
         end
      then Some (DropOnItself, bookmarks)
      else
        let newParent :=
            match item with
            | Some it => if is_folder it then id (snd it)
                         else str_or (dz_parentId dz) ""
            | None => str_or (dz_parentId dz) ""
            end in
        let sameParent := str_or (parent (snd draggedItemObj)) "" =? newParent in
        let moved :=
            update_at (fst draggedItemObj)
                      (fun n => set_order None (set_parent newParent n))
                      bookmarks in
        match item with
        | Some it =>
            match (if is_folder it
                   then isDescendant fuel bookmarks (id (snd it))
                                     (id (snd draggedItemObj))
                   else Some false) with
            | None => None
            | Some true => Some (DropIntoDescendant, bookmarks)
            | Some false =>
                if sameParent
                then Some (DropReordered,
                           reorderBookmark bookmarks draggedItemObj it newParent)
                else Some (DropMoved, moved)
            end
        | None => Some (DropMoved, moved)
        end
  end.

(** ** Navigation cursor *)

(** Maximum number of navigation levels supported, line 329. *)
Definition MAX_LEVELS : Z := 10.

(** An entry of [currentPath]; only [id] and [name] of it are ever read. *)
Record PathEntry : Set := mkPathEntry {
  pe_id : string;
  pe_name : string
}.

Definition entry_of (folder : Node) : PathEntry :=
  {| pe_id := id folder; pe_name := name folder |}.

Inductive NavOutcome : Set :=
| DepthExceeded   (* alert: maximum depth reached *)
| PaneMissing     (* alert: the document has no pane for the next level *)
| Navigated.

(** [navigateToFolder(folder, currentLevel)], lines 700-742, as the new
    value of [currentPath]. [paneExists i] tells whether the document
    has an element [pane<i>]. *)
Definition navigateToFolder (paneExists : Z -> bool) (currentPath : list PathEntry)
           (folder_ : Node) (currentLevel : Z) : NavOutcome * list PathEntry :=
  if (currentLevel >=? MAX_LEVELS)%Z then (DepthExceeded, currentPath)
  else
    let currentPath' := js_slice0 currentPath (currentLevel - 1) ++ [entry_of folder_] in
    if paneExists (currentLevel + 1)%Z then (Navigated, currentPath')
    else (PaneMissing, currentPath').

(** What [localStorage] holds under the navigation key, after
    [JSON.parse]. *)
Inductive StoredNavigation : Set :=
| NothingStored                       (* no item, or [state.path] no array *)
| Unreadable                          (* reading it throws *)
| StoredPath (path : list PathEntry).

(** The callback of [state.path.map], lines 768-776. *)
Definition restore_entry (bookmarks : Store) (folderData : PathEntry)
  : option PathEntry :=
  match find (fun b => (id b =? pe_id folderData) && NodeType_eqb (type b) folder)
             bookmarks with
  | Some f => Some {| pe_id := id f; pe_name := str_or (name f) (pe_name folderData) |}
  | None => None
  end.

(** [.filter(f => f !== null)] *)
Fixpoint filter_not_null (A : Type) (l : list (option A)) : list A :=
  match l with
  | [] => []
  | Some x :: l' => x :: filter_not_null l'
  | None :: l' => filter_not_null l'
  end.

(** [restoreNavigationState()], lines 761-784, as the new [currentPath]. *)
Definition restoreNavigationState (stored : StoredNavigation) (bookmarks : Store)
           (currentPath : list PathEntry) : list PathEntry :=
  match stored with
  | NothingStored => currentPath
  | Unreadable => []
  | StoredPath path => filter_not_null (map (restore_entry bookmarks) path)
  end.

(** ** Cascade delete *)

(** [children.forEach(child => deleteRecursive(child.id))]: the calls run
    one after the other on the store the previous one left. *)
Fixpoint forEach_child (rec : string -> Store -> option Store)
         (children : list Node) (bookmarks : Store) : option Store :=
  match children with
  | [] => Some bookmarks
  | child :: rest =>
      match rec (id child) bookmarks with
      | Some bookmarks' => forEach_child rec rest bookmarks'
      | None => None
      end
  end.

(** [deleteRecursive(itemId)], lines 1165-1171. *)
Fixpoint deleteRecursive (fuel : nat) (itemId : string) (bookmarks : Store)
  : option Store :=
  match fuel with
  | O => None
  | S fuel' =>
      let children := getItemsByParent bookmarks itemId in
      match forEach_child (deleteRecursive fuel') children bookmarks with
      | Some bookmarks' =>
          Some (filter (fun b => negb (id b =? itemId)) bookmarks')
      | None => None
      end
  end.

(** [deleteItem(id)], lines 1157-1179: [skipConfirm] is [arguments[1] ===
    true], [confirmed] the answer to the confirmation dialog. *)
Definition deleteItem (fuel : nat) (itemId : string) (skipConfirm confirmed : bool)
           (bookmarks : Store) : option Store :=
  if negb skipConfirm && negb confirmed then Some bookmarks
  else deleteRecursive fuel itemId bookmarks.

(** ** Search *)

Section Search.

(** [String.prototype.toLowerCase] and [String.prototype.localeCompare]
    are the host's: Unicode case mapping and the collation of the user's
    locale. The search is stated for any such pair. *)
Variable toLowerCase : string -> string.
Variable localeCompare : string -> string -> Z.

(** [a.accessTime || 0] *)
Definition accessTime_or_0 (a : Node) : Z :=
  match accessTime a with
  | Some t => t
  | None => 0%Z
  end.

(** The comparator of [searchBookmarks], lines 415-423. *)
Definition compare_search (a b : Node) : Z :=
  let aTime := accessTime_or_0 a in
  let bTime := accessTime_or_0 b in
  if negb (bTime =? aTime)%Z then (bTime - aTime)%Z
  else localeCompare (name a) (name b).

(** The predicate of [bookmarks.filter], line 411. *)
Definition name_matches (lowerQuery : string) (item : Node) : bool :=
  includes (toLowerCase (name item)) lowerQuery.

(** [searchBookmarks(query)], lines 406-424. *)
Definition searchBookmarks (bookmarks : Store) (query : string) : list Node :=
  if negb (truthy query) then []
  else
    let lowerQuery := toLowerCase query in
    let results := filter (name_matches lowerQuery) bookmarks in
    js_sort compare_search results.

(** The ranking the search results are sorted by: the later access
    first, and for equal access times the name that collates first. *)
Definition ranked_before (a b : Node) : Prop :=
  (accessTime_or_0 b < accessTime_or_0 a)%Z
  \/ (accessTime_or_0 a = accessTime_or_0 b
      /\ (localeCompare (name a) (name b) <= 0)%Z).

End Search.

(** ** Completions of code that may throw *)

Inductive JsError : Set :=
| ReferenceError (identifier : string)   (* <identifier> is not defined *)
| GenericError (message : string).       (* new Error(message) *)

Inductive Completion (A : Type) : Type :=
| Normal (a : A)
| Throw (e : JsError)
| Diverge.                                (* no completion within the fuel *)

Arguments Normal {A} a.
Arguments Throw {A} e.
Arguments Diverge {A}.

(** ** The document tree built by [DOMParser] *)

Inductive DomNode : Set :=
| DomText (data : string)
| DomComment (data : string)
| DomElement (tag : string) (attributes : list (string * string))
             (children : list DomNode).

(** [node.nodeType === Node.ELEMENT_NODE] *)
Definition isElement (n : DomNode) : bool :=
  match n with
  | DomElement _ _ _ => true
  | _ => false
  end.

(** [node.tagName]: upper case for the elements of an HTML document. *)
Definition tagName (n : DomNode) : string :=
  match n with
  | DomElement t _ _ => t
  | _ => EmptyString
  end.

Definition childNodes (n : DomNode) : list DomNode :=
  match n with
  | DomElement _ _ cs => cs
  | _ => []
  end.

Definition firstElementChild (n : DomNode) : option DomNode :=
  find isElement (childNodes n).

(** [node.textContent] *)
Fixpoint textContent (n : DomNode) : string :=
  match n with
  | DomText d => d
  | DomComment _ => EmptyString
  | DomElement _ _ cs =>
      (fix all (l : list DomNode) : string :=
         match l with
         | [] => EmptyString
         | c :: l' => (textContent c ++ all l')%string
         end) cs
  end.

(** First element below [n], in document order, accepted by [sel], which
    sees the tag of the parent and the element. *)
Fixpoint query (sel : string -> DomNode -> bool) (n : DomNode) : option DomNode :=
  match n with
  | DomElement t _ cs =>
      (fix first (l : list DomNode) : option DomNode :=
         match l with
         | [] => None
         | c :: l' =>
             if isElement c && sel t c then Some c
             else match query sel c with
                  | Some r => Some r
                  | None => first l'
                  end
         end) cs
  | _ => None
  end.

(** [n.querySelector('DL')] *)
Definition querySelector_DL (n : DomNode) : option DomNode :=
  query (fun _ c => tagName c =? "DL") n.

(** [n.querySelector('body > DL')] *)
Definition querySelector_body_DL (n : DomNode) : option DomNode :=
  query (fun parentTag c => (parentTag =? "BODY") && (tagName c =? "DL")) n.

Definition ascii_lower (c : ascii) : ascii :=
  let n := nat_of_ascii c in
  if (65 <=? n)%nat && (n <=? 90)%nat then ascii_of_nat (n + 32) else c.

Fixpoint lower_ascii (s : string) : string :=
  match s with
  | EmptyString => EmptyString
  | String c s' => String (ascii_lower c) (lower_ascii s')
  end.

(** [el.getAttribute(qualifiedName)] on an element of an HTML document:
    the name is lower-cased, as the parser lower-cased the names it
    stored; [None] is [null]. *)
Definition getAttribute (n : DomNode) (qualifiedName : string) : option string :=
  match n with
  | DomElement _ attrs _ =>
      option_map snd
                 (find (fun kv => fst kv =? lower_ascii qualifiedName) attrs)
  | _ => None
  end.

(** The element siblings that follow the first element child of [n]. *)
Fixpoint after_first_element (l : list DomNode) : list DomNode :=
  match l with
  | [] => []
  | c :: l' => if isElement c then filter isElement l' else after_first_element l'
  end.

(** ** Import of the nested-list markup *)

(** The locals of [parseChromeBookmarks] that its helpers mutate. *)
Record ParserState : Set := mkParserState {
  result : Store;
  idCounter : nat
}.

(** A computation over [result] and [idCounter] that may throw. *)
Definition Parser (A : Type) : Type := ParserState -> Completion (A * ParserState).

Definition ret (A : Type) (a : A) : Parser A := fun s => Normal (a, s).

Definition bind (A B : Type) (m : Parser A) (k : A -> Parser B) : Parser B :=
  fun s =>
    match m s with
    | Normal (a, s') => k a s'
    | Throw e => Throw e
    | Diverge => Diverge
    end.

Notation "x <- m ;; k" := (bind m (fun x => k))
  (at level 61, m at next level, right associativity).
Notation "m ;;; k" := (bind m (fun _ => k))
  (at level 61, right associativity).

Definition throw (A : Type) (e : JsError) : Parser A := fun _ => Throw e.

Definition diverge (A : Type) : Parser A := fun _ => Diverge.

(** [result.push(n)] *)
Definition push (n : Node) : Parser unit :=
  fun s => Normal (tt, {| result := result s ++ [n]; idCounter := idCounter s |}).

(** [result.filter(b => b.parent === p).length] *)
Definition count_with_parent (p : string) : Parser nat :=
  fun s => Normal (length (filter (fun b => parent b =? p) (result s)), s).

(** The loop [for (let i = 0; i < children.length; i++)]. *)
Fixpoint for_each (A : Type) (l : list A) (body : A -> Parser unit) : Parser unit :=
  match l with
  | [] => ret tt
  | x :: l' => body x ;;; for_each l' body
  end.

(** The identifier [currentFolderId], read at line 1256. [script.js]
    declares no variable, parameter or function of that name (its other
    occurrences are the [dataset.currentFolderId] property of the panes),
    so evaluating it throws. *)
Definition currentFolderId : Parser string :=
  throw string (ReferenceError "currentFolderId").

Section MarkupImport.

(** [new DOMParser().parseFromString(htmlText, 'text/html')]: the host's
    HTML parser, giving the document node. *)
Variable parseFromString : string -> DomNode.

(** The part [`${Date.now()}-${Math.random().toString(36).substr(2, 9)}`]
    of the id generated while [idCounter] has the given value. *)
Variable stamp : nat -> string.

(** [generateId()], lines 1189-1191. *)
Definition generateId : Parser string :=
  fun s =>
    Normal ((stamp (idCounter s) ++ "-" ++ Z_to_string (Z.of_nat (idCounter s)))%string,
            {| result := result s; idCounter := S (idCounter s) |}).

(** [processDL(dlElement, parentId)], lines 1194-1271. *)
Fixpoint processDL (fuel : nat) (dlElement : option DomNode) (parentId : string)
  : Parser unit :=
  match fuel with
  | O => diverge unit
  | S fuel' =>
      match dlElement with
      | None => ret tt
      | Some dl =>
          for_each (childNodes dl) (fun node =>
            if negb (isElement node) then ret tt
            else if negb (tagName node =? "DT") then ret tt
            else
              match firstElementChild node with
              | None => ret tt
              | Some firstChild =>
                  if tagName firstChild =? "H3" then
                    let folderName := trim (textContent firstChild) in
                    if truthy folderName then
                      folderId <- generateId ;;
                      push (mkNode folderId folderName folder
                                   (str_or parentId "") None None None) ;;;
                      let nestedDL :=
                          match find (fun e => tagName e =? "DL")
                                     (after_first_element (childNodes node)) with
                          | Some d => Some d
                          | None => querySelector_DL node
                          end in
                      match nestedDL with
                      | Some d => processDL fuel' (Some d) folderId
                      | None => ret tt
                      end
                    else ret tt
                  else if tagName firstChild =? "A" then
                    let url_ := getAttribute firstChild "HREF" in
                    let name_ := trim (textContent firstChild) in
                    match url_ with
                    | Some u =>
                        if truthy u && truthy name_ then
                          current <- currentFolderId ;;
                          let parentIdForBookmark :=
                              str_or current (str_or parentId "") in
                          newId <- generateId ;;
                          siblings <- count_with_parent parentIdForBookmark ;;
                          push (mkNode newId name_ bookmark parentIdForBookmark
                                       (Some u) (Some 0%Z)
                                       (Some (Z.of_nat siblings)))
                        else ret tt
                    | None => ret tt
                    end
                  else ret tt
              end)
      end
  end.

(** [parseChromeBookmarks(htmlText)], lines 1182-1280. *)
Definition parseChromeBookmarks (fuel : nat) (htmlText : string) : Completion Store :=
  let doc := parseFromString htmlText in
  let mainDL := match querySelector_DL doc with
                | Some d => Some d
                | None => querySelector_body_DL doc
                end in
  match (match mainDL with
         | Some d => processDL fuel (Some d) ""
         | None => ret tt
         end) {| result := []; idCounter := 1 |} with
  | Normal (_, s) => Normal (result s)
  | Throw e => Throw e
  | Diverge => Diverge
  end.

End MarkupImport.

(** ** The native format: [JSON.stringify(bookmarks, null, 2)] *)

Definition dquote : ascii := ascii_of_nat 34.
Definition backslash : ascii := ascii_of_nat 92.
Definition newline : string := String (ascii_of_nat 10) EmptyString.

(** A property value of a node record. *)
Inductive JsonScalar : Set :=
| JString (s : string)
| JNumber (z : Z).

(** An object as its properties in creation order. *)
Definition JsonObject : Set := list (string * JsonScalar).

Definition type_string (t : NodeType) : string :=
  match t with
  | folder => "folder"
  | bookmark => "bookmark"
  end.

Definition optional_property (key : string) (v : option JsonScalar) : JsonObject :=
  match v with
  | Some x => [(key, x)]
  | None => []
  end.

(** The own properties of a node that the serializer writes: a property
    whose value is [undefined] is left out. The order is the one of the
    object literal of [saveBookmarkItem]. *)
Definition node_object (n : Node) : JsonObject :=
  [("id", JString (id n)); ("name", JString (name n));
   ("type", JString (type_string (type n))); ("parent", JString (parent n))]
    ++ optional_property "url" (option_map JString (url n))
    ++ optional_property "accessTime" (option_map JNumber (accessTime n))
    ++ optional_property "order" (option_map JNumber (order n)).

Definition hex_digit (n : nat) : ascii :=
  if (n <? 10)%nat then ascii_of_nat (48 + n) else ascii_of_nat (87 + n).

(** [QuoteJSONString] on one character. *)
Definition json_escape_char (c : ascii) : string :=
  let n := nat_of_ascii c in
  if (n =? 34)%nat then String backslash (String dquote EmptyString)
  else if (n =? 92)%nat then String backslash (String backslash EmptyString)
  else if (n =? 8)%nat then String backslash "b"
  else if (n =? 9)%nat then String backslash "t"
  else if (n =? 10)%nat then String backslash "n"
  else if (n =? 12)%nat then String backslash "f"
  else if (n =? 13)%nat then String backslash "r"
  else if (n <? 32)%nat
       then String backslash
                   (String "u" (String "0" (String "0"
                      (String (hex_digit (n / 16))
                              (String (hex_digit (n mod 16)) EmptyString)))))
       else String c EmptyString.

Fixpoint json_escape (s : string) : string :=
  match s with
  | EmptyString => EmptyString
  | String c s' => (json_escape_char c ++ json_escape s')%string
  end.

Definition json_quote (s : string) : string :=
  String dquote (json_escape s ++ String dquote EmptyString)%string.

Definition print_scalar (v : JsonScalar) : string :=
  match v with
  | JString s => json_quote s
  | JNumber z => Z_to_string z
  end.

Definition print_property (kv : string * JsonScalar) : string :=
  ("    " ++ json_quote (fst kv) ++ ": " ++ print_scalar (snd kv))%string.

(** Items separated by a comma and a line break, closed by [close]. *)
Fixpoint print_items (A : Type) (print : A -> string) (close : string)
         (l : list A) : string :=
  match l with
  | [] => close
  | [x] => (print x ++ newline ++ close)%string
  | x :: l' => (print x ++ "," ++ newline ++ print_items print close l')%string
  end.

Definition print_object (o : JsonObject) : string :=
  match o with
  | [] => "{}"
  | _ => ("{" ++ newline ++ print_items print_property "  }" o)%string
  end.

Definition print_array (l : list JsonObject) : string :=
  match l with
  | [] => "[]"
  | _ => ("[" ++ newline
              ++ print_items (fun o => ("  " ++ print_object o)%string) "]" l)%string
  end.

Definition JSON_stringify (bookmarks : Store) : string :=
  print_array (map node_object bookmarks).

(** The text [exportBookmarks()] puts in the downloaded file, line 113. *)
Definition exportBookmarks (bookmarks : Store) : string := JSON_stringify bookmarks.

(** ** The native format: [JSON.parse] on arrays of flat records

    The reader covers the texts that denote an array of objects whose
    property values are strings and integers, which is what the store
    serializes to. On any other text it gives no answer: there
    [JSON.parse] may throw or return a value the store type does not
    represent. *)

Inductive Token : Set :=
| TLBracket | TRBracket | TLBrace | TRBrace | TColon | TComma
| TString (s : string)
| TNumber (z : Z).

Inductive LexState : Set :=
| LexDefault
| LexString (acc : string)                    (* inside a string literal *)
| LexEscape (acc : string)                    (* after a backslash *)
| LexUnicode (acc : string) (digits : list nat)   (* after backslash u *)
| LexNumber (acc : string).                   (* inside a number *)

Definition LexConf : Set := (LexState * list Token)%type.

Definition is_digit (c : ascii) : bool :=
  let n := nat_of_ascii c in (48 <=? n)%nat && (n <=? 57)%nat.

Definition hex_value (c : ascii) : option nat :=
  let n := nat_of_ascii c in
  if (48 <=? n)%nat && (n <=? 57)%nat then Some (n - 48)
  else if (97 <=? n)%nat && (n <=? 102)%nat then Some (n - 87)
  else if (65 <=? n)%nat && (n <=? 70)%nat then Some (n - 55)
  else None.

Definition snoc (s : string) (c : ascii) : string :=
  (s ++ String c EmptyString)%string.

(** A number literal is read when it is the canonical decimal form of an
    integer. *)
Definition read_number (acc : string) : option Z :=
  match NilZero.int_of_string acc with
  | Some d => let z := Z.of_int d in
              if Z_to_string z =? acc then Some z else None
  | None => None
  end.

(** One character outside string and number literals. *)
Definition lex_default (toks : list Token) (c : ascii) : option LexConf :=
  let n := nat_of_ascii c in
  if (n =? 32)%nat || (n =? 10)%nat || (n =? 13)%nat || (n =? 9)%nat
  then Some (LexDefault, toks)
  else if (n =? 91)%nat then Some (LexDefault, toks ++ [TLBracket])
  else if (n =? 93)%nat then Some (LexDefault, toks ++ [TRBracket])
  else if (n =? 123)%nat then Some (LexDefault, toks ++ [TLBrace])
  else if (n =? 125)%nat then Some (LexDefault, toks ++ [TRBrace])
  else if (n =? 58)%nat then Some (LexDefault, toks ++ [TColon])
  else if (n =? 44)%nat then Some (LexDefault, toks ++ [TComma])
  else if (n =? 34)%nat then Some (LexString EmptyString, toks)
  else if (n =? 45)%nat || is_digit c
       then Some (LexNumber (String c EmptyString), toks)
       else None.

Definition lex_step (conf : LexConf) (c : ascii) : option LexConf :=
  let n := nat_of_ascii c in
  match conf with
  | (LexDefault, toks) => lex_default toks c
  | (LexString acc, toks) =>
      if (n =? 34)%nat then Some (LexDefault, toks ++ [TString acc])
      else if (n =? 92)%nat then Some (LexEscape acc, toks)
      else if (n <? 32)%nat then None
      else Some (LexString (snoc acc c), toks)
  | (LexEscape acc, toks) =>
      if (n =? 34)%nat || (n =? 92)%nat || (n =? 47)%nat
      then Some (LexString (snoc acc c), toks)
      else if (n =? 98)%nat then Some (LexString (snoc acc (ascii_of_nat 8)), toks)
      else if (n =? 116)%nat then Some (LexString (snoc acc (ascii_of_nat 9)), toks)
      else if (n =? 110)%nat then Some (LexString (snoc acc (ascii_of_nat 10)), toks)
      else if (n =? 102)%nat then Some (LexString (snoc acc (ascii_of_nat 12)), toks)
      else if (n =? 114)%nat then Some (LexString (snoc acc (ascii_of_nat 13)), toks)
      else if (n =? 117)%nat then Some (LexUnicode acc [], toks)
      else None
  | (LexUnicode acc digits, toks) =>
      match hex_value c with
      | None => None
      | Some h =>
          match digits with
          | [a; b; d] =>
              let code := ((a * 16 + b) * 16 + d) * 16 + h in
              if (code <? 128)%nat
              then Some (LexString (snoc acc (ascii_of_nat code)), toks)
              else None
          | _ => Some (LexUnicode acc (digits ++ [h]), toks)
          end
      end
  | (LexNumber acc, toks) =>
      if is_digit c then Some (LexNumber (snoc acc c), toks)
      else match read_number acc with
           | Some z => lex_default (toks ++ [TNumber z]) c
           | None => None
           end
  end.

Fixpoint lex_run (conf : LexConf) (text : string) : option LexConf :=
  match text with
  | EmptyString => Some conf
  | String c text' =>
      match lex_step conf c with
      | Some conf' => lex_run conf' text'
      | None => None
      end
  end.

Definition lex_finish (conf : LexConf) : option (list Token) :=
  match conf with
  | (LexDefault, toks) => Some toks
  | (LexNumber acc, toks) => option_map (fun z => toks ++ [TNumber z]) (read_number acc)
  | _ => None
  end.

Definition JSON_tokens (text : string) : option (list Token) :=
  match lex_run (LexDefault, []) text with
  | Some conf => lex_finish conf
  | None => None
  end.

Inductive ParseState : Set :=
| PStart                                        (* expects [ *)
| PArrayOpen                                    (* expects ] or { *)
| PObjectOpen                                   (* expects } or a key *)
| PKey (o : JsonObject) (k : string)            (* expects : *)
| PColon (o : JsonObject) (k : string)          (* expects a value *)
| PValue (o : JsonObject)                       (* expects , or } *)
| PNextKey (o : JsonObject)                     (* expects a key *)
| PObjectDone                                   (* expects , or ] *)
| PNextObject                                   (* expects { *)
| PEnd.

Definition ParseConf : Set := (ParseState * list JsonObject)%type.

Definition parse_step (conf : ParseConf) (t : Token) : option ParseConf :=
  match conf, t with
  | (PStart, objs), TLBracket => Some (PArrayOpen, objs)
  | (PArrayOpen, objs), TRBracket => Some (PEnd, objs)
  | (PArrayOpen, objs), TLBrace => Some (PObjectOpen, objs)
  | (PObjectOpen, objs), TRBrace => Some (PObjectDone, objs ++ [[]])
  | (PObjectOpen, objs), TString k => Some (PKey [] k, objs)
  | (PKey o k, objs), TColon => Some (PColon o k, objs)
  | (PColon o k, objs), TString s => Some (PValue (o ++ [(k, JString s)]), objs)
  | (PColon o k, objs), TNumber z => Some (PValue (o ++ [(k, JNumber z)]), objs)
  | (PValue o, objs), TComma => Some (PNextKey o, objs)
  | (PValue o, objs), TRBrace => Some (PObjectDone, objs ++ [o])
  | (PNextKey o, objs), TString k => Some (PKey o k, objs)
  | (PObjectDone, objs), TComma => Some (PNextObject, objs)
  | (PObjectDone, objs), TRBracket => Some (PEnd, objs)
  | (PNextObject, objs), TLBrace => Some (PObjectOpen, objs)
  | _, _ => None
  end.

Fixpoint parse_run (conf : ParseConf) (toks : list Token) : option ParseConf :=
  match toks with
  | [] => Some conf
  | t :: toks' =>
      match parse_step conf t with
      | Some conf' => parse_run conf' toks'
      | None => None
      end
  end.

Definition JSON_objects (text : string) : option (list JsonObject) :=
  match JSON_tokens text with
  | Some toks =>
      match parse_run (PStart, []) toks with
      | Some (PEnd, objs) => Some objs
      | _ => None
      end
  | None => None
  end.

(** The tokens of the text the serializer writes. *)
Definition tokens_scalar (v : JsonScalar) : Token :=
  match v with
  | JString s => TString s
  | JNumber z => TNumber z
  end.

Definition tokens_property (kv : string * JsonScalar) : list Token :=
  [TString (fst kv); TColon; tokens_scalar (snd kv)].

(** The tokens of items separated by commas. *)
Fixpoint tokens_items (A : Type) (tokens : A -> list Token) (l : list A)
  : list Token :=
  match l with
  | [] => []
  | [x] => tokens x
  | x :: l' => tokens x ++ TComma :: tokens_items tokens l'
  end.

Definition tokens_object (o : JsonObject) : list Token :=
  TLBrace :: tokens_items tokens_property o ++ [TRBrace].

Definition tokens_array (l : list JsonObject) : list Token :=
  TLBracket :: tokens_items tokens_object l ++ [TRBracket].

Fixpoint all_digits (s : string) : bool :=
  match s with
  | EmptyString => true
  | String c s' => is_digit c && all_digits s'
  end.

(** [o[key]]: the last property of that name, as [JSON.parse] keeps it. *)
Fixpoint get_property (o : JsonObject) (key : string) : option JsonScalar :=
  match o with
  | [] => None
  | (k, v) :: o' =>
      match get_property o' key with
      | Some x => Some x
      | None => if k =? key then Some v else None
      end
  end.

Definition type_of_string (s : string) : option NodeType :=
  if s =? "folder" then Some folder
  else if s =? "bookmark" then Some bookmark
  else None.

(** An optional string property: absent, a string, or not represented. *)
Definition optional_string (v : option JsonScalar) : option (option string) :=
  match v with
  | None => Some None
  | Some (JString s) => Some (Some s)
  | Some (JNumber _) => None
  end.

Definition optional_number (v : option JsonScalar) : option (option Z) :=
  match v with
  | None => Some None
  | Some (JNumber z) => Some (Some z)
  | Some (JString _) => None
  end.

(** The parsed object seen through the properties the program reads;
    [None] when it is not a node record. *)
Definition node_of_object (o : JsonObject) : option Node :=
  match get_property o "id", get_property o "name",
        get_property o "type", get_property o "parent" with
  | Some (JString i), Some (JString nm), Some (JString t), Some (JString p) =>
      match type_of_string t,
            optional_string (get_property o "url"),
            optional_number (get_property o "accessTime"),
            optional_number (get_property o "order") with
      | Some ty, Some u, Some a, Some ord => Some (mkNode i nm ty p u a ord)
      | _, _, _, _ => None
      end
  | _, _, _, _ => None
  end.

Fixpoint nodes_of_objects (l : list JsonObject) : option Store :=
  match l with
  | [] => Some []
  | o :: l' =>
      match node_of_object o, nodes_of_objects l' with
      | Some n, Some st => Some (n :: st)
      | _, _ => None
      end
  end.

(** [JSON.parse(text)] where it yields an array of node records. *)
Definition JSON_parse (text : string) : option Store :=
  match JSON_objects text with
  | Some objs => nodes_of_objects objs
  | None => None
  end.

(** ** Import from a file *)

Inductive ImportOutcome : Set :=
| Imported (count : nat)          (* the store was replaced *)
| ImportCancelled                 (* the user declined the replacement *)
| ImportFailed (e : JsError)      (* the error was caught and reported *)
| ImportUnmodelled.               (* this embedding gives no answer *)

Section FileImport.

Variable parseFromString : string -> DomNode.
Variable stamp : nat -> string.

(** The format test of line 1292. *)
Definition looks_like_markup (fileName text : string) : bool :=
  endsWith fileName ".html"
  || startsWith (trim text) "<!DOCTYPE"
  || includes text "<DT>"
  || includes text "<DL>".

(** [handleFileImport(event)], lines 1283-1329, for a selected file with
    the given name and text, as the outcome and the new [bookmarks];
    [confirmed] is the answer to the replacement dialog. *)
Definition handleFileImport (fuel : nat) (bookmarks : Store)
           (fileName text : string) (confirmed : bool) : ImportOutcome * Store :=
  let replace (importedBookmarks : Store) :=
      if (0 <? length bookmarks)%nat && negb confirmed
      then (ImportCancelled, bookmarks)
      else (Imported (length importedBookmarks), importedBookmarks) in
  if looks_like_markup fileName text then
    match parseChromeBookmarks parseFromString stamp fuel text with
    | Normal importedBookmarks =>
        if (length importedBookmarks =? 0)%nat
        then (ImportFailed (GenericError "No bookmarks found in HTML file"), bookmarks)
        else replace importedBookmarks
    | Throw e => (ImportFailed e, bookmarks)
    | Diverge => (ImportUnmodelled, bookmarks)
    end
  else
    match JSON_parse text with
    | Some importedBookmarks => replace importedBookmarks
    | None => (ImportUnmodelled, bookmarks)
    end.

End FileImport.

(** * Further operations of [script.js] *)

(** ** Persistence of the store *)

(** The body of [bookmarks.forEach] in [loadBookmarks], lines 54-61, on
    the element at [index]. *)
Definition with_defaults (index : nat) (bookmark_ : Node) : Node :=
  mkNode (id bookmark_) (name bookmark_) (type bookmark_) (parent bookmark_)
         (url bookmark_)
         (match accessTime bookmark_ with
          | None => Some 0%Z
          | Some t => Some t
          end)
         (match order bookmark_ with
          | None => Some (Z.of_nat index)
          | Some o => Some o
          end).

Definition fill_defaults (bookmarks : Store) : Store :=
  map (fun item : Ref => with_defaults (fst item) (snd item)) (indexed bookmarks).

(** [loadBookmarks()], lines 48-66, as the new [bookmarks]: [stored] is
    [localStorage.getItem(STORAGE_KEY)], [None] for [null]. The result
    is [None] where the stored text is outside the texts [JSON_parse]
    reads. *)
Definition loadBookmarks (stored : option string) (bookmarks : Store)
  : option Store :=
  match stored with
  | None => Some bookmarks
  | Some text =>
      if negb (truthy text) then Some bookmarks
      else match JSON_parse text with
           | Some parsed => Some (fill_defaults parsed)
           | None => None
           end
  end.

(** [saveBookmarks()], lines 69-77, as the new value of the storage item;
    [quotaLeft] tells whether [localStorage.setItem] goes through (it
    throws when the storage is full, and the item keeps its value). *)
Definition saveBookmarks (quotaLeft : bool) (bookmarks : Store)
           (stored : option string) : option string :=
  if quotaLeft then Some (JSON_stringify bookmarks) else stored.

(** ** Access times *)

Definition set_accessTime (t : option Z) (n : Node) : Node :=
  mkNode (id n) (name n) (type n) (parent n) (url n) t (order n).

(** [recordBookmarkAccess(bookmarkId)], lines 427-435, as the new store;
    [now] is [Date.now()]. *)
Definition recordBookmarkAccess (now : Z) (bookmarks : Store)
           (bookmarkId : string) : Store :=
  match find (fun b : Ref => id (snd b) =? bookmarkId) (indexed bookmarks) with
  | Some bookmark_ => update_at (fst bookmark_) (set_accessTime (Some now)) bookmarks
  | None => bookmarks
  end.

(** The five icons of [getBookmarkIcon], named after the comments of the
    source. *)
Inductive BookmarkIcon : Set :=
| IconVeryRecent      (* last hour *)
| IconRecent          (* last day *)
| IconThisWeek
| IconThisMonth
| IconPlain.          (* never accessed, or older than a month *)

(** [getBookmarkIcon(accessTime)], lines 438-461; [now] is [Date.now()]. *)
Definition getBookmarkIcon (now : Z) (accessTime_ : option Z) : BookmarkIcon :=
  match accessTime_ with
  | None => IconPlain
  | Some t =>
      if (t =? 0)%Z then IconPlain
      else
        let timeDiff := (now - t)%Z in
        let oneHour := (60 * 60 * 1000)%Z in
        let oneDay := (24 * oneHour)%Z in
        let oneWeek := (7 * oneDay)%Z in
        let oneMonth := (30 * oneDay)%Z in
        if (timeDiff <? oneHour)%Z then IconVeryRecent
        else if (timeDiff <? oneDay)%Z then IconRecent
        else if (timeDiff <? oneWeek)%Z then IconThisWeek
        else if (timeDiff <? oneMonth)%Z then IconThisMonth
        else IconPlain
  end.

(** How far from the present an icon places the last access. *)
Definition icon_age (i : BookmarkIcon) : nat :=
  match i with
  | IconVeryRecent => 0
  | IconRecent => 1
  | IconThisWeek => 2
  | IconThisMonth => 3
  | IconPlain => 4
  end.

(** ** Persistence of the navigation cursor *)


(** ** Drag and drop in the management tree *)

(** The [drop] listener of [setupTreeDragAndDrop], lines 958-997, on the
    element of [item]; [None] when the ancestry check does not return. *)
Definition onTreeDrop (fuel : nat) (bookmarks : Store) (item : Ref)
           (draggedId : string) : option (DropOutcome * Store) :=
  match find (fun b : Ref => id (snd b) =? draggedId) (indexed bookmarks) with
  | None => Some (DropNoSuchItem, bookmarks)
  | Some draggedItemObj =>
      let newParent :=
          if is_folder item then id (snd item)
          else str_or (parent (snd item)) "" in
      if id (snd item) =? id (snd draggedItemObj)
      then Some (DropOnItself, bookmarks)
      else
        match (if is_folder item
               then isDescendant fuel bookmarks (id (snd item))
                                 (id (snd draggedItemObj))
               else Some false) with
        | None => None
        | Some true => Some (DropIntoDescendant, bookmarks)
        | Some false =>
            Some (DropMoved,
                  update_at (fst draggedItemObj) (set_parent newParent) bookmarks)
        end
  end.

(** ** Adding and editing an item *)

(** [s.replace(pattern, replacement)] for a string pattern: the first
    occurrence only. *)
Fixpoint drop_chars (k : nat) (s : string) : string :=
  match k, s with
  | O, _ => s
  | S k', String _ s' => drop_chars k' s'
  | S _, EmptyString => EmptyString
  end.

Fixpoint replace_first (s pattern replacement : string) : string :=
  if startsWith s pattern
  then (replacement ++ drop_chars (String.length pattern) s)%string
  else match s with
       | EmptyString => EmptyString
       | String c s' => String c (replace_first s' pattern replacement)
       end.

Section SaveItem.

(** [String.prototype.toUpperCase], the host's. *)
Variable toUpperCase : string -> string.

(** [new URL(url).hostname]; [None] when the constructor throws. *)
Variable hostname : string -> option string.

(** [name.charAt(0).toUpperCase() + name.slice(1)] *)
Definition capitalize (s : string) : string :=
  match s with
  | EmptyString => toUpperCase EmptyString
  | String c s' => (toUpperCase (String c EmptyString) ++ s')%string
  end.

(** [fetchPageTitle(url, nameInput)], lines 1001-1053, as the new value
    of the name field; [pageTitle] is the trimmed, non-empty text of the
    title element the proxy returned, [None] when the request fails or
    gives none. *)
Definition fetchPageTitle (pageTitle : option string) (url_ nameValue : string)
  : string :=
  if negb (truthy url_) then nameValue
  else
    match pageTitle with
    | Some title =>
        if negb (truthy (trim nameValue)) then title else nameValue
    | None =>
        match hostname url_ with
        | Some host =>
            if negb (truthy (trim nameValue))
            then capitalize (replace_first host "www." EmptyString)
            else nameValue
        | None => nameValue
        end
    end.

Inductive SaveOutcome : Set :=
| SaveNeedsUrl     (* alert: Please enter a URL *)
| SaveNeedsName    (* alert: Please enter a name *)
| SaveUpdated
| SaveAdded.

Definition set_name (s : string) (n : Node) : Node :=
  mkNode (id n) s (type n) (parent n) (url n) (accessTime n) (order n).

Definition set_url (u : option string) (n : Node) : Node :=
  mkNode (id n) (name n) (type n) (parent n) u (accessTime n) (order n).

(** The name [saveBookmarkItem] settles on, lines 1057-1089. *)
Definition resolved_name (pageTitle : option string)
           (nameValue url_ : string) (isFolder : bool) : string :=
  let name0 := trim nameValue in
  let name1 :=
      if negb isFolder && negb (truthy name0) && truthy url_
      then trim (fetchPageTitle pageTitle url_ nameValue)
      else name0 in
  if negb (truthy name1) && negb isFolder && truthy url_
  then match hostname url_ with
       | Some host => capitalize (replace_first host "www." EmptyString)
       | None => "Untitled Bookmark"
       end
  else name1.

(** [saveBookmarkItem()], lines 1056-1129, as the outcome and the new
    store. [nameValue], [urlValue] and [parentValue] are the values of
    the form fields, [isFolder] tells whether the title of the dialog
    contains [Folder], [editingItem] is the item being edited if any,
    and [newId] is the id generated for a new item. *)
Definition saveBookmarkItem (pageTitle : option string) (newId : string)
           (bookmarks : Store) (editingItem : option Ref)
           (nameValue urlValue parentValue : string) (isFolder : bool)
  : SaveOutcome * Store :=
  let url_ := trim urlValue in
  if negb isFolder && negb (truthy url_) then (SaveNeedsUrl, bookmarks)
  else
    let name_ := resolved_name pageTitle nameValue url_ isFolder in
    if negb (truthy name_) then (SaveNeedsName, bookmarks)
    else
      match editingItem with
      | Some item =>
          (SaveUpdated,
           update_at (fst item)
                     (fun n =>
                        set_parent parentValue
                          ((if isFolder then (fun m => m) else set_url (Some url_))
                             (set_name name_ n)))
                     bookmarks)
      | None =>
          let siblings := getItemsByParent bookmarks (str_or parentValue "") in
          let newItem :=
              mkNode newId name_ (if isFolder then folder else bookmark)
                     (str_or parentValue "")
                     (if isFolder then None else Some url_)
                     (if isFolder then None else Some 0%Z)
                     (Some (Z.of_nat (length siblings))) in
          (SaveAdded, bookmarks ++ [newItem])
      end.

End SaveItem.

(** ** Orders on the children of a parent *)

(** The order in which [getItemsByParent] lists two children: by
    [order], a child without [order] after those that have one, and by
    position in the store among equals. *)
Definition child_before (a b : Ref) : Prop :=
  match order (snd a), order (snd b) with
  | Some x, Some y => (x < y)%Z \/ (x = y /\ fst a <= fst b)
  | Some _, None => True
  | None, Some _ => False
  | None, None => fst a <= fst b
  end.

(** ** The parent graph *)

(** What the parent graph reads of an object: its [id] and its [parent]. *)
Definition id_parent (n : Node) : string * string := (id n, parent n).

(** What a move leaves of an object: everything but [parent] and
    [order]. *)
Definition content (n : Node)
  : string * string * NodeType * option string * option Z :=
  (id n, name n, type n, url n, accessTime n).

(** ** Objects the dialogs accept *)

(** An object as the add and edit dialog lets it into the store: it has
    a name, and a link has an address. *)
Definition well_formed (n : Node) : Prop :=
  name n <> ""
  /\ (type n = bookmark -> exists u, url n = Some u /\ u <> "").

(** ** Objects the markup import makes *)

(** A folder as [processDL] pushes it: named, and without url, access
    time and order. *)
Definition plain_folder (n : Node) : Prop :=
  type n = folder /\ name n <> "" /\ url n = None
  /\ accessTime n = None /\ order n = None.

(** ** The parent selector of the dialog *)

(** An [option] element of the selector [bookmarkParent]. *)
Record SelectOption : Set := mkSelectOption {
  opt_value : string;
  opt_text : string;
  opt_disabled : bool
}.

(** [folders.forEach(folder => ...)] over the options appended so far;
    [None] when a call does not return. *)
Fixpoint forEach_folder
         (body : Node -> list SelectOption -> option (list SelectOption))
         (folders : list Node) (select : list SelectOption)
  : option (list SelectOption) :=
  match folders with
  | [] => Some select
  | folder_ :: rest =>
      match body folder_ select with
      | Some select' => forEach_folder body rest select'
      | None => None
      end
  end.

(** [addFolderOptions(folders, prefix)] of [populateParentSelect], lines
    791-810; [fuel] bounds its own recursion and [fuelD] that of
    [isDescendant]. *)
Fixpoint addFolderOptions (fuel fuelD : nat) (bookmarks : Store)
         (editingItem : option Node) (folders : list Node) (prefix : string)
         (select : list SelectOption) : option (list SelectOption) :=
  match fuel with
  | O => None
  | S fuel' =>
      forEach_folder
        (fun folder_ select0 =>
           if NodeType_eqb (type folder_) folder then
             match (match editingItem with
                    | Some e =>
                        if id e =? id folder_ then Some true
                        else isDescendant fuelD bookmarks (id e) (id folder_)
                    | None => Some false
                    end) with
             | None => None
             | Some disabled =>
                 let select1 :=
                     select0 ++ [ {| opt_value := id folder_;
                                     opt_text := (prefix ++ name folder_)%string;
                                     opt_disabled := disabled |} ] in
                 let children := getItemsByParent bookmarks (id folder_) in
                 let folderChildren :=
                     filter (fun item => NodeType_eqb (type item) folder) children in
                 if (0 <? length folderChildren)%nat
                 then addFolderOptions fuel' fuelD bookmarks editingItem
                                       folderChildren
                                       (prefix ++ name folder_ ++ " / ")%string
                                       select1
                 else Some select1
             end
           else Some select0)
        folders select
  end.

(** [populateParentSelect()], lines 787-819, as the options of the
    selector. *)
Definition populateParentSelect (fuel fuelD : nat) (bookmarks : Store)
           (editingItem : option Node) : option (list SelectOption) :=
  let rootFolders :=
      filter (fun item => NodeType_eqb (type item) folder)
             (getItemsByParent bookmarks "") in
  addFolderOptions fuel fuelD bookmarks editingItem rootFolders ""
                   [ {| opt_value := ""; opt_text := "Root"; opt_disabled := false |} ].

(** An option made for a folder of the store, disabled exactly when the
    folder is the item being edited or is met on the way up from it. *)
Definition folder_option (st : Store) (editingItem : option Node)
           (o : SelectOption) : Prop :=
  (exists f p, In f st /\ type f = folder /\ opt_value o = id f
               /\ opt_text o = (p ++ name f)%string)
  /\ (opt_disabled o = true
      <-> exists e, editingItem = Some e
                    /\ (id e = opt_value o
                        \/ clos_trans string (parent_step st) (id e) (opt_value o))).

(** ** Sample stores and inputs *)

(** A root folder that holds a folder that holds a link. *)
Definition sample_tree : Store :=
  [ mkNode "a" "Work" folder "" None None (Some 0%Z);
    mkNode "ab" "Mail" folder "a" None None (Some 0%Z);
    mkNode "abc" "Inbox" bookmark "ab" (Some "https://mail.test") (Some 0%Z) (Some 0%Z) ].

(** Two folders, each the parent of the other. *)
Definition sample_cycle : Store :=
  [ mkNode "a" "A" folder "b" None None (Some 0%Z);
    mkNode "b" "B" folder "a" None None (Some 0%Z) ].

(** A link whose parent id names no node of the store. *)
Definition sample_dangling : Store :=
  [ mkNode "a" "Work" folder "" None None (Some 0%Z);
    mkNode "x" "Lost" bookmark "ghost" (Some "https://lost.test") (Some 0%Z) (Some 0%Z) ].

(** Folders [a] and [c]; the folder [b] between them is gone. *)
Definition sample_gap : Store :=
  [ mkNode "a" "Work" folder "" None None (Some 0%Z);
    mkNode "c" "Deep" folder "b" None None (Some 0%Z) ].

Definition sample_path : list PathEntry :=
  [ mkPathEntry "a" "Work"; mkPathEntry "b" "Mid"; mkPathEntry "c" "Deep" ].

(** The restoration the specification describes: the cursor is cut at the
    first entry that does not resolve to a folder. *)
Fixpoint restore_truncating (bookmarks : Store) (path : list PathEntry)
  : list PathEntry :=
  match path with
  | [] => []
  | folderData :: rest =>
      match restore_entry bookmarks folderData with
      | Some e => e :: restore_truncating bookmarks rest
      | None => []
      end
  end.

(** An id resolves when some folder of the store carries it. *)
Definition resolves (bookmarks : Store) (i : string) : bool :=
  existsb (fun b => (id b =? i) && NodeType_eqb (type b) folder) bookmarks.

(** A document with the panes [pane1] to [pane10]. *)
Definition ten_panes (i : Z) : bool := (1 <=? i)%Z && (i <=? MAX_LEVELS)%Z.

Definition sample_folder : Node := mkNode "c" "Deep" folder "b" None None (Some 0%Z).

(** The link of [sample_tree], as the object at index 2 of the store. *)
Definition sample_link : Ref :=
  (2, mkNode "abc" "Inbox" bookmark "ab" (Some "https://mail.test") (Some 0%Z) (Some 0%Z)).

(** The drop zone of that link, rendered in the pane that shows the
    children of folder [ab]. *)
Definition sample_zone : DropZone := setupDropZone "ab" (Some sample_link).

(** The markup [<DL><DT><H3>Dev</H3><DL><DT><A HREF="https://x.test">X</A></DL></DL>]. *)
Definition sample_markup : string :=
  ("<DL><DT><H3>Dev</H3><DL><DT><A HREF="
     ++ String dquote "https://x.test" ++ String dquote ">X</A></DL></DL>")%string.

(** The document an HTML parser builds for [sample_markup]: the [html],
    [head] and [body] elements are implied; the heading and the inner
    list are children of the first [DT], the anchor is the child of the
    second. *)
Definition sample_document : DomNode :=
  DomElement "#document" []
    [ DomElement "HTML" []
        [ DomElement "HEAD" [] [];
          DomElement "BODY" []
            [ DomElement "DL" []
                [ DomElement "DT" []
                    [ DomElement "H3" [] [ DomText "Dev" ];
                      DomElement "DL" []
                        [ DomElement "DT" []
                            [ DomElement "A" [("href", "https://x.test")]
                                         [ DomText "X" ] ] ] ] ] ] ] ].

(** A collation for examples: strings are compared by their first
    character. *)
Definition first_char (s : string) : Z :=
  match s with
  | EmptyString => 0%Z
  | String c _ => Z.of_nat (nat_of_ascii c)
  end.

Definition first_char_collation (a b : string) : Z := (first_char a - first_char b)%Z.

Definition sample_A : Node :=
  mkNode "1" "Mail A" bookmark "" (Some "https://a.test") (Some 1000%Z) (Some 0%Z).
Definition sample_B : Node :=
  mkNode "2" "Mail B" bookmark "" (Some "https://b.test") (Some 2000%Z) (Some 1%Z).
Definition sample_C : Node :=
  mkNode "3" "Mail C" bookmark "" (Some "https://c.test") (Some 0%Z) (Some 2%Z).
Definition sample_Zeta : Node :=
  mkNode "4" "Zeta" bookmark "" (Some "https://z.test") (Some 0%Z) (Some 3%Z).
Definition sample_Alpha : Node :=
  mkNode "5" "Alpha" bookmark "" (Some "https://al.test") (Some 0%Z) (Some 4%Z).

(** Three root links whose [order] values are neither contiguous nor all
    present. *)
Definition sample_siblings : Store :=
  [ mkNode "s1" "One" bookmark "" (Some "https://one.test") (Some 0%Z) (Some 5%Z);
    mkNode "s2" "Two" bookmark "" (Some "https://two.test") (Some 0%Z) (Some 7%Z);
    mkNode "s3" "Three" bookmark "" (Some "https://three.test") (Some 0%Z) None ].

(** A folder whose name is a markup token. *)
Definition sample_named : Store :=
  [ mkNode "1" "<DL>" folder "" None None None ].

(** The document an HTML parser builds for the JSON text of
    [sample_named]: the text up to the token, then a [DL] element that
    holds the rest of the text. *)
Definition sample_named_document : DomNode :=
  DomElement "#document" []
    [ DomElement "HTML" []
        [ DomElement "HEAD" [] [];
          DomElement "BODY" []
            [ DomText (substring 0 34 (exportBookmarks sample_named));
              DomElement "DL" []
                [ DomText (substring 38 47 (exportBookmarks sample_named)) ] ] ] ].

(** ** Further sample inputs *)

(** The markup [<DL><DT><H3>Work</H3><DL><DT><H3>Mail</H3></DL></DL>]:
    two folders and no link. *)
Definition sample_folders_markup : string :=
  "<DL><DT><H3>Work</H3><DL><DT><H3>Mail</H3></DL></DL>".

(** The document an HTML parser builds for it. *)
Definition sample_folders_document : DomNode :=
  DomElement "#document" []
    [ DomElement "HTML" []
        [ DomElement "HEAD" [] [];
          DomElement "BODY" []
            [ DomElement "DL" []
                [ DomElement "DT" []
                    [ DomElement "H3" [] [ DomText "Work" ];
                      DomElement "DL" []
                        [ DomElement "DT" []
                            [ DomElement "H3" [] [ DomText "Mail" ] ] ] ] ] ] ] ].

(** * Properties *)

(** *** Basic facts *)

Lemma find_by_id_some st i n :
  find_by_id st i = Some n -> In n st /\ id n = i.
Proof.
  unfold find_by_id. intros H. apply find_some in H.
  destruct H as [Hin Heq]. apply String.eqb_eq in Heq. auto.
Qed.

Lemma truthy_true_iff s : truthy s = true <-> s <> "".
Proof.
  unfold truthy. rewrite negb_true_iff. apply String.eqb_neq.
Qed.

Lemma parent_step_edge st c p : parent_step st c p -> parent_edge st c p.
Proof.
  intros (n & Hf & Hp & _). apply find_by_id_some in Hf.
  exists n. tauto.
Qed.

(** A ranking that decreases along every parent edge excludes cycles. *)
Lemma acyclic_by_rank st (rank : string -> nat) :
  (forall n, In n st -> rank (parent n) < rank (id n)) -> acyclic st.
Proof.
  intros Hr.
  assert (Hlt : forall i j, clos_trans string (parent_edge st) i j ->
                            rank j < rank i).
  { induction 1 as [i j (n & Hin & <- & <-) | i j k _ IH1 _ IH2].
    - apply Hr, Hin.
    - lia. }
  intros i Hc. apply Hlt in Hc. lia.
Qed.

Lemma parent_edge_incl st st' c p :
  incl st' st -> parent_edge st' c p -> parent_edge st c p.
Proof.
  intros Hi (n & Hin & Hid & Hp). exists n. auto.
Qed.

Lemma parent_path_incl st st' i j :
  incl st' st ->
  clos_trans string (parent_edge st') i j ->
  clos_trans string (parent_edge st) i j.
Proof.
  intros Hi Hc. induction Hc as [i j He | i j k _ IH1 _ IH2].
  - apply t_step. eapply parent_edge_incl; eauto.
  - eapply t_trans; eauto.
Qed.

(** *** Termination of the ancestry walk *)

Section AncestryWalk.

Variable st : Store.
Hypothesis st_acyclic : acyclic st.

(** The ids already walked through are pairwise distinct ids of the
  store, so there are at most [length st] of them. *)
Lemma walked_bound (walked : list string) :
NoDup walked -> incl walked (map id st) -> length walked <= length st.
Proof.
intros Hnd Hincl. rewrite <- (length_map id st).
apply NoDup_incl_length; assumption.
Qed.

Lemma isDescendant_fuel fuel : forall walked itemId ancestorId,
NoDup walked ->
incl walked (map id st) ->
(forall v, In v walked -> clos_trans string (parent_edge st) v itemId) ->
length st < fuel + length walked ->
isDescendant fuel st itemId ancestorId <> None.
Proof.
induction fuel as [|fuel IH]; intros walked itemId ancestorId Hnd Hin Hup Hlen.
- pose proof (walked_bound Hnd Hin). simpl in Hlen. lia.
- simpl. destruct (find_by_id st itemId) as [item|] eqn:Hf; [|discriminate].
  destruct (truthy (parent item)); simpl; [|discriminate].
  destruct (parent item =? ancestorId); [discriminate|].
  apply find_by_id_some in Hf. destruct Hf as [Hitem Hid].
  assert (Hedge : parent_edge st itemId (parent item)).
  { exists item. auto. }
  apply (IH (itemId :: walked)).
  + constructor; [|assumption].
    intros Hw. apply (st_acyclic (i:=itemId)). apply Hup, Hw.
  + intros v [<-|Hv]; [|apply Hin, Hv].
    rewrite <- Hid. apply in_map, Hitem.
  + intros v [<-|Hv].
    * apply t_step, Hedge.
    * eapply t_trans; [apply Hup, Hv|apply t_step, Hedge].
  + simpl. lia.
Qed.

(** The walk visits accessible ids only: the parent step is well
  founded on an acyclic store. *)
Lemma parent_step_acc k : forall walked itemId,
NoDup walked ->
incl walked (map id st) ->
(forall v, In v walked -> clos_trans string (parent_edge st) v itemId) ->
length st < k + length walked ->
Acc (fun p c => parent_step st c p) itemId.
Proof.
induction k as [|k IH]; intros walked itemId Hnd Hin Hup Hlen.
- pose proof (walked_bound Hnd Hin). simpl in Hlen. lia.
- constructor. intros p Hstep.
  pose proof (parent_step_edge Hstep) as Hedge.
  destruct Hstep as (item & Hf & _ & _).
  apply find_by_id_some in Hf. destruct Hf as [Hitem Hid].
  apply (IH (itemId :: walked)).
  + constructor; [|assumption].
    intros Hw. apply (st_acyclic (i:=itemId)). apply Hup, Hw.
  + intros v [<-|Hv]; [|apply Hin, Hv].
    rewrite <- Hid. apply in_map, Hitem.
  + intros v [<-|Hv].
    * apply t_step, Hedge.
    * eapply t_trans; [apply Hup, Hv|apply t_step, Hedge].
  + simpl. lia.
Qed.

End AncestryWalk.

(** More fuel never changes a result. *)
Lemma isDescendant_mono st fuel : forall fuel' itemId ancestorId b,
  isDescendant fuel st itemId ancestorId = Some b ->
  fuel <= fuel' ->
  isDescendant fuel' st itemId ancestorId = Some b.
Proof.
  induction fuel as [|fuel IH]; intros fuel' itemId ancestorId b H Hle.
  - discriminate.
  - destruct fuel' as [|fuel']; [lia|].
    simpl in *. destruct (find_by_id st itemId) as [item|]; [|assumption].
    destruct (negb (truthy (parent item))); [assumption|].
    destruct (parent item =? ancestorId); [assumption|].
    apply IH; [assumption|lia].
Qed.

(** *** The walk on a cycle *)

Lemma rt_then_step (A : Type) (R : A -> A -> Prop) x y z :
  clos_refl_trans A R x y -> R y z -> clos_trans A R x z.
Proof.
  intros Hxy Hyz. apply clos_rt_rt1n in Hxy.
  induction Hxy as [|x y w Hxy _ IH].
  - apply t_step, Hyz.
  - eapply t_trans; [apply t_step, Hxy | apply IH, Hyz].
Qed.

Section CycleWalk.

Variable st : Store.
Variables start ancestorId : string.
Hypothesis on_cycle : clos_trans string (parent_step st) start start.
Hypothesis never_met : ~ clos_trans string (parent_step st) start ancestorId.

Lemma on_walk_start : on_walk st start start.
Proof.
  split; [apply rt_refl | exact on_cycle].
Qed.

Lemma on_walk_next j :
  on_walk st start j ->
  exists item,
    find_by_id st j = Some item /\ parent item <> "" /\
    parent item <> ancestorId /\ on_walk st start (parent item).
Proof.
  intros [Hto Hback].
  assert (Hfirst : exists k, parent_step st j k /\
                             (k = start \/ clos_trans string (parent_step st) k start)).
  { apply clos_trans_t1n in Hback.
    inversion Hback as [k Hs | k z Hs Hrest]; subst.
    - exists start. auto.
    - exists k. split; [assumption|]. right. apply clos_t1n_trans, Hrest. }
  destruct Hfirst as (k & Hstep & Hk).
  pose proof Hstep as (item & Hf & Hp & Hne).
  exists item. subst k. repeat split; try assumption.
  - intros Heq. apply never_met. rewrite <- Heq.
    eapply rt_then_step; eassumption.
  - eapply rt_trans; [exact Hto | apply rt_step, Hstep].
  - destruct Hk as [->|Hk]; [exact on_cycle | exact Hk].
Qed.

Lemma isDescendant_on_walk fuel : forall j,
  on_walk st start j -> isDescendant fuel st j ancestorId = None.
Proof.
  induction fuel as [|fuel IH]; intros j Hj; [reflexivity|].
  destruct (on_walk_next Hj) as (item & Hf & Hne & Hanc & Hnext).
  simpl. rewrite Hf.
  apply truthy_true_iff in Hne. rewrite Hne. simpl.
  apply String.eqb_neq in Hanc. rewrite Hanc.
  apply IH, Hnext.
Qed.

End CycleWalk.

(** C10. On a store whose parent graph is acyclic, [isDescendant]
    returns for all arguments: any fuel above the number of nodes gives
    the same answer, and every id is accessible for the parent step the
    recursion follows. On a store where the walk from the item runs into
    a cycle without meeting the ancestor id, no fuel gives an answer. *)
Theorem isDescendant_terminates (st : Store) (itemId ancestorId : string)
        (Hacyclic : acyclic st) :
  (exists b, forall fuel, length st < fuel ->
                          isDescendant fuel st itemId ancestorId = Some b)
  /\ Acc (fun p c => parent_step st c p) itemId
  /\ (forall cyc i a,
         clos_trans string (parent_step cyc) i i ->
         ~ clos_trans string (parent_step cyc) i a ->
         forall fuel, isDescendant fuel cyc i a = None).
Proof.
  split; [|split].
  - assert (Hsome : isDescendant (S (length st)) st itemId ancestorId <> None).
    { apply (@isDescendant_fuel st Hacyclic (S (length st)) []).
      - constructor.
      - intros v [].
      - intros v [].
      - simpl. lia. }
    destruct (isDescendant (S (length st)) st itemId ancestorId) as [b|] eqn:Hb;
      [|contradiction].
    exists b. intros fuel Hfuel.
    apply (isDescendant_mono _ _ _ Hb). lia.
  - apply (@parent_step_acc st Hacyclic (S (length st)) []).
    + constructor.
    + intros v [].
    + intros v [].
    + simpl. lia.
  - intros cyc i a Hcyc Hnever fuel.
    apply (isDescendant_on_walk Hcyc Hnever fuel (on_walk_start Hcyc)).
Qed.

Lemma sample_tree_acyclic : acyclic sample_tree.
Proof.
  apply (@acyclic_by_rank sample_tree String.length).
  intros n [<-|[<-|[<-|[]]]]; simpl; lia.
Qed.

Lemma sample_cycle_step x y :
  parent_step sample_cycle x y ->
  (x = "a" /\ y = "b") \/ (x = "b" /\ y = "a").
Proof.
  intros (item & Hf & Hp & _). revert Hf.
  unfold find_by_id, sample_cycle. cbn [find id].
  destruct (String.eqb_spec "a" x) as [<-|_].
  - intros [= <-]. left. split; [reflexivity | symmetry; exact Hp].
  - destruct (String.eqb_spec "b" x) as [<-|_].
    + intros [= <-]. right. split; [reflexivity | symmetry; exact Hp].
    + intros Hf. discriminate Hf.
Qed.

Lemma sample_cycle_closed x y :
  clos_trans string (parent_step sample_cycle) x y -> y = "a" \/ y = "b".
Proof.
  induction 1 as [x y Hs|]; [|assumption].
  apply sample_cycle_step in Hs. tauto.
Qed.

Lemma sample_cycle_loops :
  clos_trans string (parent_step sample_cycle) "a" "a".
Proof.
  apply t_trans with (y:="b"); apply t_step; eexists;
    (split; [reflexivity | split; [reflexivity | discriminate]]).
Qed.

Lemma isDescendant_terminates_witness :
  (exists b, forall fuel, length sample_tree < fuel ->
                          isDescendant fuel sample_tree "abc" "a" = Some b)
  /\ Acc (fun p c => parent_step sample_tree c p) "abc"
  /\ (forall fuel, isDescendant fuel sample_cycle "a" "zz" = None).
Proof.
  destruct (isDescendant_terminates (st:=sample_tree) "abc" "a" sample_tree_acyclic)
    as (H1 & H2 & H3).
  split; [assumption | split; [assumption|]].
  apply H3.
  - exact sample_cycle_loops.
  - intros Hc. apply sample_cycle_closed in Hc.
    destruct Hc; discriminate.
Defined.

(** ** Sorting *)

Lemma js_insert_perm (A : Type) (cmp : A -> A -> Z) x l :
  Permutation (js_insert cmp x l) (x :: l).
Proof.
  induction l as [|y l IH]; simpl.
  - apply Permutation_refl.
  - destruct (cmp x y <=? 0)%Z.
    + apply Permutation_refl.
    + eapply perm_trans; [apply perm_skip, IH | apply perm_swap].
Qed.

Lemma js_sort_perm (A : Type) (cmp : A -> A -> Z) l :
  Permutation (js_sort cmp l) l.
Proof.
  induction l as [|x l IH]; simpl.
  - constructor.
  - eapply perm_trans; [apply js_insert_perm | apply perm_skip, IH].
Qed.

(** A comparator that is total and transitive gives sorted output. *)
Section SortConsistent.

Variable A : Type.
Variable cmp : A -> A -> Z.

Hypothesis cmp_total : forall a b, (0 < cmp a b)%Z -> (cmp b a <= 0)%Z.
Hypothesis cmp_trans : forall a b c, cmp_le cmp a b -> cmp_le cmp b c -> cmp_le cmp a c.

Lemma js_insert_sorted x l :
  StronglySorted (cmp_le cmp) l -> StronglySorted (cmp_le cmp) (js_insert cmp x l).
Proof.
  induction l as [|y l IH]; intros Hs; simpl.
  - constructor; constructor.
  - inversion Hs as [|y' l' Hl Hy]; subst.
    destruct (Z.leb_spec (cmp x y) 0) as [Hle|Hgt].
    + constructor; [assumption|].
      constructor; [exact Hle|].
      eapply Forall_impl; [|exact Hy].
      intros z Hz. eapply cmp_trans; eassumption.
    + constructor; [apply IH, Hl|].
      apply Forall_forall. intros z Hz.
      apply (Permutation_in _ (js_insert_perm cmp x l)) in Hz.
      destruct Hz as [<-|Hz].
      * apply cmp_total, Hgt.
      * rewrite Forall_forall in Hy. apply Hy, Hz.
Qed.

Lemma js_sort_sorted l : StronglySorted (cmp_le cmp) (js_sort cmp l).
Proof.
  induction l as [|x l IH]; simpl.
  - constructor.
  - apply js_insert_sorted, IH.
Qed.

(** Two sorted arrangements of the same elements agree as soon as
    elements that compare both ways are equal. *)
Lemma sorted_perm_unique l1 : forall l2,
  (forall a b, In a l1 -> In b l1 -> cmp_le cmp a b -> cmp_le cmp b a -> a = b) ->
  StronglySorted (cmp_le cmp) l1 -> StronglySorted (cmp_le cmp) l2 ->
  Permutation l1 l2 -> l1 = l2.
Proof.
  induction l1 as [|a l1 IH]; intros l2 Hanti H1 H2 Hp.
  - apply Permutation_nil in Hp. subst. reflexivity.
  - destruct l2 as [|b l2].
    { apply Permutation_sym, Permutation_nil in Hp. discriminate Hp. }
    inversion H1 as [|a' l1' Hs1 Ha]; subst.
    inversion H2 as [|b' l2' Hs2 Hb]; subst.
    rewrite Forall_forall in Ha, Hb.
    assert (Hb1 : In b (a :: l1)).
    { apply (Permutation_in _ (Permutation_sym Hp)). left. reflexivity. }
    assert (Ha2 : In a (b :: l2)).
    { apply (Permutation_in _ Hp). left. reflexivity. }
    assert (Heq : a = b).
    { destruct Hb1 as [Hab|Hb1]; [assumption|].
      destruct Ha2 as [Hba|Ha2]; [symmetry; assumption|].
      apply Hanti.
      - left. reflexivity.
      - right. assumption.
      - apply Ha, Hb1.
      - apply Hb, Ha2. }
    subst b. f_equal.
    apply IH; try assumption.
    + intros x y Hx Hy. apply Hanti; right; assumption.
    + eapply Permutation_cons_inv. exact Hp.
Qed.

End SortConsistent.

(** ** Children of a parent *)

Lemma indexed_snd st : map snd (indexed st) = st.
Proof.
  unfold indexed. generalize 0.
  induction st as [|x st IH]; intros k; simpl; [reflexivity|].
  f_equal. apply IH.
Qed.

Lemma indexed_fst st : map fst (indexed st) = seq 0 (length st).
Proof.
  unfold indexed. generalize 0.
  induction st as [|x st IH]; intros k; simpl; [reflexivity|].
  f_equal. apply IH.
Qed.

Lemma filter_map_snd (f : Node -> bool) (l : list Ref) :
  map snd (filter (fun e => f (snd e)) l) = filter f (map snd l).
Proof.
  induction l as [|e l IH]; simpl; [reflexivity|].
  destruct (f (snd e)); simpl; rewrite IH; reflexivity.
Qed.

(** The children of [p] are, up to order, the nodes whose [parent] field
    is [p]. *)
Lemma getItemsByParent_perm st p :
  Permutation (getItemsByParent st p) (filter (fun n => parent n =? p) st).
Proof.
  unfold getItemsByParent, getItemsByParent_refs.
  eapply perm_trans; [apply Permutation_map, js_sort_perm|].
  rewrite (filter_map_snd (fun n => parent n =? p)), indexed_snd.
  apply Permutation_refl.
Qed.

Lemma getItemsByParent_In st p n :
  In n (getItemsByParent st p) <-> In n st /\ parent n = p.
Proof.
  assert (H : In n (filter (fun m => parent m =? p) st) <-> In n st /\ parent n = p).
  { rewrite filter_In, String.eqb_eq. tauto. }
  rewrite <- H.
  split; apply Permutation_in;
    [apply getItemsByParent_perm | apply Permutation_sym, getItemsByParent_perm].
Qed.

(** ** Dangling parents *)

(** C9, as stated, fails: the link [x] of [sample_dangling] has the
    parent id [ghost], which no node carries, and the children of the
    root do not include it. *)
Lemma dangling_parent_at_root_counterexample :
  ~ (forall (st : Store) (n : Node),
        In n st -> parent n <> "" -> find_by_id st (parent n) = None ->
        In n (getItemsByParent st "")).
Proof.
  intros H.
  specialize (H sample_dangling
                (mkNode "x" "Lost" bookmark "ghost" (Some "https://lost.test")
                        (Some 0%Z) (Some 0%Z))).
  assert (Hin : In (mkNode "x" "Lost" bookmark "ghost" (Some "https://lost.test")
                           (Some 0%Z) (Some 0%Z))
                   (getItemsByParent sample_dangling "")).
  { apply H.
    - right. left. reflexivity.
    - discriminate.
    - reflexivity. }
  vm_compute in Hin. destruct Hin as [Hin|[]]. discriminate Hin.
Qed.

(** C9, amended. A node with a dangling, non-empty parent id is not
    among the children of the root: it is listed for its own stored
    parent id and for no other. [getItemsByParent] returns nodes of the
    store as they are, each under the parent id its [parent] field
    holds. *)
Theorem dangling_parent_not_at_root (st : Store) (n : Node)
        (Hin : In n st) (Hparent : parent n <> "")
        (Hdangling : find_by_id st (parent n) = None) :
  ~ In n (getItemsByParent st "")
  /\ In n (getItemsByParent st (parent n))
  /\ (forall p, In n (getItemsByParent st p) -> p = parent n)
  /\ (forall p m, In m (getItemsByParent st p) -> In m st /\ parent m = p).
Proof.
  repeat split.
  - intros H. apply getItemsByParent_In in H. destruct H as [_ H].
    apply Hparent, H.
  - apply getItemsByParent_In. auto.
  - intros p H. apply getItemsByParent_In in H. symmetry. apply H.
  - apply getItemsByParent_In in H. apply H.
  - apply getItemsByParent_In in H. apply H.
Qed.

Lemma dangling_parent_not_at_root_witness :
  ~ In (mkNode "x" "Lost" bookmark "ghost" (Some "https://lost.test")
               (Some 0%Z) (Some 0%Z))
       (getItemsByParent sample_dangling "").
Proof.
  refine (proj1 (@dangling_parent_not_at_root sample_dangling
            (mkNode "x" "Lost" bookmark "ghost" (Some "https://lost.test")
                    (Some 0%Z) (Some 0%Z)) _ _ _)).
  - right. left. reflexivity.
  - discriminate.
  - reflexivity.
Defined.

(** ** Restoring the navigation cursor *)

Lemma restore_entry_resolves st e :
  (exists r, restore_entry st e = Some r) <-> resolves st (pe_id e) = true.
Proof.
  unfold restore_entry, resolves.
  destruct (find _ st) as [f|] eqn:Hf.
  - split; [intros _|eauto].
    apply existsb_exists. apply find_some in Hf. exists f. exact Hf.
  - split; [intros [r Hr]; discriminate Hr|].
    intros He. apply existsb_exists in He. destruct He as (x & Hx & Hb).
    apply (find_none _ _ Hf) in Hx. congruence.
Qed.

Lemma restore_entry_id st e r :
  restore_entry st e = Some r ->
  pe_id r = pe_id e
  /\ exists f, In f st /\ type f = folder /\ id f = pe_id r
               /\ pe_name r = str_or (name f) (pe_name e).
Proof.
  unfold restore_entry.
  destruct (find _ st) as [f|] eqn:Hf; [|discriminate].
  intros [= <-]. apply find_some in Hf. destruct Hf as [Hin Hb].
  apply andb_true_iff in Hb. destruct Hb as [Hid Hty].
  apply String.eqb_eq in Hid. simpl.
  split; [assumption|]. exists f. repeat split; try assumption.
  destruct (type f); [reflexivity | discriminate].
Qed.

Lemma restored_ids st path :
  map pe_id (filter_not_null (map (restore_entry st) path))
  = filter (resolves st) (map pe_id path).
Proof.
  induction path as [|e path IH]; simpl; [reflexivity|].
  destruct (restore_entry st e) as [r|] eqn:Hr.
  - assert (Hres : resolves st (pe_id e) = true).
    { apply restore_entry_resolves. eauto. }
    rewrite Hres. simpl. rewrite IH.
    apply restore_entry_id in Hr. destruct Hr as [-> _]. reflexivity.
  - assert (Hres : resolves st (pe_id e) = false).
    { destruct (resolves st (pe_id e)) eqn:E; [|reflexivity].
      apply restore_entry_resolves in E. destruct E as [r E]. congruence. }
    rewrite Hres. exact IH.
Qed.

(** C7, as stated, fails: with the stored path [a, b, c] and a store in
    which [b] is gone while [a] and [c] are folders, the restored cursor
    is [a, c]; cutting at the first invalid entry would give [a]. *)
Lemma restore_truncates_counterexample :
  restoreNavigationState (StoredPath sample_path) sample_gap []
  = [ mkPathEntry "a" "Work"; mkPathEntry "c" "Deep" ]
  /\ restore_truncating sample_gap sample_path = [ mkPathEntry "a" "Work" ]
  /\ ~ (forall st path cur,
           restoreNavigationState (StoredPath path) st cur
           = restore_truncating st path).
Proof.
  split; [reflexivity | split; [reflexivity|]].
  intros H. specialize (H sample_gap sample_path []).
  vm_compute in H. discriminate H.
Qed.

(** C7, amended. Restoring drops exactly the stored entries whose id
    does not resolve to a folder of the live store and keeps every other
    entry, in the stored order, also after a dropped one; a kept entry
    has the id and the name of the live folder (the stored name when the
    folder has none). *)
Theorem restore_drops_unresolved (st : Store) (path cur : list PathEntry) :
  map pe_id (restoreNavigationState (StoredPath path) st cur)
  = filter (resolves st) (map pe_id path)
  /\ (forall r, In r (restoreNavigationState (StoredPath path) st cur) ->
                exists e f, In e path /\ In f st /\ type f = folder
                            /\ id f = pe_id e /\ pe_id r = id f
                            /\ pe_name r = str_or (name f) (pe_name e)).
Proof.
  split; [apply restored_ids|].
  simpl. induction path as [|e path IH]; simpl; [intros r []|].
  intros r Hr.
  destruct (restore_entry st e) as [r0|] eqn:Hr0.
  - destruct Hr as [<-|Hr].
    + apply restore_entry_id in Hr0.
      destruct Hr0 as (Hid & f & Hin & Hty & Hf & Hname).
      exists e, f. repeat split; auto; congruence.
    + destruct (IH r Hr) as (e' & f & He & Hrest).
      exists e', f. split; [right; exact He | exact Hrest].
  - destruct (IH r Hr) as (e' & f & He & Hrest).
    exists e', f. split; [right; exact He | exact Hrest].
Qed.

Lemma restore_drops_unresolved_witness :
  map pe_id (restoreNavigationState (StoredPath sample_path) sample_gap [])
  = [ "a"; "c" ]
  /\ exists e f, In e sample_path /\ In f sample_gap /\ type f = folder
                 /\ id f = pe_id e /\ pe_id (mkPathEntry "c" "Deep") = id f
                 /\ pe_name (mkPathEntry "c" "Deep") = str_or (name f) (pe_name e).
Proof.
  destruct (restore_drops_unresolved sample_gap sample_path []) as [Hids Hall].
  split; [exact Hids|].
  apply Hall. right. left. reflexivity.
Defined.

(** ** Descending into a folder *)

Lemma js_slice0_nonneg (A : Type) (l : list A) e :
  (0 <= e)%Z -> js_slice0 l e = firstn (Z.to_nat e) l.
Proof.
  intros He. unfold js_slice0.
  destruct (Z.ltb_spec e 0); [lia | reflexivity].
Qed.

(** C8. At a level at or beyond [MAX_LEVELS] the descent fails with the
    depth alert and [currentPath] is left as it was. At a level from 1
    below [MAX_LEVELS] it does not fail that way: the cursor is cut to
    the entries of the levels above and the folder's entry is appended,
    and the descent is complete when the document has the next pane.
    So the descent that opens level [MAX_LEVELS] goes through and the
    one from level [MAX_LEVELS] fails. *)
Theorem navigateToFolder_depth (paneExists : Z -> bool)
        (currentPath : list PathEntry) (folder_ : Node) :
  (forall level, (MAX_LEVELS <= level)%Z ->
     navigateToFolder paneExists currentPath folder_ level
     = (DepthExceeded, currentPath))
  /\ (forall level, (1 <= level < MAX_LEVELS)%Z ->
        snd (navigateToFolder paneExists currentPath folder_ level)
        = firstn (Z.to_nat (level - 1)) currentPath
                 ++ [ {| pe_id := id folder_; pe_name := name folder_ |} ]
        /\ fst (navigateToFolder paneExists currentPath folder_ level)
           <> DepthExceeded
        /\ (paneExists (level + 1)%Z = true ->
            fst (navigateToFolder paneExists currentPath folder_ level)
            = Navigated))
  /\ (paneExists MAX_LEVELS = true ->
      fst (navigateToFolder paneExists currentPath folder_ (MAX_LEVELS - 1))
      = Navigated)
  /\ fst (navigateToFolder paneExists currentPath folder_ MAX_LEVELS)
     = DepthExceeded.
Proof.
  assert (Hbelow : forall level, (1 <= level < MAX_LEVELS)%Z ->
            navigateToFolder paneExists currentPath folder_ level
            = (if paneExists (level + 1)%Z then Navigated else PaneMissing,
               firstn (Z.to_nat (level - 1)) currentPath ++ [entry_of folder_])).
  { intros level Hl. unfold navigateToFolder.
    destruct (Z.geb_spec level MAX_LEVELS) as [Hge|_]; [lia|].
    rewrite js_slice0_nonneg by lia.
    destruct (paneExists (level + 1)%Z); reflexivity. }
  split; [|split; [|split]].
  - intros level Hl. unfold navigateToFolder.
    destruct (Z.geb_spec level MAX_LEVELS) as [_|Hlt]; [reflexivity | lia].
  - intros level Hl. rewrite (Hbelow level Hl). simpl.
    split; [reflexivity|].
    split; [destruct (paneExists (level + 1)%Z); discriminate|].
    intros ->. reflexivity.
  - intros Hpane. rewrite Hbelow by (unfold MAX_LEVELS; lia).
    replace (MAX_LEVELS - 1 + 1)%Z with MAX_LEVELS by lia.
    rewrite Hpane. reflexivity.
  - reflexivity.
Qed.

Lemma navigateToFolder_depth_witness :
  navigateToFolder ten_panes sample_path sample_folder 12
  = (DepthExceeded, sample_path)
  /\ snd (navigateToFolder ten_panes sample_path sample_folder 2)
     = [ mkPathEntry "a" "Work"; mkPathEntry "c" "Deep" ]
  /\ fst (navigateToFolder ten_panes sample_path sample_folder 2) = Navigated
  /\ fst (navigateToFolder ten_panes sample_path sample_folder 9) = Navigated.
Proof.
  destruct (navigateToFolder_depth ten_panes sample_path sample_folder)
    as (Hfail & Hok & Hlast & _).
  split; [apply Hfail; unfold MAX_LEVELS; lia|].
  destruct (Hok 2%Z) as (Hpath & _ & Hnav); [unfold MAX_LEVELS; lia|].
  split; [exact Hpath|].
  split; [apply Hnav; reflexivity|].
  apply Hlast. reflexivity.
Defined.

(** ** Dropping on an item that is no folder *)

(** C1, evaluated where the code departs from it. [sample_tree] is
    acyclic. Dropping folder [ab] on the link it contains makes [ab] its
    own parent, and dropping folder [a] on that link makes [ab], which
    [isDescendant] reports as a descendant of [a], the parent of [a]:
    both drops are accepted as moves, and the store is cyclic after
    each. The ancestry check runs only when the drop target is a
    folder. *)
Theorem drop_on_link_accepts_cyclic_move :
  acyclic sample_tree
  /\ (forall fuel,
        onDrop fuel sample_tree sample_zone "ab"
        = Some (DropMoved,
                [ mkNode "a" "Work" folder "" None None (Some 0%Z);
                  mkNode "ab" "Mail" folder "ab" None None None;
                  snd sample_link ]))
  /\ isDescendant 3 sample_tree "ab" "a" = Some true
  /\ (forall fuel,
        onDrop fuel sample_tree sample_zone "a"
        = Some (DropMoved,
                [ mkNode "a" "Work" folder "ab" None None None;
                  mkNode "ab" "Mail" folder "a" None None (Some 0%Z);
                  snd sample_link ]))
  /\ ~ acyclic [ mkNode "a" "Work" folder "" None None (Some 0%Z);
                 mkNode "ab" "Mail" folder "ab" None None None;
                 snd sample_link ]
  /\ ~ acyclic [ mkNode "a" "Work" folder "ab" None None None;
                 mkNode "ab" "Mail" folder "a" None None (Some 0%Z);
                 snd sample_link ].
Proof.
  split; [exact sample_tree_acyclic|].
  split; [intros fuel; reflexivity|].
  split; [reflexivity|].
  split; [intros fuel; reflexivity|].
  split.
  - intros H. apply (H "ab"). apply t_step.
    eexists. split; [right; left; reflexivity | split; reflexivity].
  - intros H. apply (H "a"). apply t_trans with (y:="ab"); apply t_step.
    + eexists. split; [left; reflexivity | split; reflexivity].
    + eexists. split; [right; left; reflexivity | split; reflexivity].
Qed.

(** ** Import of the nested-list markup *)

(** C6, evaluated. For the document of [sample_markup] the parser emits
    the folder and, on reaching the anchor, evaluates the undeclared
    identifier [currentFolderId]: [parseChromeBookmarks] throws instead
    of returning nodes, and the import reports the error and keeps the
    store it had. *)
Theorem parseChromeBookmarks_sample_throws
        (parseFromString : string -> DomNode) (stamp : nat -> string)
        (Hdoc : parseFromString sample_markup = sample_document)
        (fuel : nat) (bookmarks : Store) (fileName : string) (confirmed : bool) :
  parseChromeBookmarks parseFromString stamp (S (S fuel)) sample_markup
  = Throw (ReferenceError "currentFolderId")
  /\ handleFileImport parseFromString stamp (S (S fuel)) bookmarks
                      fileName sample_markup confirmed
     = (ImportFailed (ReferenceError "currentFolderId"), bookmarks).
Proof.
  assert (Hparse :
            parseChromeBookmarks parseFromString stamp (S (S fuel)) sample_markup
            = Throw (ReferenceError "currentFolderId")).
  { unfold parseChromeBookmarks. rewrite Hdoc. reflexivity. }
  split; [exact Hparse|].
  unfold handleFileImport. rewrite Hparse.
  replace (looks_like_markup fileName sample_markup) with true; [reflexivity|].
  unfold looks_like_markup.
  replace (includes sample_markup "<DT>") with true by reflexivity.
  rewrite orb_true_r. reflexivity.
Qed.

Lemma parseChromeBookmarks_sample_throws_witness :
  parseChromeBookmarks (fun _ => sample_document) (fun _ => "1700000000000-k3x9q2m1z")
                       2 sample_markup
  = Throw (ReferenceError "currentFolderId").
Proof.
  exact (proj1 (@parseChromeBookmarks_sample_throws
                  (fun _ => sample_document) (fun _ => "1700000000000-k3x9q2m1z")
                  eq_refl 0 [] "bookmarks.html" true)).
Defined.

(** ** Search *)

Lemma StronglySorted_weaken (A : Type) (R R' : A -> A -> Prop) l :
  (forall a b, R a b -> R' a b) -> StronglySorted R l -> StronglySorted R' l.
Proof.
  intros Himp. induction 1 as [|a l Hs IH Ha]; constructor.
  - exact IH.
  - eapply Forall_impl; [|exact Ha]. intros b. apply Himp.
Qed.

Lemma StronglySorted_after (A : Type) (R : A -> A -> Prop) l1 x l2 :
  StronglySorted R (l1 ++ x :: l2) -> Forall (R x) l2.
Proof.
  induction l1 as [|a l1 IH]; simpl; intros Hs;
    inversion Hs as [|a' l' Hl Ha]; subst.
  - exact Ha.
  - apply IH, Hl.
Qed.

Section SearchRanking.

Variable toLowerCase : string -> string.
Variable localeCompare : string -> string -> Z.

(** The collation is a consistent comparator: total and transitive. *)
Hypothesis collation_total :
  forall a b, (0 < localeCompare a b)%Z -> (localeCompare b a <= 0)%Z.
Hypothesis collation_trans :
  forall a b c, (localeCompare a b <= 0)%Z -> (localeCompare b c <= 0)%Z ->
                (localeCompare a c <= 0)%Z.

Lemma compare_search_le a b :
  (compare_search localeCompare a b <= 0)%Z <-> ranked_before localeCompare a b.
Proof.
  unfold compare_search, ranked_before.
  destruct (Z.eqb_spec (accessTime_or_0 b) (accessTime_or_0 a)) as [He|Hne];
    simpl; split; intros H; lia.
Qed.

Lemma compare_search_total a b :
  (0 < compare_search localeCompare a b)%Z ->
  (compare_search localeCompare b a <= 0)%Z.
Proof.
  unfold compare_search.
  destruct (Z.eqb_spec (accessTime_or_0 b) (accessTime_or_0 a)) as [He|Hne];
    destruct (Z.eqb_spec (accessTime_or_0 a) (accessTime_or_0 b)) as [He'|Hne'];
    simpl; try lia.
  apply collation_total.
Qed.

Lemma ranked_before_trans a b c :
  ranked_before localeCompare a b -> ranked_before localeCompare b c ->
  ranked_before localeCompare a c.
Proof.
  unfold ranked_before. intros [H1|[H1 L1]] [H2|[H2 L2]]; try (left; lia).
  right. split; [lia|]. eapply collation_trans; eassumption.
Qed.

Lemma compare_search_trans a b c :
  cmp_le (compare_search localeCompare) a b ->
  cmp_le (compare_search localeCompare) b c ->
  cmp_le (compare_search localeCompare) a c.
Proof.
  unfold cmp_le. rewrite !compare_search_le. apply ranked_before_trans.
Qed.

Lemma compare_search_later a b :
  (accessTime_or_0 b < accessTime_or_0 a)%Z ->
  (compare_search localeCompare a b <=? 0)%Z = true.
Proof.
  intros H. apply Z.leb_le, compare_search_le. left. exact H.
Qed.

Lemma compare_search_earlier a b :
  (accessTime_or_0 a < accessTime_or_0 b)%Z ->
  (compare_search localeCompare a b <=? 0)%Z = false.
Proof.
  intros H. apply Z.leb_gt. unfold compare_search.
  destruct (Z.eqb_spec (accessTime_or_0 b) (accessTime_or_0 a)); simpl; lia.
Qed.

Lemma compare_search_same_time a b :
  accessTime_or_0 a = accessTime_or_0 b ->
  compare_search localeCompare a b = localeCompare (name a) (name b).
Proof.
  intros H. unfold compare_search. rewrite H, Z.eqb_refl. reflexivity.
Qed.

Lemma searchBookmarks_nonempty st query :
  query <> "" ->
  searchBookmarks toLowerCase localeCompare st query
  = js_sort (compare_search localeCompare)
            (filter (name_matches toLowerCase (toLowerCase query)) st).
Proof.
  intros Hq. unfold searchBookmarks.
  apply truthy_true_iff in Hq. rewrite Hq. reflexivity.
Qed.

(** C4. An empty query gives no results. Any other query gives exactly
    the nodes of the store, folders and links alike, whose lower-cased
    name contains the lower-cased query, each as often as the store has
    it, sorted by access time, latest first, and for equal access times
    by name in collation order; when no access time is negative the
    never-visited results come last. For matching [a], [b], [c] with
    access times [0 < t1 < t2] and [0] the order is [b, a, c]; two
    never-visited matches named Zeta and Alpha come back as Alpha, Zeta
    when Alpha collates first. *)
Theorem searchBookmarks_ranked (st : Store) (query : string) :
  searchBookmarks toLowerCase localeCompare st "" = []
  /\ (query <> "" ->
      Permutation (searchBookmarks toLowerCase localeCompare st query)
                  (filter (fun n => includes (toLowerCase (name n))
                                             (toLowerCase query)) st)
      /\ StronglySorted (ranked_before localeCompare)
                        (searchBookmarks toLowerCase localeCompare st query)
      /\ ((forall n, In n st -> (0 <= accessTime_or_0 n)%Z) ->
          forall l1 x l2,
            searchBookmarks toLowerCase localeCompare st query = l1 ++ x :: l2 ->
            accessTime_or_0 x = 0%Z ->
            forall y, In y l2 -> accessTime_or_0 y = 0%Z)
      /\ (forall a b c,
            name_matches toLowerCase (toLowerCase query) a = true ->
            name_matches toLowerCase (toLowerCase query) b = true ->
            name_matches toLowerCase (toLowerCase query) c = true ->
            (0 < accessTime_or_0 a < accessTime_or_0 b)%Z ->
            accessTime_or_0 c = 0%Z ->
            searchBookmarks toLowerCase localeCompare [a; b; c] query = [b; a; c])
      /\ (forall z a,
            name z = "Zeta" -> name a = "Alpha" ->
            accessTime_or_0 z = 0%Z -> accessTime_or_0 a = 0%Z ->
            name_matches toLowerCase (toLowerCase query) z = true ->
            name_matches toLowerCase (toLowerCase query) a = true ->
            (0 < localeCompare "Zeta" "Alpha")%Z ->
            searchBookmarks toLowerCase localeCompare [z; a] query = [a; z]
            /\ searchBookmarks toLowerCase localeCompare [a; z] query = [a; z])).
Proof.
  split; [reflexivity|].
  intros Hq.
  assert (Hperm : Permutation (searchBookmarks toLowerCase localeCompare st query)
                    (filter (name_matches toLowerCase (toLowerCase query)) st)).
  { rewrite (searchBookmarks_nonempty st Hq). apply js_sort_perm. }
  assert (Hsorted : StronglySorted (ranked_before localeCompare)
                      (searchBookmarks toLowerCase localeCompare st query)).
  { rewrite (searchBookmarks_nonempty st Hq).
    apply StronglySorted_weaken with (R := cmp_le (compare_search localeCompare)).
    - intros a b. apply compare_search_le.
    - apply js_sort_sorted.
      + apply compare_search_total.
      + apply compare_search_trans. }
  split; [exact Hperm|].
  split; [exact Hsorted|].
  split; [|split].
  - intros Hnonneg l1 x l2 Heq Hx y Hy.
    rewrite Heq in Hsorted. apply StronglySorted_after in Hsorted.
    rewrite Forall_forall in Hsorted. specialize (Hsorted y Hy).
    assert (Hin : In y st).
    { assert (Hres : In y (searchBookmarks toLowerCase localeCompare st query)).
      { rewrite Heq. apply in_or_app. right. right. exact Hy. }
      apply (Permutation_in _ Hperm) in Hres. apply filter_In in Hres. apply Hres. }
    specialize (Hnonneg y Hin).
    destruct Hsorted as [Hlt|[Heq' _]]; lia.
  - intros a b c Ha Hb Hc Ht Hc0.
    rewrite (searchBookmarks_nonempty _ Hq). simpl.
    rewrite Ha, Hb, Hc. simpl.
    rewrite (@compare_search_later b c) by lia. simpl.
    rewrite (@compare_search_earlier a b) by lia.
    rewrite (@compare_search_later a c) by lia.
    reflexivity.
  - intros z a Hz Ha Hz0 Ha0 Hmz Hma Hcol.
    rewrite !(searchBookmarks_nonempty _ Hq). simpl.
    rewrite Hmz, Hma. simpl.
    rewrite (@compare_search_same_time z a) by congruence.
    rewrite (@compare_search_same_time a z) by congruence.
    rewrite Hz, Ha.
    destruct (Z.leb_spec (localeCompare "Zeta" "Alpha") 0) as [Hle|_]; [lia|].
    pose proof (@collation_total _ _ Hcol) as Hrev.
    apply Z.leb_le in Hrev. rewrite Hrev.
    split; reflexivity.
Qed.

End SearchRanking.

Lemma first_char_collation_total a b :
  (0 < first_char_collation a b)%Z -> (first_char_collation b a <= 0)%Z.
Proof.
  unfold first_char_collation. lia.
Qed.

Lemma first_char_collation_trans a b c :
  (first_char_collation a b <= 0)%Z -> (first_char_collation b c <= 0)%Z ->
  (first_char_collation a c <= 0)%Z.
Proof.
  unfold first_char_collation. lia.
Qed.

Lemma searchBookmarks_ranked_witness :
  searchBookmarks lower_ascii first_char_collation
                  [sample_A; sample_B; sample_C] "MAIL"
  = [sample_B; sample_A; sample_C]
  /\ searchBookmarks lower_ascii first_char_collation
                     [sample_Zeta; sample_Alpha] "a"
     = [sample_Alpha; sample_Zeta].
Proof.
  split.
  - destruct (@searchBookmarks_ranked lower_ascii first_char_collation
                first_char_collation_total first_char_collation_trans
                [sample_A; sample_B; sample_C] "MAIL") as [_ H].
    destruct H as (_ & _ & _ & Habc & _); [discriminate|].
    apply (Habc sample_A sample_B sample_C);
      [reflexivity | reflexivity | reflexivity
       | unfold accessTime_or_0, sample_A, sample_B; simpl; lia | reflexivity].
  - destruct (@searchBookmarks_ranked lower_ascii first_char_collation
                first_char_collation_total first_char_collation_trans
                [sample_Zeta; sample_Alpha] "a") as [_ H].
    destruct H as (_ & _ & _ & _ & Hza); [discriminate|].
    apply (Hza sample_Zeta sample_Alpha);
      [reflexivity | reflexivity | reflexivity | reflexivity
       | reflexivity | reflexivity | reflexivity].
Defined.

(** ** Cascade delete *)

Lemma filter_twice (A : Type) (f g : A -> bool) l :
  filter f (filter g l) = filter (fun x => g x && f x) l.
Proof.
  induction l as [|x l IH]; simpl; [reflexivity|].
  destruct (g x); simpl; [destruct (f x)|]; rewrite IH; reflexivity.
Qed.

Lemma in_subtree_incl st st' f i :
  incl st' st -> in_subtree st' f i -> in_subtree st f i.
Proof.
  intros Hi [H|H]; [left; exact H | right].
  eapply parent_path_incl; eassumption.
Qed.

Lemma in_subtree_child st f x z :
  parent_edge st x z -> in_subtree st f z -> in_subtree st f x.
Proof.
  intros He [->|Hz]; right.
  - apply t_step, He.
  - eapply t_trans; [apply t_step, He | exact Hz].
Qed.

(** Reaching [f] means reaching, or being, a child of [f]. *)
Lemma reaches_through_child st x f :
  clos_trans string (parent_edge st) x f <->
  exists c, In c st /\ parent c = f /\ in_subtree st (id c) x.
Proof.
  split.
  - intros H. apply clos_trans_tn1 in H.
    destruct H as [y He | y z He Hrest];
      destruct He as (c & Hin & Hid & Hp).
    + exists c. repeat split; try assumption. left. symmetry. exact Hid.
    + exists c. repeat split; try assumption. right.
      rewrite Hid. apply clos_tn1_trans, Hrest.
  - intros (c & Hin & Hp & Hsub).
    assert (He : parent_edge st (id c) f) by (exists c; auto).
    destruct Hsub as [->|Hsub].
    + apply t_step, He.
    + eapply t_trans; [exact Hsub | apply t_step, He].
Qed.

Section DeleteLoop.

(** The store on entry to [deleteRecursive(i)], and what the recursive
    call does on a part of it for a child of [i]. *)
Variable b0 : Store.
Variable i : string.
Variable rec : string -> Store -> option Store.

Hypothesis rec_spec :
  forall c b, In c b0 -> parent c = i -> incl b b0 ->
    exists keep,
      rec (id c) b = Some (filter keep b)
      /\ forall n, In n b -> (keep n = true <-> ~ in_subtree b (id c) (id n)).

(** A path that starts outside the subtrees already removed is still
    there after their removal. *)
Lemma path_survives (g : Node -> bool) (done : list Node) :
  (forall n, In n b0 ->
     (g n = true <-> ~ exists c, In c done /\ in_subtree b0 (id c) (id n))) ->
  forall x y,
    clos_trans string (parent_edge b0) x y ->
    (~ exists c, In c done /\ in_subtree b0 (id c) x) ->
    clos_trans string (parent_edge (filter g b0)) x y.
Proof.
  intros Hg x y Hxy. apply clos_trans_t1n in Hxy.
  induction Hxy as [x y He | x z y He _ IH]; intros Hout.
  - apply t_step. destruct He as (m & Hin & Hid & Hp).
    exists m. repeat split; try assumption.
    apply filter_In. split; [assumption|]. apply Hg; [assumption|].
    rewrite Hid. exact Hout.
  - apply t_trans with (y := z).
    + apply t_step. destruct He as (m & Hin & Hid & Hp).
      exists m. repeat split; try assumption.
      apply filter_In. split; [assumption|]. apply Hg; [assumption|].
      rewrite Hid. exact Hout.
    + apply IH. intros (c & Hc & Hsub). apply Hout.
      exists c. split; [assumption|].
      eapply in_subtree_child; eassumption.
Qed.

Lemma forEach_child_spec : forall cs done g,
  (forall c, In c cs -> In c b0 /\ parent c = i) ->
  (forall n, In n b0 ->
     (g n = true <-> ~ exists c, In c done /\ in_subtree b0 (id c) (id n))) ->
  exists g',
    forEach_child rec cs (filter g b0) = Some (filter g' b0)
    /\ forall n, In n b0 ->
         (g' n = true <->
          ~ exists c, In c (done ++ cs) /\ in_subtree b0 (id c) (id n)).
Proof.
  induction cs as [|c cs IH]; intros done g Hcs Hg.
  - exists g. split; [reflexivity|]. rewrite app_nil_r. exact Hg.
  - destruct (Hcs c (or_introl eq_refl)) as [Hc Hpc].
    assert (Hincl : incl (filter g b0) b0).
    { intros n Hn. apply filter_In in Hn. apply Hn. }
    destruct (@rec_spec c (filter g b0) Hc Hpc Hincl) as (keep & Hrec & Hkeep).
    simpl. rewrite Hrec, filter_twice.
    destruct (IH (done ++ [c]) (fun x => g x && keep x)) as (g' & Hrun & Hg').
    + intros c' Hc'. apply Hcs. right. exact Hc'.
    + intros n Hn. rewrite andb_true_iff. split.
      * intros [Hgn Hkn] (c' & Hc' & Hsub).
        apply in_app_or in Hc'. destruct Hc' as [Hc'|[<-|[]]].
        -- apply (proj1 (Hg n Hn) Hgn). exists c'. auto.
        -- assert (Hnb : In n (filter g b0)) by (apply filter_In; auto).
           apply (proj1 (Hkeep n Hnb) Hkn).
           destruct Hsub as [Heq|Hpath]; [left; exact Heq | right].
           eapply path_survives; [exact Hg | exact Hpath |].
           apply (proj1 (Hg n Hn) Hgn).
      * intros Hnone.
        assert (Hgn : g n = true).
        { apply Hg; [assumption|]. intros (c' & Hc' & Hsub). apply Hnone.
          exists c'. split; [apply in_or_app; left; exact Hc' | exact Hsub]. }
        split; [exact Hgn|].
        apply Hkeep; [apply filter_In; auto|].
        intros Hsub. apply Hnone. exists c.
        split; [apply in_or_app; right; left; reflexivity|].
        eapply in_subtree_incl; eassumption.
    + exists g'. split; [exact Hrun|].
      intros n Hn. rewrite (Hg' n Hn), <- app_assoc. reflexivity.
Qed.

End DeleteLoop.

Section DeleteSpec.

(** The store [deleteItem] is called on. *)
Variable u : Store.
Hypothesis u_acyclic : acyclic u.

Lemma descent_bound (visited : list string) :
  NoDup visited -> incl visited (map parent u) -> length visited <= length u.
Proof.
  intros Hnd Hincl. rewrite <- (length_map parent u).
  apply NoDup_incl_length; assumption.
Qed.

(** [deleteRecursive(i)] on a part [b] of the store, reached through the
    pairwise distinct ids [visited]: it returns, and what it leaves of
    [b] is [b] without the subtree of [i]. *)
Lemma deleteRecursive_spec fuel : forall visited i b,
  incl b u ->
  NoDup visited ->
  incl visited (map parent u) ->
  (forall v, In v visited -> clos_trans string (parent_edge u) i v) ->
  length u < fuel + length visited ->
  exists keep,
    deleteRecursive fuel i b = Some (filter keep b)
    /\ forall n, In n b -> (keep n = true <-> ~ in_subtree b i (id n)).
Proof.
  induction fuel as [|fuel IH]; intros visited i b Hb Hnd Hvis Hup Hlen.
  - pose proof (descent_bound Hnd Hvis). simpl in Hlen. lia.
  - assert (Hchildren : forall c, In c (getItemsByParent b i) ->
                                  In c b /\ parent c = i).
    { intros c Hc. apply getItemsByParent_In, Hc. }
    assert (Hrec : forall c b', In c b -> parent c = i -> incl b' b ->
              exists keep,
                deleteRecursive fuel (id c) b' = Some (filter keep b')
                /\ forall n, In n b' ->
                     (keep n = true <-> ~ in_subtree b' (id c) (id n))).
    { intros c b' Hc Hpc Hb'.
      assert (Hedge : parent_edge u (id c) i).
      { exists c. split; [apply Hb, Hc | auto]. }
      apply (IH (i :: visited)).
      - intros n Hn. apply Hb, Hb', Hn.
      - constructor; [|assumption].
        intros Hw. apply (u_acyclic (i:=i)). apply Hup, Hw.
      - intros v [<-|Hv]; [|apply Hvis, Hv].
        rewrite <- Hpc. apply in_map, Hb, Hc.
      - intros v [<-|Hv].
        + apply t_step, Hedge.
        + eapply t_trans; [apply t_step, Hedge | apply Hup, Hv].
      - simpl. lia. }
    destruct (@forEach_child_spec b i (deleteRecursive fuel) Hrec
                (getItemsByParent b i) [] (fun _ => true)) as (g & Hrun & Hg).
    + exact Hchildren.
    + intros n _. split; [|reflexivity].
      intros _ (c & [] & _).
    + assert (Hall : filter (fun _ : Node => true) b = b).
      { clear. induction b as [|x l IHl]; simpl; [reflexivity|].
        rewrite IHl. reflexivity. }
      rewrite Hall in Hrun. simpl in Hg.
      exists (fun x => g x && negb (id x =? i)).
      split.
      * simpl. rewrite Hrun, filter_twice. reflexivity.
      * intros n Hn. rewrite andb_true_iff, negb_true_iff, String.eqb_neq.
        rewrite (Hg n Hn). unfold in_subtree at 2.
        rewrite reaches_through_child. split.
        -- intros [Hnone Hne] [Heq|(c & Hc & Hpc & Hsub)]; [contradiction|].
           apply Hnone. exists c. split; [|exact Hsub].
           apply getItemsByParent_In. auto.
        -- intros Hout. split.
           ++ intros (c & Hc & Hsub). apply Hout. right.
              apply getItemsByParent_In in Hc. destruct Hc as [Hc Hpc].
              exists c. auto.
           ++ intros Heq. apply Hout. left. exact Heq.
Qed.

End DeleteSpec.

(** C2. On an acyclic store a confirmed [deleteItem(f)] returns, with the
    same store for any fuel above the number of nodes. What is left is
    the store without the nodes whose id is [f] or has [f] on its parent
    chain: the others stay, unchanged and in their order, and no node
    left has the id [f] or reaches [f] along the parent fields of the
    nodes left. *)
Theorem deleteItem_cascade (st : Store) (f : string) (skipConfirm confirmed : bool)
        (Hacyclic : acyclic st) (Hgo : skipConfirm || confirmed = true) :
  exists st',
    (forall fuel, length st < fuel ->
                  deleteItem fuel f skipConfirm confirmed st = Some st')
    /\ (exists keep, st' = filter keep st)
    /\ (forall n, In n st' <-> In n st /\ ~ in_subtree st f (id n))
    /\ (forall n, In n st' ->
                  id n <> f /\ ~ clos_trans string (parent_edge st') (id n) f).
Proof.
  assert (Hspec : forall fuel, length st < fuel ->
            exists keep,
              deleteRecursive fuel f st = Some (filter keep st)
              /\ forall n, In n st ->
                   (keep n = true <-> ~ in_subtree st f (id n))).
  { intros fuel Hfuel.
    apply (@deleteRecursive_spec st Hacyclic fuel []).
    - intros n Hn. exact Hn.
    - constructor.
    - intros v [].
    - intros v [].
    - simpl. lia. }
  destruct (Hspec (S (length st))) as (keep & _ & Hkeep); [lia|].
  assert (Hmem : forall n, In n (filter keep st) <->
                           In n st /\ ~ in_subtree st f (id n)).
  { intros n. rewrite filter_In. split.
    - intros [Hn Hk]. split; [assumption|]. apply (Hkeep n Hn), Hk.
    - intros [Hn Hout]. split; [assumption|]. apply (Hkeep n Hn), Hout. }
  exists (filter keep st).
  split; [|split; [|split]].
  - intros fuel Hfuel. unfold deleteItem.
    replace (negb skipConfirm && negb confirmed) with false
      by (destruct skipConfirm, confirmed; simpl in *; congruence).
    destruct (Hspec fuel Hfuel) as (keep' & Hrun & Hkeep').
    rewrite Hrun. f_equal. apply filter_ext_in.
    intros n Hn.
    destruct (keep' n) eqn:E1, (keep n) eqn:E2; try reflexivity.
    + apply (Hkeep' n Hn) in E1. apply (Hkeep n Hn) in E1. congruence.
    + apply (Hkeep n Hn) in E2. apply (Hkeep' n Hn) in E2. congruence.
  - exists keep. reflexivity.
  - exact Hmem.
  - intros n Hn. apply Hmem in Hn. destruct Hn as [Hn Hout]. split.
    + intros Heq. apply Hout. left. exact Heq.
    + intros Hpath. apply Hout. right.
      eapply parent_path_incl; [|exact Hpath].
      intros m Hm. apply filter_In in Hm. apply Hm.
Qed.

Lemma deleteItem_cascade_witness :
  exists st',
    (forall fuel, length sample_tree < fuel ->
                  deleteItem fuel "ab" true false sample_tree = Some st')
    /\ (exists keep, st' = filter keep sample_tree)
    /\ (forall n, In n st' <-> In n sample_tree /\ ~ in_subtree sample_tree "ab" (id n))
    /\ (forall n, In n st' ->
                  id n <> "ab"
                  /\ ~ clos_trans string (parent_edge st') (id n) "ab").
Proof.
  exact (@deleteItem_cascade sample_tree "ab" true false
           sample_tree_acyclic eq_refl).
Defined.

(** ** Reorder within one parent *)

(** *** Arrays *)

Lemma update_at_nth (A : Type) (f : A -> A) l : forall i k,
  nth_error (update_at i f l) k
  = if (k =? i)%nat then option_map f (nth_error l k) else nth_error l k.
Proof.
  induction l as [|x l IH]; intros i k.
  - destruct i, k; simpl; try reflexivity; destruct (k =? i)%nat; reflexivity.
  - destruct i as [|i], k as [|k]; simpl; try reflexivity.
    apply IH.
Qed.

Lemma update_at_same (A : Type) (f : A -> A) l : forall i x,
  nth_error l i = Some x -> f x = x -> update_at i f l = l.
Proof.
  induction l as [|y l IH]; intros [|i] x Hx Hf; simpl in *; try reflexivity.
  - injection Hx as ->. rewrite Hf. reflexivity.
  - f_equal. eapply IH; eassumption.
Qed.

Lemma update_at_map (A B : Type) (f : A -> A) (g : A -> B) l :
  (forall x, g (f x) = g x) ->
  forall i, map g (update_at i f l) = map g l.
Proof.
  intros Hg. induction l as [|x l IH]; intros [|i]; simpl; try reflexivity.
  - rewrite Hg. reflexivity.
  - rewrite IH. reflexivity.
Qed.

Lemma indexed_from_In (A : Type) (l : list A) : forall a k (x : A),
  In (k, x) (combine (seq a (length l)) l)
  <-> a <= k /\ nth_error l (k - a) = Some x.
Proof.
  induction l as [|y l IH]; intros a k x; simpl.
  - split; [intros [] | intros [_ H]]. destruct (k - a); discriminate H.
  - rewrite IH. split.
    + intros [[= <- <-]|[Hle Hn]].
      * split; [lia|]. rewrite Nat.sub_diag. reflexivity.
      * split; [lia|]. replace (k - a) with (S (k - S a)) by lia. exact Hn.
    + intros [Hle Hn]. destruct (k - a) as [|m] eqn:Hm.
      * left. injection Hn as ->. f_equal. lia.
      * right. split; [lia|]. replace (k - S a) with m by lia. exact Hn.
Qed.

Lemma indexed_In st k n :
  In (k, n) (indexed st) <-> nth_error st k = Some n.
Proof.
  unfold indexed. rewrite indexed_from_In, Nat.sub_0_r.
  split; [intros [_ H]; exact H | intros H; split; [lia | exact H]].
Qed.

Lemma indexed_NoDup st : NoDup (map fst (indexed st)).
Proof.
  rewrite indexed_fst. apply seq_NoDup.
Qed.

Lemma NoDup_map_inv_list (A B : Type) (f : A -> B) l :
  NoDup (map f l) -> NoDup l.
Proof.
  induction l as [|x l IH]; simpl; intros H; [constructor|].
  inversion H as [|y l' Hnin Hnd]; subst.
  constructor; [|apply IH, Hnd].
  intros Hin. apply Hnin, in_map, Hin.
Qed.

Lemma NoDup_map_filter (A B : Type) (f : A -> B) (p : A -> bool) l :
  NoDup (map f l) -> NoDup (map f (filter p l)).
Proof.
  induction l as [|x l IH]; simpl; intros H; [constructor|].
  inversion H as [|y l' Hnin Hnd]; subst.
  destruct (p x); simpl; [|apply IH, Hnd].
  constructor; [|apply IH, Hnd].
  intros Hin. apply Hnin. apply in_map_iff in Hin.
  destruct Hin as (z & Hz & Hin). apply filter_In in Hin.
  rewrite <- Hz. apply in_map, Hin.
Qed.

Lemma findIndex_at (A : Type) (f : A -> bool) pre x post :
  (forall y, In y pre -> f y = false) -> f x = true ->
  findIndex f (pre ++ x :: post) = Some (length pre).
Proof.
  induction pre as [|y pre IH]; intros Hpre Hx; simpl.
  - rewrite Hx. reflexivity.
  - rewrite (Hpre y (or_introl eq_refl)), IH; [reflexivity | | exact Hx].
    intros z Hz. apply Hpre. right. exact Hz.
Qed.

Lemma splice_insert_at (A : Type) (x : A) pre l :
  splice_insert (length pre) x (pre ++ l) = pre ++ x :: l.
Proof.
  unfold splice_insert. induction pre as [|y pre IH]; simpl.
  - destruct l; reflexivity.
  - f_equal. exact IH.
Qed.

Lemma filter_all (A : Type) (p : A -> bool) l :
  (forall x, In x l -> p x = true) -> filter p l = l.
Proof.
  induction l as [|x l IH]; intros H; simpl; [reflexivity|].
  rewrite (H x (or_introl eq_refl)). f_equal.
  apply IH. intros y Hy. apply H. right. exact Hy.
Qed.

(** *** The comparator of [getItemsByParent] is consistent *)

Lemma compare_order_total a b :
  (0 < compare_order a b)%Z -> (compare_order b a <= 0)%Z.
Proof.
  unfold compare_order.
  destruct (order (snd a)) as [x|], (order (snd b)) as [y|]; try lia.
  rewrite (Z.eqb_sym y x).
  destruct (Z.eqb_spec x y); lia.
Qed.

Lemma compare_order_trans a b c :
  cmp_le compare_order a b -> cmp_le compare_order b c ->
  cmp_le compare_order a c.
Proof.
  unfold cmp_le, compare_order.
  destruct (order (snd a)) as [x|], (order (snd b)) as [y|],
           (order (snd c)) as [z|]; try lia;
    repeat match goal with
           | |- context [(?p =? ?q)%Z] => destruct (Z.eqb_spec p q)
           end; lia.
Qed.

(** *** The renumbered sequence *)

Lemma renumber_fst l : forall j, map fst (renumber l j) = map fst l.
Proof.
  induction l as [|[k n] l IH]; intros j; simpl; [reflexivity|].
  rewrite IH. reflexivity.
Qed.

Lemma renumber_ids l : forall j,
  map id (map snd (renumber l j)) = map id (map snd l).
Proof.
  induction l as [|[k n] l IH]; intros j; simpl; [reflexivity|].
  rewrite IH. reflexivity.
Qed.

Lemma renumber_In l : forall j e,
  In e (renumber l j) <->
  exists p k n, nth_error l p = Some (k, n)
                /\ e = (k, set_order (Some (Z.of_nat (j + p))) n).
Proof.
  induction l as [|[k0 n0] l IH]; intros j e; simpl.
  - split; [intros [] | intros (p & k & n & H & _)].
    destruct p; discriminate H.
  - rewrite IH. split.
    + intros [<-|(p & k & n & Hp & ->)].
      * exists 0, k0, n0. rewrite Nat.add_0_r. auto.
      * exists (S p), k, n. split; [exact Hp|].
        replace (j + S p) with (S j + p) by lia. reflexivity.
    + intros ([|p] & k & n & Hp & ->).
      * left. injection Hp as <- <-. rewrite Nat.add_0_r. reflexivity.
      * right. exists p, k, n. split; [exact Hp|].
        replace (j + S p) with (S j + p) by lia. reflexivity.
Qed.

Lemma renumber_order l j e :
  In e (renumber l j) ->
  exists p, order (snd e) = Some (Z.of_nat (j + p)).
Proof.
  intros H. apply renumber_In in H. destruct H as (p & k & n & _ & ->).
  exists p. reflexivity.
Qed.

Lemma renumber_sorted l : forall j,
  StronglySorted (cmp_le compare_order) (renumber l j).
Proof.
  induction l as [|[k n] l IH]; intros j; simpl; constructor.
  - apply IH.
  - apply Forall_forall. intros e He.
    apply renumber_order in He. destruct He as (p & Hp).
    unfold cmp_le, compare_order. simpl. rewrite Hp.
    destruct (Z.eqb_spec (Z.of_nat j) (Z.of_nat (S j + p))); lia.
Qed.

Lemma renumber_same_order l : forall j a b,
  In a (renumber l j) -> In b (renumber l j) ->
  order (snd a) = order (snd b) -> a = b.
Proof.
  induction l as [|[k n] l IH]; intros j a b; simpl; [intros []|].
  intros [<-|Ha] [<-|Hb] Ho.
  - reflexivity.
  - apply renumber_order in Hb. destruct Hb as (p & Hp).
    simpl in Ho. rewrite Hp in Ho. injection Ho as Ho. lia.
  - apply renumber_order in Ha. destruct Ha as (p & Hp).
    simpl in Ho. rewrite Hp in Ho. injection Ho as Ho. lia.
  - eapply IH; eassumption.
Qed.

Lemma renumber_antisym l j a b :
  In a (renumber l j) -> In b (renumber l j) ->
  cmp_le compare_order a b -> cmp_le compare_order b a -> a = b.
Proof.
  intros Ha Hb Hab Hba.
  apply (@renumber_same_order l j a b Ha Hb).
  destruct (@renumber_order l j a Ha) as (p & Hp).
  destruct (@renumber_order l j b Hb) as (q & Hq).
  unfold cmp_le, compare_order in Hab, Hba.
  rewrite Hp, Hq in Hab, Hba. rewrite Hp, Hq.
  rewrite (Z.eqb_sym (Z.of_nat (j + q))) in Hba.
  destruct (Z.eqb_spec (Z.of_nat (j + p)) (Z.of_nat (j + q))) as [->|Hne];
    [reflexivity | lia].
Qed.

(** *** The store after the numbering *)

Lemma set_order_erase o n : set_order None (set_order o n) = set_order None n.
Proof. reflexivity. Qed.

Lemma assign_orders_erase rs : forall j st,
  map (set_order None) (assign_orders rs j st) = map (set_order None) st.
Proof.
  induction rs as [|r rs IH]; intros j st; simpl; [reflexivity|].
  rewrite IH. apply update_at_map. intros x. apply set_order_erase.
Qed.

Lemma assign_orders_spec sib : forall j st,
  NoDup (map fst sib) ->
  (forall k n, In (k, n) sib -> nth_error st k = Some n) ->
  (forall k, ~ In k (map fst sib) ->
             nth_error (assign_orders (map fst sib) j st) k = nth_error st k)
  /\ (forall p k n, nth_error sib p = Some (k, n) ->
        nth_error (assign_orders (map fst sib) j st) k
        = Some (set_order (Some (Z.of_nat (j + p))) n)).
Proof.
  induction sib as [|[r n0] sib IH]; intros j st Hnd Hst; simpl.
  - split; [reflexivity|]. intros [|p] k n H; discriminate H.
  - inversion Hnd as [|r' rs' Hnin Hnd']; subst.
    assert (Hst' : forall k n, In (k, n) sib ->
              nth_error (update_at r (set_order (Some (Z.of_nat j))) st) k = Some n).
    { intros k n Hin. rewrite update_at_nth.
      destruct (Nat.eqb_spec k r) as [->|_].
      - exfalso. apply Hnin. apply (in_map fst) in Hin. exact Hin.
      - apply Hst. right. exact Hin. }
    destruct (IH (S j) _ Hnd' Hst') as [Hout Hin].
    split.
    + intros k Hk. rewrite Hout by tauto.
      rewrite update_at_nth.
      destruct (Nat.eqb_spec k r) as [->|_]; [tauto | reflexivity].
    + intros [|p] k n Hp; simpl in Hp.
      * injection Hp as <- <-. rewrite (Hout r Hnin), update_at_nth, Nat.eqb_refl.
        rewrite (Hst r n0 (or_introl eq_refl)), Nat.add_0_r. reflexivity.
      * rewrite (Hin p k n Hp).
        replace (j + S p) with (S j + p) by lia. reflexivity.
Qed.

(** *** The children after the numbering *)

Lemma NoDup_map_apart (A B : Type) (f : A -> B) pre x rest :
  NoDup (map f (pre ++ x :: rest)) ->
  forall y, In y (pre ++ rest) -> f y <> f x.
Proof.
  rewrite map_app. simpl. intros Hnd y Hy Heq.
  apply NoDup_remove_2 in Hnd. apply Hnd.
  rewrite <- map_app, <- Heq. apply in_map, Hy.
Qed.

Lemma set_parent_same p n : parent n = p -> set_parent p n = n.
Proof.
  intros <-. destruct n. reflexivity.
Qed.

Section ReorderSpec.

Variable st : Store.
Variable P : string.
Hypothesis unique_ids : NoDup (map id st).

Lemma siblings_perm :
  Permutation (getItemsByParent_refs st P)
              (filter (fun item => parent (snd item) =? P) (indexed st)).
Proof.
  apply js_sort_perm.
Qed.

Lemma siblings_In k n :
  In (k, n) (getItemsByParent_refs st P)
  <-> nth_error st k = Some n /\ parent n = P.
Proof.
  rewrite <- indexed_In, <- (String.eqb_eq (parent n) P).
  change (parent n =? P) with ((fun item : Ref => parent (snd item) =? P) (k, n)).
  rewrite <- filter_In.
  split; apply Permutation_in;
    [apply siblings_perm | apply Permutation_sym, siblings_perm].
Qed.

Lemma siblings_NoDup : NoDup (map fst (getItemsByParent_refs st P)).
Proof.
  apply (Permutation_NoDup (Permutation_sym (Permutation_map fst siblings_perm))).
  apply NoDup_map_filter, indexed_NoDup.
Qed.

Lemma siblings_unique_ids :
  NoDup (map (fun e : Ref => id (snd e)) (getItemsByParent_refs st P)).
Proof.
  apply (Permutation_NoDup
           (Permutation_sym (Permutation_map (fun e : Ref => id (snd e))
                                             siblings_perm))).
  apply NoDup_map_filter.
  pose proof (map_map snd id (indexed st)) as Hmap.
  rewrite indexed_snd in Hmap. simpl in Hmap.
  rewrite <- Hmap. exact unique_ids.
Qed.

(** After every child of [P] has been given its position as [order],
    the children of [P] are the same objects in the same sequence. *)
Lemma children_after_numbering :
  getItemsByParent_refs (assign_orders (map fst (getItemsByParent_refs st P)) 0 st) P
  = renumber (getItemsByParent_refs st P) 0.
Proof.
  set (sib := getItemsByParent_refs st P).
  set (st1 := assign_orders (map fst sib) 0 st).
  destruct (@assign_orders_spec sib 0 st siblings_NoDup) as [Hout Hin].
  { intros k n Hkn. apply siblings_In in Hkn. apply Hkn. }
  fold st1 in Hout, Hin.
  assert (Hperm : Permutation
                    (filter (fun item => parent (snd item) =? P) (indexed st1))
                    (renumber sib 0)).
  { apply NoDup_Permutation.
    - apply NoDup_filter. eapply NoDup_map_inv_list. apply indexed_NoDup.
    - eapply NoDup_map_inv_list. rewrite renumber_fst. apply siblings_NoDup.
    - intros [k n']. rewrite filter_In, indexed_In, renumber_In. simpl.
      rewrite String.eqb_eq. split.
      + intros [Hn' Hp].
        destruct (in_dec Nat.eq_dec k (map fst sib)) as [Hk|Hk].
        * apply in_map_iff in Hk. destruct Hk as ([k0 n] & Hfst & Hk).
          simpl in Hfst. subst k0.
          apply In_nth_error in Hk. destruct Hk as (p & Hnth).
          exists p, k, n. split; [exact Hnth|].
          rewrite (Hin p k n Hnth) in Hn'. injection Hn' as <-. reflexivity.
        * exfalso. apply Hk. rewrite (Hout k Hk) in Hn'.
          apply (in_map fst (getItemsByParent_refs st P) (k, n')).
          apply siblings_In. auto.
      + intros (p & k0 & n & Hnth & Heq). injection Heq as -> ->.
        split; [apply (Hin p k0 n Hnth)|].
        apply nth_error_In, siblings_In in Hnth. simpl. apply Hnth. }
  symmetry. unfold getItemsByParent_refs at 1. fold sib. fold st1.
  apply sorted_perm_unique with (cmp := compare_order).
  - intros a b. apply renumber_antisym.
  - apply renumber_sorted.
  - apply js_sort_sorted.
    + apply compare_order_total.
    + apply compare_order_trans.
  - eapply perm_trans; [apply Permutation_sym, Hperm|].
    apply Permutation_sym, js_sort_perm.
Qed.

End ReorderSpec.

(** C5. In a store with unique ids, let [d] come immediately before [t]
    in the sorted children of [P]. Reordering [d] to the target [t]
    leaves the children of [P] the same objects, hence the same ids, in
    the same sequence; the reorder writes the positions [0..n-1] into
    their [order] fields and changes no other field of any node. *)
Theorem reorderBookmark_idempotent (st : Store) (P : string)
        (pre post : list Ref) (d t : Ref)
        (Hunique : NoDup (map id st))
        (Hadjacent : getItemsByParent_refs st P = pre ++ d :: t :: post) :
  map fst (getItemsByParent_refs (reorderBookmark st d t P) P)
  = map fst (getItemsByParent_refs st P)
  /\ map id (getItemsByParent (reorderBookmark st d t P) P)
     = map id (getItemsByParent st P)
  /\ getItemsByParent_refs (reorderBookmark st d t P) P
     = renumber (getItemsByParent_refs st P) 0
  /\ map (set_order None) (reorderBookmark st d t P) = map (set_order None) st.
Proof.
  pose proof (@siblings_unique_ids st P Hunique) as Hids.
  rewrite Hadjacent in Hids.
  assert (Hd : forall y, In y (pre ++ t :: post) -> id (snd y) <> id (snd d)).
  { apply (@NoDup_map_apart Ref string (fun e : Ref => id (snd e)) pre d (t :: post) Hids). }
  assert (Ht : forall y, In y pre -> id (snd y) <> id (snd t)).
  { intros y Hy.
    apply (@NoDup_map_apart Ref string (fun e : Ref => id (snd e)) (pre ++ [d]) t post).
    - rewrite <- app_assoc. exact Hids.
    - apply in_or_app. left. apply in_or_app. left. exact Hy. }
  assert (Hrun : reorderBookmark st d t P
                 = assign_orders (map fst (getItemsByParent_refs st P)) 0 st).
  { unfold reorderBookmark. cbv zeta. rewrite Hadjacent.
    assert (Hwithout :
              filter (fun s : nat * Node => negb (id (snd s) =? id (snd d)))
                     (pre ++ d :: t :: post) = pre ++ t :: post).
    { assert (Hfd : filter (fun s : nat * Node => negb (id (snd s) =? id (snd d))) [d]
                    = []).
      { cbn [filter]. rewrite String.eqb_refl. reflexivity. }
      change (d :: t :: post) with ([d] ++ t :: post).
      rewrite !filter_app, Hfd. cbn [app].
      rewrite <- filter_app. apply filter_all.
      intros y Hy. apply negb_true_iff, String.eqb_neq, Hd, Hy. }
    rewrite Hwithout.
    rewrite (@findIndex_at (nat * Node) (fun s => id (snd s) =? id (snd t)) pre t post).
    - rewrite splice_insert_at.
      destruct d as [kd nd].
      assert (Hdin : In (kd, nd) (getItemsByParent_refs st P)).
      { rewrite Hadjacent. apply in_or_app. right. left. reflexivity. }
      pose proof (@siblings_NoDup st P) as Hnd.
      destruct (@assign_orders_spec (getItemsByParent_refs st P) 0 st Hnd)
        as [_ Hin].
      { intros k n Hkn. apply siblings_In in Hkn. apply Hkn. }
      pose proof Hdin as Hpos. apply In_nth_error in Hpos.
      destruct Hpos as (p & Hp).
      rewrite <- Hadjacent. simpl.
      eapply update_at_same; [apply (Hin p kd nd Hp)|].
      apply set_parent_same. simpl.
      apply siblings_In in Hdin. apply Hdin.
    - intros y Hy. apply String.eqb_neq, Ht, Hy.
    - apply String.eqb_refl. }
  assert (Hrefs : getItemsByParent_refs (reorderBookmark st d t P) P
                  = renumber (getItemsByParent_refs st P) 0).
  { rewrite Hrun. apply children_after_numbering. }
  split; [rewrite Hrefs; apply renumber_fst|].
  split; [|split; [exact Hrefs | rewrite Hrun; apply assign_orders_erase]].
  unfold getItemsByParent. rewrite Hrefs. apply renumber_ids.
Qed.

Lemma sample_siblings_unique : NoDup (map id sample_siblings).
Proof.
  repeat constructor; simpl; intuition discriminate.
Qed.

Lemma reorderBookmark_idempotent_witness :
  map id (getItemsByParent
            (reorderBookmark sample_siblings
               (0, mkNode "s1" "One" bookmark "" (Some "https://one.test")
                          (Some 0%Z) (Some 5%Z))
               (1, mkNode "s2" "Two" bookmark "" (Some "https://two.test")
                          (Some 0%Z) (Some 7%Z)) "") "")
  = map id (getItemsByParent sample_siblings "").
Proof.
  refine (proj1 (proj2 (@reorderBookmark_idempotent sample_siblings ""
            [] [(2, mkNode "s3" "Three" bookmark "" (Some "https://three.test")
                           (Some 0%Z) None)]
            (0, mkNode "s1" "One" bookmark "" (Some "https://one.test")
                       (Some 0%Z) (Some 5%Z))
            (1, mkNode "s2" "Two" bookmark "" (Some "https://two.test")
                       (Some 0%Z) (Some 7%Z))
            sample_siblings_unique _))).
  reflexivity.
Defined.

(** ** The native format *)

(** *** Strings *)

Lemma string_app_assoc (a b c : string) :
  ((a ++ b) ++ c = a ++ (b ++ c))%string.
Proof.
  induction a as [|x a IH]; simpl; [reflexivity|].
  rewrite IH. reflexivity.
Qed.

Lemma string_app_nil (a : string) : (a ++ EmptyString)%string = a.
Proof.
  induction a as [|x a IH]; simpl; [reflexivity|].
  rewrite IH. reflexivity.
Qed.

Lemma snoc_app (acc : string) c s :
  (snoc acc c ++ s = acc ++ String c s)%string.
Proof.
  unfold snoc. rewrite string_app_assoc. reflexivity.
Qed.

(** *** Reading what the serializer wrote: characters *)

Lemma lex_escape_char acc toks c rest :
  lex_run (LexString acc, toks) (json_escape_char c ++ rest)
  = lex_run (LexString (snoc acc c), toks) rest.
Proof.
  destruct c as [[] [] [] [] [] [] [] []]; reflexivity.
Qed.

Lemma lex_escape s : forall acc toks rest,
  lex_run (LexString acc, toks) (json_escape s ++ rest)
  = lex_run (LexString (acc ++ s), toks) rest.
Proof.
  induction s as [|c s IH]; intros acc toks rest; simpl.
  - rewrite string_app_nil. reflexivity.
  - rewrite string_app_assoc, lex_escape_char, IH, snoc_app. reflexivity.
Qed.

Lemma lex_quote s toks rest :
  lex_run (LexDefault, toks) (json_quote s ++ rest)
  = lex_run (LexDefault, toks ++ [TString s]) rest.
Proof.
  unfold json_quote.
  change (lex_run (LexString EmptyString, toks)
                  ((json_escape s ++ String dquote EmptyString) ++ rest)
          = lex_run (LexDefault, toks ++ [TString s]) rest).
  rewrite string_app_assoc, lex_escape. reflexivity.
Qed.

Lemma digits_of_uint d : all_digits (NilEmpty.string_of_uint d) = true.
Proof.
  induction d; simpl; try reflexivity; assumption.
Qed.

Lemma lex_step_digit acc toks c :
  is_digit c = true ->
  lex_step (LexNumber acc, toks) c = Some (LexNumber (snoc acc c), toks).
Proof.
  intros H. unfold lex_step. rewrite H. reflexivity.
Qed.

Lemma lex_digits ds : forall acc toks rest,
  all_digits ds = true ->
  lex_run (LexNumber acc, toks) (ds ++ rest)
  = lex_run (LexNumber (acc ++ ds), toks) rest.
Proof.
  induction ds as [|c ds IH]; intros acc toks rest H.
  - rewrite string_app_nil. reflexivity.
  - simpl in H. apply andb_true_iff in H. destruct H as [Hc Hds].
    change (lex_run (LexNumber acc, toks) (String c (ds ++ rest))
            = lex_run (LexNumber (acc ++ String c ds), toks) rest).
    cbn [lex_run]. rewrite (@lex_step_digit acc toks c Hc), IH by exact Hds.
    rewrite snoc_app. reflexivity.
Qed.

Lemma lex_default_digit toks c :
  is_digit c = true ->
  lex_default toks c = Some (LexNumber (String c EmptyString), toks).
Proof.
  intros H. unfold lex_default. rewrite H.
  unfold is_digit in H. apply andb_true_iff in H. destruct H as [H1 H2].
  apply Nat.leb_le in H1. apply Nat.leb_le in H2.
  repeat match goal with
         | |- context [(nat_of_ascii c =? ?k)%nat] =>
             destruct (Nat.eqb_spec (nat_of_ascii c) k); [lia|]
         end.
  reflexivity.
Qed.

(** The decimal form of an integer: a digit or a minus sign, then
    digits. *)
Lemma Z_to_string_shape z toks :
  exists c ds,
    Z_to_string z = String c ds
    /\ lex_default toks c = Some (LexNumber (String c EmptyString), toks)
    /\ all_digits ds = true.
Proof.
  assert (Huint : forall d, d <> Decimal.Nil ->
            exists c ds, NilEmpty.string_of_uint d = String c ds
                         /\ is_digit c = true /\ all_digits ds = true).
  { intros d Hd. pose proof (digits_of_uint d) as Hall.
    destruct (NilEmpty.string_of_uint d) as [|c ds] eqn:E.
    - destruct d; simpl in E; congruence.
    - simpl in Hall. apply andb_true_iff in Hall. exists c, ds. tauto. }
  unfold Z_to_string. destruct z as [|p|p]; simpl.
  - exists "0"%char, EmptyString. repeat split; reflexivity.
  - pose proof (DecimalPos.Unsigned.to_uint_nonnil p) as Hp.
    destruct (Huint _ Hp) as (c & ds & E & Hc & Hds).
    exists c, ds. unfold NilZero.string_of_uint.
    destruct (Pos.to_uint p); try contradiction;
      (split; [exact E | split; [apply lex_default_digit, Hc | exact Hds]]).
  - pose proof (DecimalPos.Unsigned.to_uint_nonnil p) as Hp.
    exists "-"%char, (NilZero.string_of_uint (Pos.to_uint p)).
    split; [reflexivity | split; [reflexivity|]].
    unfold NilZero.string_of_uint.
    destruct (Pos.to_uint p); try contradiction; apply digits_of_uint.
Qed.

Lemma read_number_print z : read_number (Z_to_string z) = Some z.
Proof.
  unfold read_number, Z_to_string. rewrite NilZero.isi.
  - rewrite DecimalZ.of_to, String.eqb_refl. reflexivity.
  - destruct z; simpl; try discriminate.
    intros [= H]. apply (DecimalPos.Unsigned.to_uint_nonnil _ H).
  - destruct z; simpl; try discriminate.
    intros [= H]. apply (DecimalPos.Unsigned.to_uint_nonnil _ H).
Qed.

Lemma lex_number z toks c rest :
  is_digit c = false ->
  lex_run (LexDefault, toks) (Z_to_string z ++ String c rest)
  = lex_run (LexDefault, toks ++ [TNumber z]) (String c rest).
Proof.
  intros Hc.
  destruct (Z_to_string_shape z toks) as (c0 & ds & E & Hc0 & Hds).
  pose proof (read_number_print z) as Hread.
  rewrite E in *.
  change (lex_run (LexDefault, toks) (String c0 (ds ++ String c rest))
          = lex_run (LexDefault, toks ++ [TNumber z]) (String c rest)).
  cbn [lex_run]. cbn [lex_step]. rewrite Hc0.
  rewrite lex_digits by exact Hds.
  cbn [lex_run append]. unfold lex_step at 1. rewrite Hc, Hread. reflexivity.
Qed.

Lemma lex_scalar v toks c rest :
  is_digit c = false ->
  lex_run (LexDefault, toks) (print_scalar v ++ String c rest)
  = lex_run (LexDefault, toks ++ [tokens_scalar v]) (String c rest).
Proof.
  intros Hc. destruct v as [s|z]; simpl print_scalar; simpl tokens_scalar.
  - apply lex_quote.
  - apply lex_number, Hc.
Qed.

Lemma lex_property kv toks c rest :
  is_digit c = false ->
  lex_run (LexDefault, toks) (print_property kv ++ String c rest)
  = lex_run (LexDefault, toks ++ tokens_property kv) (String c rest).
Proof.
  intros Hc. unfold print_property, tokens_property.
  change (lex_run (LexDefault, toks)
            ((json_quote (fst kv) ++ ": " ++ print_scalar (snd kv)) ++ String c rest)
          = lex_run (LexDefault, toks ++ [TString (fst kv); TColon; tokens_scalar (snd kv)])
                    (String c rest)).
  rewrite string_app_assoc, lex_quote.
  change (lex_run (LexDefault, (toks ++ [TString (fst kv)]) ++ [TColon])
                  (print_scalar (snd kv) ++ String c rest)
          = lex_run (LexDefault, toks ++ [TString (fst kv); TColon; tokens_scalar (snd kv)])
                    (String c rest)).
  rewrite lex_scalar by exact Hc.
  rewrite <- !app_assoc. reflexivity.
Qed.

Section LexItems.

Variable A : Type.
Variable print : A -> string.
Variable tokens : A -> list Token.
Variable close : string.
Variable close_tokens : list Token.

Hypothesis lex_print : forall x toks c rest,
  is_digit c = false ->
  lex_run (LexDefault, toks) (print x ++ String c rest)
  = lex_run (LexDefault, toks ++ tokens x) (String c rest).

Hypothesis lex_close : forall toks rest,
  lex_run (LexDefault, toks) (close ++ rest)
  = lex_run (LexDefault, toks ++ close_tokens) rest.

Lemma lex_items l : forall toks rest,
  l <> [] ->
  lex_run (LexDefault, toks) (print_items print close l ++ rest)
  = lex_run (LexDefault, toks ++ tokens_items tokens l ++ close_tokens) rest.
Proof.
  induction l as [|x l IH]; intros toks rest Hl; [contradiction|].
  destruct l as [|y l].
  - cbn [print_items tokens_items].
    rewrite !string_app_assoc.
    change ((newline ++ close ++ rest)%string)
      with (String (ascii_of_nat 10) (close ++ rest)).
    rewrite lex_print by reflexivity.
    change (lex_run (LexDefault, toks ++ tokens x) (close ++ rest)
            = lex_run (LexDefault, toks ++ tokens x ++ close_tokens) rest).
    rewrite lex_close, <- app_assoc. reflexivity.
  - change (print_items print close (x :: y :: l))
      with ((print x ++ "," ++ newline ++ print_items print close (y :: l))%string).
    change (tokens_items tokens (x :: y :: l))
      with (tokens x ++ TComma :: tokens_items tokens (y :: l)).
    rewrite !string_app_assoc.
    change (("," ++ newline ++ print_items print close (y :: l) ++ rest)%string)
      with (String ","%char
                   (newline ++ print_items print close (y :: l) ++ rest)).
    rewrite lex_print by reflexivity.
    change (lex_run (LexDefault, (toks ++ tokens x) ++ [TComma])
                    (print_items print close (y :: l) ++ rest)
            = lex_run (LexDefault,
                       toks ++ (tokens x ++ TComma :: tokens_items tokens (y :: l))
                            ++ close_tokens) rest).
    rewrite IH by discriminate.
    f_equal. f_equal. rewrite <- !app_assoc. reflexivity.
Qed.

End LexItems.

Lemma lex_object o toks rest :
  lex_run (LexDefault, toks) (("  " ++ print_object o) ++ rest)
  = lex_run (LexDefault, toks ++ tokens_object o) rest.
Proof.
  unfold tokens_object. destruct o as [|kv o].
  - change (lex_run (LexDefault, (toks ++ [TLBrace]) ++ [TRBrace]) rest
            = lex_run (LexDefault, toks ++ [TLBrace; TRBrace]) rest).
    rewrite <- app_assoc. reflexivity.
  - change (lex_run (LexDefault, toks ++ [TLBrace])
                    (print_items print_property "  }" (kv :: o) ++ rest)
            = lex_run (LexDefault,
                       toks ++ TLBrace :: tokens_items tokens_property (kv :: o)
                            ++ [TRBrace]) rest).
    rewrite (@lex_items _ print_property tokens_property "  }" [TRBrace]).
    + f_equal. f_equal. rewrite <- app_assoc. reflexivity.
    + intros x toks' c rest' Hc. apply lex_property, Hc.
    + intros toks' rest'. reflexivity.
    + discriminate.
Qed.

Lemma lex_array l :
  JSON_tokens (print_array l) = Some (tokens_array l).
Proof.
  unfold JSON_tokens, tokens_array. destruct l as [|o l].
  - reflexivity.
  - rewrite <- (string_app_nil (print_array (o :: l))).
    change (match lex_run (LexDefault, [] ++ [TLBracket])
                          (print_items (fun o => ("  " ++ print_object o)%string)
                                       "]" (o :: l) ++ EmptyString) with
            | Some conf => lex_finish conf
            | None => None
            end
            = Some (TLBracket :: tokens_items tokens_object (o :: l) ++ [TRBracket])).
    rewrite (@lex_items _ (fun o => ("  " ++ print_object o)%string)
                        tokens_object "]" [TRBracket]).
    + reflexivity.
    + intros x toks c rest _. apply lex_object.
    + intros toks rest. reflexivity.
    + discriminate.
Qed.

(** *** Reading what the serializer wrote: tokens *)

Lemma parse_property kv o objs rest :
  parse_run (PNextKey o, objs) (tokens_property kv ++ rest)
  = parse_run (PValue (o ++ [kv]), objs) rest.
Proof.
  destruct kv as [k [s|z]]; reflexivity.
Qed.

Lemma parse_properties props : forall o objs rest,
  props <> [] ->
  parse_run (PNextKey o, objs) (tokens_items tokens_property props ++ rest)
  = parse_run (PValue (o ++ props), objs) rest.
Proof.
  induction props as [|kv props IH]; intros o objs rest Hp; [contradiction|].
  destruct props as [|kv' props].
  - apply parse_property.
  - change (tokens_items tokens_property (kv :: kv' :: props))
      with (tokens_property kv
              ++ TComma :: tokens_items tokens_property (kv' :: props)).
    rewrite <- app_assoc, parse_property.
    change (parse_run (PNextKey (o ++ [kv]), objs)
                      (tokens_items tokens_property (kv' :: props) ++ rest)
            = parse_run (PValue (o ++ kv :: kv' :: props), objs) rest).
    rewrite IH by discriminate. rewrite <- app_assoc. reflexivity.
Qed.

Lemma parse_first_key props objs rest :
  props <> [] ->
  parse_run (PObjectOpen, objs) (tokens_items tokens_property props ++ rest)
  = parse_run (PNextKey [], objs) (tokens_items tokens_property props ++ rest).
Proof.
  intros Hp. destruct props as [|[k v] [|kv' props]];
    [contradiction | reflexivity | reflexivity].
Qed.

Lemma parse_object (before : ParseState) o objs rest :
  parse_step (before, objs) TLBrace = Some (PObjectOpen, objs) ->
  parse_run (before, objs) (tokens_object o ++ rest)
  = parse_run (PObjectDone, objs ++ [o]) rest.
Proof.
  intros Hopen. unfold tokens_object.
  change (match parse_step (before, objs) TLBrace with
          | Some conf' =>
              parse_run conf' ((tokens_items tokens_property o ++ [TRBrace]) ++ rest)
          | None => None
          end = parse_run (PObjectDone, objs ++ [o]) rest).
  rewrite Hopen. destruct o as [|kv o].
  - reflexivity.
  - rewrite <- app_assoc, parse_first_key, parse_properties by discriminate.
    reflexivity.
Qed.

Lemma parse_objects l : forall objs rest,
  l <> [] ->
  parse_run (PNextObject, objs) (tokens_items tokens_object l ++ rest)
  = parse_run (PObjectDone, objs ++ l) rest.
Proof.
  induction l as [|o l IH]; intros objs rest Hl; [contradiction|].
  destruct l as [|o' l].
  - apply parse_object. reflexivity.
  - change (tokens_items tokens_object (o :: o' :: l))
      with (tokens_object o ++ TComma :: tokens_items tokens_object (o' :: l)).
    rewrite <- app_assoc, parse_object by reflexivity.
    change (parse_run (PNextObject, objs ++ [o])
                      (tokens_items tokens_object (o' :: l) ++ rest)
            = parse_run (PObjectDone, objs ++ o :: o' :: l) rest).
    rewrite IH by discriminate. rewrite <- app_assoc. reflexivity.
Qed.

Lemma parse_array l :
  parse_run (PStart, []) (tokens_array l) = Some (PEnd, l).
Proof.
  unfold tokens_array. destruct l as [|o l]; [reflexivity|].
  change (parse_run (PArrayOpen, [])
                    (tokens_items tokens_object (o :: l) ++ [TRBracket])
          = Some (PEnd, o :: l)).
  assert (Hfirst : forall rest,
            parse_run (PArrayOpen, []) (tokens_items tokens_object (o :: l) ++ rest)
            = parse_run (PNextObject, []) (tokens_items tokens_object (o :: l) ++ rest)).
  { intros rest. destruct l as [|o' l].
    - change (tokens_items tokens_object [o]) with (tokens_object o).
      rewrite !parse_object by reflexivity. reflexivity.
    - change (tokens_items tokens_object (o :: o' :: l))
        with (tokens_object o ++ TComma :: tokens_items tokens_object (o' :: l)).
      rewrite <- !app_assoc, !parse_object by reflexivity. reflexivity. }
  rewrite Hfirst, parse_objects by discriminate. reflexivity.
Qed.

Lemma JSON_objects_print l : JSON_objects (print_array l) = Some l.
Proof.
  unfold JSON_objects. rewrite lex_array, parse_array. reflexivity.
Qed.

(** *** Reading what the serializer wrote: nodes *)

Lemma node_of_node_object n : node_of_object (node_object n) = Some n.
Proof.
  destruct n as [i nm ty p u a o].
  destruct ty, u as [u|], a as [a|], o as [o|]; reflexivity.
Qed.

Lemma nodes_of_node_objects st :
  nodes_of_objects (map node_object st) = Some st.
Proof.
  induction st as [|n st IH]; simpl; [reflexivity|].
  rewrite node_of_node_object, IH. reflexivity.
Qed.

(** [JSON.parse(JSON.stringify(bookmarks, null, 2))] gives the store
    back. *)
Lemma JSON_parse_stringify st : JSON_parse (JSON_stringify st) = Some st.
Proof.
  unfold JSON_parse, JSON_stringify.
  rewrite JSON_objects_print. apply nodes_of_node_objects.
Qed.

(** ** Export, then import *)

(** C3, as stated, fails: the JSON text of a store in which a name
    contains the token [<DL>] passes the markup test of the import; it
    is handed to the markup parser, which finds no entries, and the
    import fails and keeps the store it had, here the empty one. *)
Lemma export_import_counterexample :
  looks_like_markup "bookmarks.json" (exportBookmarks sample_named) = true
  /\ handleFileImport (fun _ => sample_named_document) (fun _ => "1700000000000-k3x9q2m1z")
                      5 [] "bookmarks.json" (exportBookmarks sample_named) true
     = (ImportFailed (GenericError "No bookmarks found in HTML file"), [])
  /\ ~ (forall parseFromString stamp fuel (st cur : Store) confirmed,
           confirmed = true ->
           snd (handleFileImport parseFromString stamp fuel cur "bookmarks.json"
                                 (exportBookmarks st) confirmed) = st).
Proof.
  split; [reflexivity | split; [reflexivity|]].
  intros H.
  specialize (H (fun _ => sample_named_document) (fun _ => "1700000000000-k3x9q2m1z")
                5 sample_named [] true eq_refl).
  vm_compute in H. discriminate H.
Qed.

(** C3, amended. When the import does not take the exported text for
    markup (the file name does not end in [.html] and the text holds
    neither [<DT>] nor [<DL>]), and the user confirms the replacement
    where a store is present, export followed by import gives the
    exported store back: the same nodes with the same ids, names, urls,
    parent and order fields, in the same sequence. Reading the exported
    text as JSON always gives the store back. *)
Theorem export_import_roundtrip
        (parseFromString : string -> DomNode) (stamp : nat -> string)
        (fuel : nat) (st cur : Store) (fileName : string) (confirmed : bool)
        (Hjson : looks_like_markup fileName (exportBookmarks st) = false)
        (Hconfirm : cur = [] \/ confirmed = true) :
  handleFileImport parseFromString stamp fuel cur fileName
                   (exportBookmarks st) confirmed
  = (Imported (length st), st)
  /\ JSON_parse (exportBookmarks st) = Some st.
Proof.
  split; [|apply JSON_parse_stringify].
  unfold handleFileImport. rewrite Hjson.
  unfold exportBookmarks. rewrite JSON_parse_stringify.
  destruct Hconfirm as [->| ->].
  - reflexivity.
  - rewrite andb_false_r. reflexivity.
Qed.

Lemma export_import_roundtrip_witness :
  handleFileImport (fun _ => sample_document) (fun _ => "1700000000000-k3x9q2m1z")
                   0 sample_dangling "bookmarks.json"
                   (exportBookmarks sample_tree) true
  = (Imported 3, sample_tree).
Proof.
  exact (proj1 (@export_import_roundtrip
                  (fun _ => sample_document) (fun _ => "1700000000000-k3x9q2m1z")
                  0 sample_tree sample_dangling "bookmarks.json" true
                  eq_refl (or_intror eq_refl))).
Defined.

(** * Further properties *)

(** ** The ancestry check decides reachability *)

Lemma isDescendant_true fuel st : forall itemId ancestorId,
  isDescendant fuel st itemId ancestorId = Some true ->
  clos_trans string (parent_step st) itemId ancestorId.
Proof.
  induction fuel as [|fuel IH]; intros itemId ancestorId H; [discriminate H|].
  simpl in H. destruct (find_by_id st itemId) as [item|] eqn:Hf; [|discriminate H].
  destruct (truthy (parent item)) eqn:Ht; simpl in H; [|discriminate H].
  apply truthy_true_iff in Ht.
  assert (Hstep : parent_step st itemId (parent item)).
  { exists item. auto. }
  destruct (String.eqb_spec (parent item) ancestorId) as [<-|_].
  - apply t_step, Hstep.
  - eapply t_trans; [apply t_step, Hstep | apply IH, H].
Qed.

Lemma isDescendant_false fuel st : forall itemId ancestorId,
  isDescendant fuel st itemId ancestorId = Some false ->
  ~ clos_trans string (parent_step st) itemId ancestorId.
Proof.
  induction fuel as [|fuel IH]; intros itemId ancestorId H Hpath; [discriminate H|].
  apply clos_trans_t1n in Hpath.
  assert (Hfirst : exists k, parent_step st itemId k
                             /\ (k = ancestorId
                                 \/ clos_trans string (parent_step st) k ancestorId)).
  { inversion Hpath as [k Hs | k z Hs Hrest]; subst.
    - exists ancestorId. auto.
    - exists k. split; [assumption|]. right. apply clos_t1n_trans, Hrest. }
  destruct Hfirst as (k & (item & Hf & Hp & Hne) & Hk).
  simpl in H. rewrite Hf in H.
  apply truthy_true_iff in Hne. rewrite <- Hp in Hne. rewrite Hne in H. simpl in H.
  destruct (String.eqb_spec (parent item) ancestorId) as [Heq|Hneq].
  - discriminate H.
  - destruct Hk as [Hk|Hk]; [congruence|].
    rewrite <- Hp in Hk. exact (IH _ _ H Hk).
Qed.

(** X1. Whenever [isDescendant(itemId, ancestorId)] returns, its answer
    is whether [ancestorId] is met on the way up from [itemId]: the
    walk goes from an id to the non-empty [parent] of the first node
    that carries it. *)
Theorem isDescendant_decides (fuel : nat) (st : Store)
        (itemId ancestorId : string) (b : bool)
        (Hreturns : isDescendant fuel st itemId ancestorId = Some b) :
  b = true <-> clos_trans string (parent_step st) itemId ancestorId.
Proof.
  destruct b.
  - split; [intros _; eapply isDescendant_true; eassumption | reflexivity].
  - split; [discriminate|].
    intros Hpath. exfalso. eapply isDescendant_false; eassumption.
Qed.

Lemma isDescendant_decides_witness :
  true = true <-> clos_trans string (parent_step sample_tree) "abc" "a".
Proof.
  exact (@isDescendant_decides 3 sample_tree "abc" "a" true eq_refl).
Defined.

(** ** The children of a parent are sorted *)

Lemma compare_order_le a b :
  cmp_le compare_order a b <-> child_before a b.
Proof.
  unfold cmp_le, compare_order, child_before.
  destruct (order (snd a)) as [x|], (order (snd b)) as [y|]; try lia.
  destruct (Z.eqb_spec x y); lia.
Qed.

(** X2. [getItemsByParent(p)] lists exactly the nodes whose [parent]
    is [p], each object once, sorted by [order] with the children that
    have no [order] last and equal ranks in store order. *)
Theorem getItemsByParent_sorted (st : Store) (p : string) :
  Permutation (getItemsByParent st p) (filter (fun n => parent n =? p) st)
  /\ StronglySorted child_before (getItemsByParent_refs st p)
  /\ NoDup (map fst (getItemsByParent_refs st p))
  /\ (forall k n, In (k, n) (getItemsByParent_refs st p)
                  <-> nth_error st k = Some n /\ parent n = p).
Proof.
  split; [apply getItemsByParent_perm|].
  split; [|split; [apply siblings_NoDup | intros k n; apply siblings_In]].
  apply StronglySorted_weaken with (R := cmp_le compare_order).
  - intros a b. apply compare_order_le.
  - apply js_sort_sorted.
    + apply compare_order_total.
    + apply compare_order_trans.
Qed.

(** ** Saving and loading the store *)

Lemma with_defaults_twice i n :
  with_defaults i (with_defaults i n) = with_defaults i n.
Proof.
  destruct n as [i0 nm ty p u a o]. unfold with_defaults. simpl.
  destruct a, o; reflexivity.
Qed.

Lemma with_defaults_set i n :
  order n <> None -> accessTime n <> None -> with_defaults i n = n.
Proof.
  destruct n as [i0 nm ty p u a o]. unfold with_defaults. simpl.
  destruct a, o; intros Ho Ha; try reflexivity; contradiction.
Qed.

Lemma map_indexed_from (g : nat -> Node -> Node) l : forall a,
  combine (seq a (length (map (fun e : Ref => g (fst e) (snd e))
                              (combine (seq a (length l)) l))))
          (map (fun e : Ref => g (fst e) (snd e)) (combine (seq a (length l)) l))
  = map (fun e : Ref => (fst e, g (fst e) (snd e))) (combine (seq a (length l)) l).
Proof.
  induction l as [|x l IH]; intros a; simpl; [reflexivity|].
  f_equal. apply IH.
Qed.

Lemma indexed_fill_defaults st :
  indexed (fill_defaults st)
  = map (fun e : Ref => (fst e, with_defaults (fst e) (snd e))) (indexed st).
Proof.
  unfold fill_defaults, indexed. apply map_indexed_from.
Qed.

Lemma fill_defaults_set st :
  (forall n, In n st -> order n <> None /\ accessTime n <> None) ->
  fill_defaults st = st.
Proof.
  intros Hset. unfold fill_defaults.
  rewrite <- (indexed_snd st) at 2.
  apply map_ext_in. intros [k n] Hin. simpl.
  assert (Hn : In n st).
  { apply indexed_In in Hin. eapply nth_error_In. exact Hin. }
  destruct (Hset n Hn). apply with_defaults_set; assumption.
Qed.

Lemma JSON_stringify_truthy st : truthy (JSON_stringify st) = true.
Proof.
  unfold JSON_stringify, print_array. destruct (map node_object st); reflexivity.
Qed.

(** X3. What [saveBookmarks] writes, [loadBookmarks] reads back as the
    same store with the missing [accessTime] and [order] filled in (0
    and the position in the array); a store in which no node misses
    either comes back unchanged. When the write fails and nothing was
    stored before, loading leaves the store in memory as it is. *)
Theorem save_then_load (st cur : Store) (stored : option string) :
  loadBookmarks (saveBookmarks true st stored) cur = Some (fill_defaults st)
  /\ ((forall n, In n st -> order n <> None /\ accessTime n <> None) ->
      loadBookmarks (saveBookmarks true st stored) cur = Some st)
  /\ loadBookmarks (saveBookmarks false st None) cur = Some cur.
Proof.
  assert (Hload : loadBookmarks (saveBookmarks true st stored) cur
                  = Some (fill_defaults st)).
  { unfold loadBookmarks, saveBookmarks.
    rewrite JSON_stringify_truthy, JSON_parse_stringify. reflexivity. }
  split; [exact Hload|]. split; [|reflexivity].
  intros Hset. rewrite Hload, (fill_defaults_set st Hset). reflexivity.
Qed.

Lemma save_then_load_witness :
  loadBookmarks (saveBookmarks true sample_siblings None) [] = Some (fill_defaults sample_siblings)
  /\ loadBookmarks (saveBookmarks true [sample_A; sample_B] None) []
     = Some [sample_A; sample_B].
Proof.
  split.
  - exact (proj1 (save_then_load sample_siblings [] None)).
  - apply (proj1 (proj2 (save_then_load [sample_A; sample_B] [] None))).
    intros n [<-|[<-|[]]]; split; discriminate.
Defined.

(** X4. The defaults [loadBookmarks] fills in leave no node without
    [order] or [accessTime], change no other field and no field that was
    set, and filling them in twice is the same as once. *)
Theorem fill_defaults_settles (st : Store) :
  fill_defaults (fill_defaults st) = fill_defaults st
  /\ (forall n, In n (fill_defaults st) -> order n <> None /\ accessTime n <> None)
  /\ map (fun n => (id n, name n, type n, parent n, url n)) (fill_defaults st)
     = map (fun n => (id n, name n, type n, parent n, url n)) st
  /\ (forall k n, nth_error st k = Some n ->
        exists n', nth_error (fill_defaults st) k = Some n'
                   /\ (forall o, order n = Some o -> order n' = Some o)
                   /\ (order n = None -> order n' = Some (Z.of_nat k))
                   /\ (forall t, accessTime n = Some t -> accessTime n' = Some t)
                   /\ (accessTime n = None -> accessTime n' = Some 0%Z)).
Proof.
  split; [|split; [|split]].
  - unfold fill_defaults at 1. rewrite indexed_fill_defaults, map_map.
    unfold fill_defaults. apply map_ext. intros [k n]. simpl.
    apply with_defaults_twice.
  - intros n Hn. unfold fill_defaults in Hn. apply in_map_iff in Hn.
    destruct Hn as ([k m] & <- & _). simpl.
    destruct m as [i0 nm ty p u a o]. unfold with_defaults. simpl.
    destruct a, o; split; discriminate.
  - unfold fill_defaults. rewrite map_map.
    rewrite <- (indexed_snd st) at 2. rewrite map_map.
    apply map_ext. intros [k n]. reflexivity.
  - intros k n Hk. exists (with_defaults k n). split.
    + unfold fill_defaults. apply indexed_In in Hk.
      apply In_nth_error in Hk. destruct Hk as (j & Hj).
      assert (Hjk : j = k).
      { pose proof (map_nth_error fst j (indexed st) Hj) as Hfst.
        rewrite indexed_fst in Hfst. simpl in Hfst.
        assert (Hlt : j < length (seq 0 (length st))).
        { apply nth_error_Some. congruence. }
        rewrite length_seq in Hlt.
        rewrite (nth_error_nth' _ 0) in Hfst by (rewrite length_seq; exact Hlt).
        rewrite seq_nth in Hfst by exact Hlt. injection Hfst as Hfst. lia. }
      subst j.
      exact (map_nth_error (fun e : Ref => with_defaults (fst e) (snd e))
                           k (indexed st) Hj).
    + destruct n as [i0 nm ty p u a o]. unfold with_defaults. simpl.
      repeat split; intros; subst; try reflexivity; congruence.
Qed.

(** ** Children listings of two stores *)

Lemma compare_order_fst a b :
  cmp_le compare_order a b -> cmp_le compare_order b a -> fst a = fst b.
Proof.
  unfold cmp_le, compare_order.
  destruct (order (snd a)) as [x|], (order (snd b)) as [y|]; try lia.
  rewrite (Z.eqb_sym y x). destruct (Z.eqb_spec x y); lia.
Qed.

Lemma NoDup_fst_inj (l : list Ref) a b :
  NoDup (map fst l) -> In a l -> In b l -> fst a = fst b -> a = b.
Proof.
  induction l as [|x l IH]; simpl; intros Hnd Ha Hb Hab; [contradiction|].
  inversion Hnd as [|y l' Hnin Hnd']; subst.
  destruct Ha as [<-|Ha], Hb as [<-|Hb].
  - reflexivity.
  - exfalso. apply Hnin. rewrite Hab. apply in_map, Hb.
  - exfalso. apply Hnin. rewrite <- Hab. apply in_map, Ha.
  - apply IH; assumption.
Qed.

Lemma StronglySorted_map_in (A : Type) (R : A -> A -> Prop) (h : A -> A) l :
  (forall a b, In a l -> In b l -> R a b -> R (h a) (h b)) ->
  StronglySorted R l -> StronglySorted R (map h l).
Proof.
  intros Hh Hs. induction Hs as [|a l Hs IH Ha]; simpl; constructor.
  - apply IH. intros x y Hx Hy. apply Hh; right; assumption.
  - rewrite Forall_forall in *. intros y Hy. apply in_map_iff in Hy.
    destruct Hy as (x & <- & Hx). apply Hh.
    + left. reflexivity.
    + right. exact Hx.
    + apply Ha, Hx.
Qed.


Lemma children_sorted st p :
  StronglySorted (cmp_le compare_order) (getItemsByParent_refs st p).
Proof.
  apply js_sort_sorted.
  - apply compare_order_total.
  - apply compare_order_trans.
Qed.

(** A listing is determined by the objects it holds: a sorted list with
    distinct indices that holds the children of [p] in [st'] is the
    listing of [p] in [st']. *)
Lemma children_characterised st' p (l : list Ref) :
  NoDup (map fst l) ->
  StronglySorted (cmp_le compare_order) l ->
  (forall k n, In (k, n) l <-> nth_error st' k = Some n /\ parent n = p) ->
  getItemsByParent_refs st' p = l.
Proof.
  intros Hnd Hs Hin. symmetry.
  apply sorted_perm_unique with (cmp := compare_order).
  - intros a b Ha Hb Hab Hba.
    apply (@NoDup_fst_inj l a b Hnd Ha Hb). apply compare_order_fst; assumption.
  - exact Hs.
  - apply children_sorted.
  - apply NoDup_Permutation.
    + eapply NoDup_map_inv_list. exact Hnd.
    + eapply NoDup_map_inv_list. apply siblings_NoDup.
    + intros [k n]. rewrite Hin. symmetry. apply siblings_In.
Qed.

(** The listing of [p] carries over a change of the store that keeps
    the [order] of its children. *)
Lemma children_transport st st' p (h : Ref -> Ref) :
  (forall e, fst (h e) = fst e) ->
  (forall e, In e (getItemsByParent_refs st p) ->
             order (snd (h e)) = order (snd e)) ->
  (forall k n', (nth_error st' k = Some n' /\ parent n' = p)
                <-> exists n, nth_error st k = Some n /\ parent n = p
                              /\ h (k, n) = (k, n')) ->
  getItemsByParent_refs st' p = map h (getItemsByParent_refs st p).
Proof.
  intros Hfst Hord Hin. apply children_characterised.
  - rewrite map_map. rewrite (map_ext _ fst Hfst). apply siblings_NoDup.
  - apply StronglySorted_map_in; [|apply children_sorted].
    intros a b Ha Hb. unfold cmp_le, compare_order.
    rewrite !Hfst, (Hord a Ha), (Hord b Hb). exact (fun H => H).
  - intros k n'. rewrite Hin, in_map_iff. split.
    + intros ([k0 n] & Heq & He). pose proof (Hfst (k0, n)) as Hk.
      rewrite Heq in Hk. simpl in Hk. subst k0.
      apply siblings_In in He. destruct He as [He1 He2].
      exists n. repeat split; assumption.
    + intros (n & Hn & Hp & Heq). exists (k, n). split; [exact Heq|].
      apply siblings_In. auto.
Qed.


(** ** Recording an access *)

Lemma find_indexed st (f : Node -> bool) k x :
  find (fun b : Ref => f (snd b)) (indexed st) = Some (k, x) ->
  nth_error st k = Some x /\ f x = true.
Proof.
  intros H. apply find_some in H. destruct H as [Hin Hf].
  apply indexed_In in Hin. auto.
Qed.

Lemma find_indexed_none st (f : Node -> bool) :
  find f st = None -> find (fun b : Ref => f (snd b)) (indexed st) = None.
Proof.
  intros Hnone.
  destruct (find (fun b : Ref => f (snd b)) (indexed st)) as [[k x]|] eqn:E;
    [|reflexivity].
  apply find_indexed in E. destruct E as [Hk Hf].
  apply nth_error_In in Hk. rewrite (find_none _ _ Hnone _ Hk) in Hf.
  discriminate Hf.
Qed.

Lemma find_indexed_from_some (f : Node -> bool) x : forall (l : Store) a,
  find f l = Some x ->
  exists k, find (fun b : Ref => f (snd b)) (combine (seq a (length l)) l)
            = Some (k, x).
Proof.
  induction l as [|y l IH]; intros a H; simpl in *; [discriminate H|].
  destruct (f y).
  - injection H as ->. exists a. reflexivity.
  - apply IH, H.
Qed.

Lemma find_indexed_some st (f : Node -> bool) x :
  find f st = Some x ->
  exists k, find (fun b : Ref => f (snd b)) (indexed st) = Some (k, x).
Proof.
  apply find_indexed_from_some.
Qed.

(** A change of one object that keeps [parent] and [order] leaves every
    listing in place. *)
Lemma children_update st k (f : Node -> Node) p :
  (forall n, parent (f n) = parent n) ->
  (forall n, order (f n) = order n) ->
  getItemsByParent_refs (update_at k f st) p
  = map (fun e : Ref => (fst e, if (fst e =? k)%nat then f (snd e) else snd e))
        (getItemsByParent_refs st p).
Proof.
  intros Hpar Hord. apply children_transport.
  - intros e. reflexivity.
  - intros e _. simpl. destruct (fst e =? k)%nat; [apply Hord | reflexivity].
  - intros j n'. rewrite update_at_nth. simpl.
    destruct (Nat.eqb_spec j k) as [->|Hne].
    + split.
      * intros [Hn Hp]. destruct (nth_error st k) as [n|]; [|discriminate Hn].
        simpl in Hn. injection Hn as <-. exists n.
        rewrite Hpar in Hp. auto.
      * intros (n & Hn & Hp & Heq). injection Heq as <-.
        rewrite Hn, Hpar. auto.
    + split.
      * intros [Hn Hp]. exists n'. auto.
      * intros (n & Hn & Hp & Heq). injection Heq as <-. auto.
Qed.

(** X5. [recordBookmarkAccess] changes nothing but [accessTime], does
    nothing for an id no node carries, and leaves every folder's
    listing the same objects, with the same ids, in the same order. *)
Theorem recordBookmarkAccess_keeps_listings (now : Z) (st : Store) (i : string) :
  map (set_accessTime None) (recordBookmarkAccess now st i)
  = map (set_accessTime None) st
  /\ (find_by_id st i = None -> recordBookmarkAccess now st i = st)
  /\ (forall p, map fst (getItemsByParent_refs (recordBookmarkAccess now st i) p)
                = map fst (getItemsByParent_refs st p))
  /\ (forall p, map id (getItemsByParent (recordBookmarkAccess now st i) p)
                = map id (getItemsByParent st p)).
Proof.
  unfold recordBookmarkAccess.
  destruct (find (fun b : Ref => id (snd b) =? i) (indexed st)) as [[k x]|] eqn:E.
  - simpl. split; [|split; [|split]].
    + apply update_at_map. intros n. reflexivity.
    + intros Hnone.
      rewrite (find_indexed_none st (fun n => id n =? i) Hnone) in E.
      discriminate E.
    + intros p. rewrite children_update by reflexivity.
      rewrite map_map. reflexivity.
    + intros p. unfold getItemsByParent.
      rewrite children_update by reflexivity.
      rewrite !map_map. apply map_ext. intros [j n]. simpl.
      destruct (j =? k)%nat; reflexivity.
  - repeat split; reflexivity.
Qed.

Lemma recordBookmarkAccess_keeps_listings_witness :
  recordBookmarkAccess 1700000000000 sample_tree "zz" = sample_tree.
Proof.
  exact (proj1 (proj2 (recordBookmarkAccess_keeps_listings
                         1700000000000 sample_tree "zz")) eq_refl).
Defined.

Lemma update_at_In (A : Type) (f : A -> A) l : forall k x y,
  nth_error l k = Some x -> In y (update_at k f l) -> y = f x \/ In y l.
Proof.
  induction l as [|a l IH]; intros [|k] x y Hx Hy; simpl in *;
    try discriminate Hx.
  - injection Hx as ->. destruct Hy as [<-|Hy]; auto.
  - destruct Hy as [<-|Hy]; [auto|].
    destruct (IH k x y Hx Hy); auto.
Qed.

Lemma update_at_In_new (A : Type) (f : A -> A) l : forall k x,
  nth_error l k = Some x -> In (f x) (update_at k f l).
Proof.
  induction l as [|a l IH]; intros [|k] x Hx; simpl in *; try discriminate Hx.
  - injection Hx as ->. left. reflexivity.
  - right. apply IH, Hx.
Qed.

Section AccessRanking.

Variable toLowerCase : string -> string.
Variable localeCompare : string -> string -> Z.

Hypothesis collation_total :
  forall a b, (0 < localeCompare a b)%Z -> (localeCompare b a <= 0)%Z.
Hypothesis collation_trans :
  forall a b c, (localeCompare a b <= 0)%Z -> (localeCompare b c <= 0)%Z ->
                (localeCompare a c <= 0)%Z.

Lemma search_sorted st query :
  query <> "" ->
  StronglySorted (ranked_before localeCompare)
                 (searchBookmarks toLowerCase localeCompare st query).
Proof.
  intros Hq. rewrite (searchBookmarks_nonempty toLowerCase localeCompare st Hq).
  apply StronglySorted_weaken with (R := cmp_le (compare_search localeCompare)).
  - intros a b. apply compare_search_le.
  - apply js_sort_sorted.
    + apply compare_search_total, collation_total.
    + apply compare_search_trans, collation_trans.
Qed.

Lemma search_In st query n :
  query <> "" ->
  (In n (searchBookmarks toLowerCase localeCompare st query)
   <-> In n st /\ name_matches toLowerCase (toLowerCase query) n = true).
Proof.
  intros Hq. rewrite (searchBookmarks_nonempty toLowerCase localeCompare st Hq).
  rewrite <- filter_In.
  split; apply Permutation_in;
    [apply js_sort_perm | apply Permutation_sym, js_sort_perm].
Qed.

(** X6. After [recordBookmarkAccess] at a time later than every access
    time in the store, a search that matches the accessed bookmark
    lists it first. *)
Theorem accessed_bookmark_ranks_first (now : Z) (st : Store)
        (bookmarkId query : string) (x : Node)
        (Hfound : find_by_id st bookmarkId = Some x)
        (Hquery : query <> "")
        (Hmatch : name_matches toLowerCase (toLowerCase query) x = true)
        (Hlater : forall n, In n st -> (accessTime_or_0 n < now)%Z) :
  exists rest,
    searchBookmarks toLowerCase localeCompare
                    (recordBookmarkAccess now st bookmarkId) query
    = set_accessTime (Some now) x :: rest.
Proof.
  destruct (@find_indexed_some st (fun n => id n =? bookmarkId) x Hfound)
    as [k Hfound'].
  pose proof (@find_indexed st (fun n => id n =? bookmarkId) k x Hfound')
    as [Hk _].
  set (st' := recordBookmarkAccess now st bookmarkId).
  assert (Hst' : st' = update_at k (set_accessTime (Some now)) st).
  { unfold st', recordBookmarkAccess. rewrite Hfound'. reflexivity. }
  set (x' := set_accessTime (Some now) x).
  assert (Hx' : In x' (searchBookmarks toLowerCase localeCompare st' query)).
  { apply search_In; [exact Hquery|]. split.
    - rewrite Hst'. apply update_at_In_new, Hk.
    - exact Hmatch. }
  pose proof (search_sorted st' Hquery) as Hsorted.
  destruct (searchBookmarks toLowerCase localeCompare st' query) as [|h rest] eqn:E;
    [contradiction|].
  exists rest. f_equal.
  assert (Hh : In h st').
  { assert (Hin : In h (searchBookmarks toLowerCase localeCompare st' query)).
    { rewrite E. left. reflexivity. }
    apply search_In in Hin; [apply Hin | exact Hquery]. }
  rewrite Hst' in Hh.
  destruct (update_at_In _ _ _ _ Hk Hh) as [Heq|Hold]; [exact Heq|].
  exfalso. destruct Hx' as [Heq|Hrest].
  - specialize (Hlater h Hold). rewrite Heq in Hlater.
    unfold x', accessTime_or_0 in Hlater. simpl in Hlater. lia.
  - inversion Hsorted as [|h' rest' _ Hall]; subst.
    rewrite Forall_forall in Hall. specialize (Hall x' Hrest).
    specialize (Hlater h Hold).
    unfold ranked_before, x', accessTime_or_0 in Hall. simpl in Hall.
    unfold accessTime_or_0 in Hlater. lia.
Qed.

End AccessRanking.

Lemma accessed_bookmark_ranks_first_witness :
  exists rest,
    searchBookmarks lower_ascii first_char_collation
                    (recordBookmarkAccess 5000 [sample_A; sample_B; sample_C] "3")
                    "mail"
    = set_accessTime (Some 5000%Z) sample_C :: rest.
Proof.
  apply (@accessed_bookmark_ranks_first lower_ascii first_char_collation
           first_char_collation_total first_char_collation_trans
           5000 [sample_A; sample_B; sample_C] "3" "mail" sample_C).
  - reflexivity.
  - discriminate.
  - reflexivity.
  - intros n [<-|[<-|[<-|[]]]]; unfold accessTime_or_0; simpl; lia.
Defined.

(** ** The icon of a bookmark *)

(** X7. The icon of a bookmark only ages as time passes: with a later
    clock the icon is never a more recent one.  A bookmark never
    accessed, or accessed at time 0, has the plain icon at any time, and
    an access time ahead of the clock counts as the last hour. *)
Theorem getBookmarkIcon_ages (now now' : Z) (accessTime_ : option Z)
        (Hclock : (now <= now')%Z) :
  icon_age (getBookmarkIcon now accessTime_)
  <= icon_age (getBookmarkIcon now' accessTime_)
  /\ (accessTime_ = None \/ accessTime_ = Some 0%Z ->
      getBookmarkIcon now accessTime_ = IconPlain)
  /\ (forall t, accessTime_ = Some t -> t <> 0%Z -> (now < t + 3600000)%Z ->
      getBookmarkIcon now accessTime_ = IconVeryRecent)
  /\ (forall t, accessTime_ = Some t -> (t + 2592000000 <= now)%Z ->
      getBookmarkIcon now' accessTime_ = IconPlain).
Proof.
  unfold getBookmarkIcon. cbv zeta.
  change (60 * 60 * 1000)%Z with 3600000%Z.
  change (24 * 3600000)%Z with 86400000%Z.
  change (7 * 86400000)%Z with 604800000%Z.
  change (30 * 86400000)%Z with 2592000000%Z.
  repeat split.
  - destruct accessTime_ as [t|]; [|reflexivity].
    destruct (Z.eqb_spec t 0); [reflexivity|].
    repeat match goal with
           | |- context [(?a <? ?b)%Z] => destruct (Z.ltb_spec a b)
           end; simpl; lia.
  - intros [->| ->]; reflexivity.
  - intros t -> Ht Hlt. destruct (Z.eqb_spec t 0); [contradiction|].
    destruct (Z.ltb_spec (now - t) 3600000); [reflexivity | lia].
  - intros t -> Hle. destruct (Z.eqb_spec t 0); [reflexivity|].
    repeat match goal with
           | |- context [(?a <? ?b)%Z] => destruct (Z.ltb_spec a b)
           end; try reflexivity; lia.
Qed.

Lemma getBookmarkIcon_ages_witness :
  icon_age (getBookmarkIcon 1700000000000 (Some 1699999000000%Z))
  <= icon_age (getBookmarkIcon 1700090000000 (Some 1699999000000%Z)).
Proof.
  apply (getBookmarkIcon_ages (now := 1700000000000) (now' := 1700090000000)).
  lia.
Defined.

(** ** The navigation cursor *)

Lemma js_slice0_length (A : Type) (l : list A) e :
  (length (js_slice0 l e) <= Z.to_nat e /\ (0 <= e)%Z)
  \/ (length (js_slice0 l e) < length l /\ (e < 0)%Z)
  \/ (l = [] /\ (e < 0)%Z).
Proof.
  unfold js_slice0. destruct (Z.ltb_spec e 0) as [Hneg|Hpos].
  - destruct l as [|x l]; [right; right; auto|].
    right. left. split; [|exact Hneg].
    rewrite length_firstn. simpl length. lia.
  - left. split; [|exact Hpos]. rewrite length_firstn. lia.
Qed.

Lemma navigateToFolder_length paneExists currentPath folder_ level :
  length currentPath <= Z.to_nat (MAX_LEVELS - 1) ->
  length (snd (navigateToFolder paneExists currentPath folder_ level))
  <= Z.to_nat (MAX_LEVELS - 1).
Proof.
  intros Hlen. unfold navigateToFolder.
  destruct (Z.geb_spec level MAX_LEVELS) as [Hge|Hlt]; [exact Hlen|].
  cbv zeta. unfold MAX_LEVELS in *.
  assert (Hgoal : length (js_slice0 currentPath (level - 1) ++ [entry_of folder_])
                  <= Z.to_nat (10 - 1)).
  { rewrite length_app. simpl length.
    destruct (js_slice0_length currentPath (level - 1))
      as [[Hl He]|[[Hl He]|[Hl He]]].
    - lia.
    - lia.
    - subst currentPath. unfold js_slice0.
      destruct (level - 1 <? 0)%Z; rewrite firstn_nil; simpl; lia. }
  destruct (paneExists (level + 1)%Z); exact Hgoal.
Qed.

(** X8. Whatever folders are opened at whatever levels, one call of
    [navigateToFolder] after the other, a cursor of at most
    [MAX_LEVELS - 1] entries never grows beyond [MAX_LEVELS - 1]
    entries; this holds for levels below 1 and when the document lacks
    the next pane as well. *)
Theorem navigateToFolder_bounded (paneExists : Z -> bool)
        (steps : list (Node * Z)) (currentPath : list PathEntry)
        (Hbound : length currentPath <= Z.to_nat (MAX_LEVELS - 1)) :
  length (fold_left (fun path step =>
                       snd (navigateToFolder paneExists path (fst step) (snd step)))
                    steps currentPath)
  <= Z.to_nat (MAX_LEVELS - 1).
Proof.
  revert currentPath Hbound.
  induction steps as [|[f level] steps IH]; intros currentPath Hbound; simpl.
  - exact Hbound.
  - apply IH. apply navigateToFolder_length, Hbound.
Qed.

Lemma navigateToFolder_bounded_witness :
  length (fold_left (fun path step =>
                       snd (navigateToFolder (fun _ => true) path
                                             (fst step) (snd step)))
                    [(sample_folder, 1%Z); (sample_folder, 2%Z);
                     (sample_folder, 0%Z); (sample_folder, 12%Z)] [])
  <= Z.to_nat (MAX_LEVELS - 1).
Proof.
  apply (@navigateToFolder_bounded (fun _ => true)
           [(sample_folder, 1%Z); (sample_folder, 2%Z);
            (sample_folder, 0%Z); (sample_folder, 12%Z)] []).
  simpl. lia.
Defined.







Lemma sample_tree_unique : NoDup (map id sample_tree).
Proof.
  repeat constructor; simpl; intuition discriminate.
Qed.


(** ** Deleting more than once *)

Lemma acyclic_filter st (g : Node -> bool) : acyclic st -> acyclic (filter g st).
Proof.
  intros Hac i Hi. apply (Hac i).
  apply parent_path_incl with (st' := filter g st); [|exact Hi].
  intros n Hn. apply filter_In in Hn. apply Hn.
Qed.

Lemma filter_length_le (A : Type) (g : A -> bool) l : length (filter g l) <= length l.
Proof.
  induction l as [|x l IH]; simpl; [lia|].
  destruct (g x); simpl; lia.
Qed.

Lemma bool_iff_eq (a b : bool) (P : Prop) :
  (a = true <-> P) -> (b = true <-> P) -> a = b.
Proof.
  intros Ha Hb. destruct a, b; try reflexivity.
  - symmetry. apply Hb, Ha. reflexivity.
  - apply Ha, Hb. reflexivity.
Qed.

(** What a deletion that runs returns, for any sufficient fuel. *)
Lemma deleteRecursive_result st f :
  acyclic st ->
  exists keep,
    (forall fuel, length st < fuel ->
                  deleteRecursive fuel f st = Some (filter keep st))
    /\ forall n, In n st -> (keep n = true <-> ~ in_subtree st f (id n)).
Proof.
  intros Hac.
  assert (Hspec : forall fuel, length st < fuel ->
            exists keep,
              deleteRecursive fuel f st = Some (filter keep st)
              /\ forall n, In n st ->
                   (keep n = true <-> ~ in_subtree st f (id n))).
  { intros fuel Hfuel.
    apply (@deleteRecursive_spec st Hac fuel []).
    - intros n Hn. exact Hn.
    - constructor.
    - intros v [].
    - intros v [].
    - simpl. lia. }
  destruct (Hspec (S (length st))) as (keep & _ & Hkeep); [lia|].
  exists keep. split; [|exact Hkeep].
  intros fuel Hfuel. destruct (Hspec fuel Hfuel) as (keep' & Hrun & Hkeep').
  rewrite Hrun. f_equal. apply filter_ext_in.
  intros n Hn. apply bool_iff_eq with (P := ~ in_subtree st f (id n)); auto.
Qed.

(** Deleting an id no object has, and no object names as its parent,
    changes nothing. *)
Lemma deleteRecursive_absent st f fuel :
  (forall n, In n st -> id n <> f /\ parent n <> f) ->
  deleteRecursive (S fuel) f st = Some st.
Proof.
  intros Habsent. simpl.
  assert (Hnone : getItemsByParent st f = []).
  { destruct (getItemsByParent st f) as [|c cs] eqn:E; [reflexivity|].
    assert (Hc : In c (getItemsByParent st f)) by (rewrite E; left; reflexivity).
    apply getItemsByParent_In in Hc. destruct Hc as [Hin Hp].
    destruct (Habsent c Hin) as [_ Hne]. contradiction. }
  rewrite Hnone. simpl. f_equal. apply filter_all.
  intros n Hn. apply negb_true_iff, String.eqb_neq, Habsent, Hn.
Qed.

(** A path that starts outside the subtree of [f] is still there when
    that subtree is removed. *)
Lemma path_outside st f (keep : Node -> bool) :
  (forall n, In n st -> (keep n = true <-> ~ in_subtree st f (id n))) ->
  forall x y,
    clos_trans string (parent_edge st) x y ->
    ~ in_subtree st f x ->
    clos_trans string (parent_edge (filter keep st)) x y.
Proof.
  intros Hkeep x y Hxy. apply clos_trans_t1n in Hxy.
  induction Hxy as [x y He | x z y He _ IH]; intros Hout.
  - apply t_step. destruct He as (m & Hin & Hid & Hp).
    exists m. repeat split; try assumption.
    apply filter_In. split; [assumption|]. apply Hkeep; [assumption|].
    rewrite Hid. exact Hout.
  - apply t_trans with (y := z).
    + apply t_step. destruct He as (m & Hin & Hid & Hp).
      exists m. repeat split; try assumption.
      apply filter_In. split; [assumption|]. apply Hkeep; [assumption|].
      rewrite Hid. exact Hout.
    + apply IH. intros Hsub. apply Hout.
      eapply in_subtree_child; eassumption.
Qed.

(** X11. Deleting is settled after one round: on an acyclic store, the
    store a confirmed [deleteItem(f)] leaves is left as it is by a
    further [deleteItem(f)], which then returns at any positive fuel. *)
Theorem deleteItem_twice (st : Store) (f : string) (Hacyclic : acyclic st) :
  exists st',
    (forall fuel, length st < fuel -> deleteItem fuel f true false st = Some st')
    /\ (forall fuel, 0 < fuel -> deleteItem fuel f true false st' = Some st').
Proof.
  destruct (deleteRecursive_result f Hacyclic) as (keep & Hrun & Hkeep).
  exists (filter keep st). split; [exact Hrun|].
  intros [|fuel] Hfuel; [lia|].
  unfold deleteItem. simpl negb. simpl andb. cbv iota.
  apply deleteRecursive_absent.
  intros n Hn. apply filter_In in Hn. destruct Hn as [Hin Hk].
  apply (Hkeep n Hin) in Hk. split.
  - intros Heq. apply Hk. left. exact Heq.
  - intros Hp. apply Hk. right. apply t_step. exists n. auto.
Qed.

Lemma deleteItem_twice_witness :
  exists st',
    (forall fuel, length sample_tree < fuel ->
                  deleteItem fuel "ab" true false sample_tree = Some st')
    /\ (forall fuel, 0 < fuel -> deleteItem fuel "ab" true false st' = Some st').
Proof.
  apply (@deleteItem_twice sample_tree "ab" sample_tree_acyclic).
Defined.



(** One deletion after another. *)
Lemma delete_then_delete st f g :
  acyclic st ->
  exists keep,
    (forall fuel1 fuel2, length st < fuel1 -> length st < fuel2 ->
       match deleteItem fuel1 f true false st with
       | Some st1 => deleteItem fuel2 g true false st1
       | None => None
       end = Some (filter keep st))
    /\ forall n, In n st ->
         (keep n = true
          <-> ~ in_subtree st f (id n) /\ ~ in_subtree st g (id n)).
Proof.
  intros Hac.
  destruct (deleteRecursive_result f Hac) as (kf & Hrunf & Hkf).
  destruct (deleteRecursive_result g (acyclic_filter kf Hac))
    as (kg & Hrung & Hkg).
  exists (fun n => kf n && kg n). split.
  - intros fuel1 fuel2 H1 H2. unfold deleteItem. simpl negb. simpl andb. cbv iota.
    rewrite (Hrunf fuel1 H1). rewrite Hrung.
    + f_equal. apply filter_twice.
    + pose proof (filter_length_le kf st). lia.
  - intros n Hin. rewrite andb_true_iff, (Hkf n Hin). split.
    + intros [Hf Hg]. split; [exact Hf|].
      assert (Hin' : In n (filter kf st)).
      { apply filter_In. split; [exact Hin | apply (Hkf n Hin), Hf]. }
      apply (Hkg n Hin') in Hg. intros [Heq|Hpath]; apply Hg.
      * left. exact Heq.
      * right. apply (@path_outside st f kf Hkf (id n) g Hpath Hf).
    + intros [Hf Hg]. split; [exact Hf|].
      assert (Hin' : In n (filter kf st)).
      { apply filter_In. split; [exact Hin | apply (Hkf n Hin), Hf]. }
      apply (Hkg n Hin'). intros Hsub. apply Hg.
      apply in_subtree_incl with (st' := filter kf st); [|exact Hsub].
      intros m Hm. apply filter_In in Hm. apply Hm.
Qed.

(** X13. Two deletions commute: on an acyclic store, deleting [f] and
    then [g] returns the same store as deleting [g] and then [f], the
    objects of the store that lie neither in the subtree of [f] nor in
    that of [g], in their order. *)
Theorem deleteItem_commute (st : Store) (f g : string) (Hacyclic : acyclic st) :
  exists st',
    (forall fuel1 fuel2, length st < fuel1 -> length st < fuel2 ->
       match deleteItem fuel1 f true false st with
       | Some st1 => deleteItem fuel2 g true false st1
       | None => None
       end = Some st'
       /\ match deleteItem fuel1 g true false st with
          | Some st1 => deleteItem fuel2 f true false st1
          | None => None
          end = Some st')
    /\ (exists keep, st' = filter keep st)
    /\ (forall n, In n st' <->
                  In n st /\ ~ in_subtree st f (id n) /\ ~ in_subtree st g (id n)).
Proof.
  destruct (delete_then_delete f g Hacyclic) as (k1 & Hrun1 & Hk1).
  destruct (delete_then_delete g f Hacyclic) as (k2 & Hrun2 & Hk2).
  exists (filter k1 st). split; [|split].
  - intros fuel1 fuel2 H1 H2. split; [apply Hrun1; assumption|].
    rewrite (Hrun2 fuel1 fuel2 H1 H2). f_equal. apply filter_ext_in.
    intros n Hn.
    apply bool_iff_eq
      with (P := ~ in_subtree st f (id n) /\ ~ in_subtree st g (id n)).
    + rewrite (Hk2 n Hn). tauto.
    + apply Hk1, Hn.
  - exists k1. reflexivity.
  - intros n. rewrite filter_In. split.
    + intros [Hin Hk]. split; [exact Hin | apply (Hk1 n Hin), Hk].
    + intros [Hin Hk]. split; [exact Hin | apply (Hk1 n Hin), Hk].
Qed.

Lemma deleteItem_commute_witness :
  exists st',
    (forall fuel1 fuel2, length sample_tree < fuel1 -> length sample_tree < fuel2 ->
       match deleteItem fuel1 "abc" true false sample_tree with
       | Some st1 => deleteItem fuel2 "ab" true false st1
       | None => None
       end = Some st'
       /\ match deleteItem fuel1 "ab" true false sample_tree with
          | Some st1 => deleteItem fuel2 "abc" true false st1
          | None => None
          end = Some st')
    /\ (exists keep, st' = filter keep sample_tree)
    /\ (forall n, In n st' <->
                  In n sample_tree /\ ~ in_subtree sample_tree "abc" (id n)
                  /\ ~ in_subtree sample_tree "ab" (id n)).
Proof.
  apply (@deleteItem_commute sample_tree "abc" "ab" sample_tree_acyclic).
Defined.

(** ** Moves that keep the store a forest *)

Lemma parent_edge_pairs st c p :
  parent_edge st c p <-> In (c, p) (map id_parent st).
Proof.
  rewrite in_map_iff. unfold parent_edge, id_parent. split.
  - intros (n & Hin & <- & <-). exists n. auto.
  - intros (n & [= <- <-] & Hin). exists n. auto.
Qed.

Lemma parent_path_pairs st st' :
  map id_parent st' = map id_parent st ->
  forall x y, clos_trans string (parent_edge st') x y ->
              clos_trans string (parent_edge st) x y.
Proof.
  intros Hmap x y Hxy. induction Hxy as [x y He | x y z _ IH1 _ IH2].
  - apply t_step. apply parent_edge_pairs. rewrite <- Hmap.
    apply parent_edge_pairs, He.
  - eapply t_trans; eassumption.
Qed.

Lemma acyclic_pairs st st' :
  map id_parent st' = map id_parent st -> acyclic st -> acyclic st'.
Proof.
  intros Hmap Hac i Hi. apply (Hac i). eapply parent_path_pairs; eassumption.
Qed.

Lemma update_at_map_at (A B : Type) (f : A -> A) (g : A -> B) l : forall k x,
  nth_error l k = Some x -> g (f x) = g x ->
  map g (update_at k f l) = map g l.
Proof.
  induction l as [|y l IH]; intros [|k] x Hx Hg; simpl in *; try reflexivity.
  - injection Hx as ->. rewrite Hg. reflexivity.
  - f_equal. eapply IH; eassumption.
Qed.

Lemma update_at_beyond (A : Type) (f : A -> A) l : forall k,
  nth_error l k = None -> update_at k f l = l.
Proof.
  induction l as [|y l IH]; intros [|k] Hk; simpl in *; try reflexivity.
  - discriminate Hk.
  - f_equal. apply IH, Hk.
Qed.

Lemma assign_orders_pairs rs : forall j st,
  map id_parent (assign_orders rs j st) = map id_parent st.
Proof.
  induction rs as [|r rs IH]; intros j st; simpl; [reflexivity|].
  rewrite IH. apply update_at_map. intros x. reflexivity.
Qed.

(** A reorder of an object that already lies in the parent leaves the
    parent graph as it is. *)
Lemma reorderBookmark_pairs st k d (target : Ref) p :
  nth_error st k = Some d -> parent d = p ->
  map id_parent (reorderBookmark st (k, d) target p) = map id_parent st.
Proof.
  intros Hk Hp. unfold reorderBookmark. cbv zeta.
  destruct (findIndex _ _) as [targetIndex|]; [|reflexivity].
  set (st1 := assign_orders _ 0 st).
  assert (Hst1 : map id_parent st1 = map id_parent st)
    by apply assign_orders_pairs.
  simpl fst.
  destruct (nth_error st1 k) as [x|] eqn:Hx.
  - rewrite (@update_at_map_at _ _ (set_parent p) id_parent st1 k x Hx);
      [exact Hst1|].
    assert (Hpair : nth_error (map id_parent st1) k = Some (id_parent x))
      by (apply map_nth_error, Hx).
    rewrite Hst1, (map_nth_error id_parent k st Hk) in Hpair.
    unfold id_parent in Hpair. injection Hpair as Hid Hpar.
    unfold id_parent. simpl. rewrite <- Hpar, Hp. reflexivity.
  - rewrite (update_at_beyond _ _ _ Hx). exact Hst1.
Qed.

Lemma find_by_id_unique st n :
  NoDup (map id st) -> In n st -> find_by_id st (id n) = Some n.
Proof.
  unfold find_by_id.
  induction st as [|x st IH]; intros Hnd Hin; [destruct Hin|].
  simpl in Hnd. inversion Hnd as [|? ? Hnotin Hnd']; subst.
  simpl. destruct Hin as [->|Hin].
  - rewrite String.eqb_refl. reflexivity.
  - destruct (String.eqb_spec (id x) (id n)) as [Heq|Hne].
    + exfalso. apply Hnotin. rewrite Heq. apply in_map, Hin.
    + apply IH; assumption.
Qed.

Lemma path_source st x y :
  clos_trans string (parent_edge st) x y -> exists n, In n st /\ id n = x.
Proof.
  intros H. apply clos_trans_t1n in H.
  destruct H as [y (n & Hin & Hid & _) | y z (n & Hin & Hid & _) _];
    exists n; auto.
Qed.

(** With unique, non-empty ids the walk of [isDescendant] follows every
    path of the parent graph that ends at a non-empty id. *)
Lemma path_steps st :
  NoDup (map id st) -> (forall n, In n st -> id n <> "") ->
  forall x y, clos_trans string (parent_edge st) x y -> y <> "" ->
              clos_trans string (parent_step st) x y.
Proof.
  intros Hnd Hids x y Hxy. apply clos_trans_t1n in Hxy.
  assert (Hstep : forall c p, parent_edge st c p -> p <> "" -> parent_step st c p).
  { intros c p (n & Hin & Hid & Hp) Hne. exists n. repeat split; auto.
    rewrite <- Hid. apply find_by_id_unique; assumption. }
  induction Hxy as [x y He | x z y He Hrest IH]; intros Hy.
  - apply t_step, Hstep; assumption.
  - apply t_trans with (y := z).
    + apply t_step, Hstep; [exact He|].
      destruct (@path_source st z y (clos_t1n_trans _ _ _ _ Hrest))
        as (n & Hin & <-).
      apply Hids, Hin.
    + apply IH, Hy.
Qed.

Lemma rt_cases (A : Type) (R : relation A) x y :
  clos_refl_trans A R x y -> x = y \/ clos_trans A R x y.
Proof.
  intros H. apply clos_rt_rtn1 in H.
  destruct H as [|y z He Hrest]; [left; reflexivity | right].
  apply clos_rtn1_rt in Hrest.
  apply clos_rt_t with (y := y); [exact Hrest | apply t_step, He].
Qed.

Section Reparent.

(** The store, the object moved and the change made to it, which gives
    it the parent [T]. *)
Variable st : Store.
Variable k : nat.
Variable d : Node.
Variable T : string.
Variable f : Node -> Node.

Hypothesis unique_ids : NoDup (map id st).
Hypothesis at_k : nth_error st k = Some d.
Hypothesis f_id : forall n, id (f n) = id n.
Hypothesis f_parent : parent (f d) = T.

Lemma reparent_edge c p :
  parent_edge (update_at k f st) c p ->
  parent_edge st c p \/ (c = id d /\ p = T).
Proof.
  intros (n & Hin & Hid & Hp).
  apply In_nth_error in Hin. destruct Hin as [j Hj].
  rewrite update_at_nth in Hj.
  destruct (Nat.eqb_spec j k) as [Heq|Hne].
  - rewrite Heq, at_k in Hj. simpl in Hj. injection Hj as <-.
    right. rewrite <- Hid, <- Hp. auto.
  - left. exists n. split; [eapply nth_error_In; eassumption | auto].
Qed.

Lemma reparent_path x y :
  clos_trans string (parent_edge (update_at k f st)) x y ->
  clos_trans string (parent_edge st) x y
  \/ (clos_refl_trans string (parent_edge st) x (id d)
      /\ clos_refl_trans string (parent_edge st) T y).
Proof.
  intros Hxy. induction Hxy as [x y He | x y z _ IH1 _ IH2].
  - destruct (reparent_edge He) as [Hold|[-> ->]].
    + left. apply t_step, Hold.
    + right. split; apply rt_refl.
  - destruct IH1 as [H1|[H1 H1']], IH2 as [H2|[H2 H2']].
    + left. eapply t_trans; eassumption.
    + right. split; [|exact H2'].
      eapply rt_trans; [apply clos_t_clos_rt, H1 | exact H2].
    + right. split; [exact H1|].
      eapply rt_trans; [exact H1' | apply clos_t_clos_rt, H2].
    + right. split; assumption.
Qed.

(** Giving an object a parent that does not lie below it keeps the
    store acyclic. *)
Lemma reparent_acyclic :
  (forall n, In n st -> id n <> "") ->
  acyclic st ->
  T <> id d ->
  ~ clos_trans string (parent_step st) T (id d) ->
  acyclic (update_at k f st).
Proof.
  intros Hids Hac Hne Hnot i Hi.
  destruct (reparent_path Hi) as [Hold|[Hdown Hup]].
  - exact (Hac i Hold).
  - assert (Hpath : clos_refl_trans string (parent_edge st) T (id d))
      by (eapply rt_trans; eassumption).
    destruct (rt_cases Hpath) as [Heq|Hpath']; [exact (Hne Heq)|].
    apply Hnot. apply path_steps; try assumption.
    apply Hids. eapply nth_error_In, at_k.
Qed.

End Reparent.

Lemma isDescendant_returns st fuel itemId ancestorId :
  acyclic st -> length st < fuel ->
  isDescendant fuel st itemId ancestorId <> None.
Proof.
  intros Hac Hfuel. apply (@isDescendant_fuel st Hac fuel []).
  - constructor.
  - intros v [].
  - intros v [].
  - simpl. lia.
Qed.

Lemma str_or_empty_eq a b : str_or a "" = b -> a = b.
Proof.
  unfold str_or, truthy. destruct (String.eqb_spec a ""); simpl; congruence.
Qed.

(** X14. A drop on a folder in a navigation pane keeps the store a
    forest: when the ids of the store are unique and not empty and the
    store is acyclic, the drop returns, and the store it leaves is
    acyclic, whether the drop was refused, reordered the folder's list
    or moved the dragged item into the folder. *)
Theorem onDrop_on_folder_acyclic (st : Store) (levelParentId : string)
        (item : Ref) (draggedId : string)
        (Hunique : NoDup (map id st))
        (Hids : forall n, In n st -> id n <> "")
        (Hacyclic : acyclic st)
        (Hfolder : is_folder item = true) :
  (forall fuel, length st < fuel ->
     onDrop fuel st (setupDropZone levelParentId (Some item)) draggedId <> None)
  /\ (forall fuel outcome st',
        onDrop fuel st (setupDropZone levelParentId (Some item)) draggedId
        = Some (outcome, st') ->
        acyclic st').
Proof.
  unfold onDrop, setupDropZone. cbn [dz_item dz_parentId].
  cbv beta iota zeta. rewrite Hfolder.
  destruct (find (fun b : Ref => id (snd b) =? draggedId) (indexed st))
    as [[k d]|] eqn:Hfind.
  2:{ split; [intros fuel _; discriminate|].
      intros fuel outcome st' [= _ <-]. exact Hacyclic. }
  apply find_indexed with (f := fun n => id n =? draggedId) in Hfind.
  destruct Hfind as [Hk _]. simpl fst. simpl snd.
  destruct (String.eqb_spec (id (snd item)) (id d)) as [Hself|Hself].
  { split; [intros fuel _; discriminate|].
    intros fuel outcome st' [= _ <-]. exact Hacyclic. }
  split.
  - intros fuel Hfuel.
    pose proof (@isDescendant_returns st fuel (id (snd item)) (id d)
                  Hacyclic Hfuel) as Hret.
    destruct (isDescendant fuel st (id (snd item)) (id d)) as [[|]|];
      [discriminate| |contradiction].
    destruct (str_or (parent d) "" =? id (snd item)); discriminate.
  - intros fuel outcome st'.
    destruct (isDescendant fuel st (id (snd item)) (id d)) as [[|]|] eqn:Hdesc;
      [intros [= _ <-]; exact Hacyclic | | discriminate].
    destruct (String.eqb_spec (str_or (parent d) "") (id (snd item)))
      as [Hsame|Hother]; intros [= _ <-].
    + apply acyclic_pairs with (st := st); [|exact Hacyclic].
      apply reorderBookmark_pairs; [exact Hk|].
      apply str_or_empty_eq, Hsame.
    + apply (@reparent_acyclic st k d (id (snd item))
               (fun n => set_order None (set_parent (id (snd item)) n))
               Hunique Hk); try assumption; try reflexivity.
      eapply isDescendant_false; eassumption.
Qed.

(** X15. A drop in the management tree on a folder keeps the store a
    forest as well, under the same conditions; it returns, and any move
    it makes only sets the [parent] of the dragged object. *)
Theorem onTreeDrop_on_folder_acyclic (st : Store) (item : Ref)
        (draggedId : string)
        (Hunique : NoDup (map id st))
        (Hids : forall n, In n st -> id n <> "")
        (Hacyclic : acyclic st)
        (Hfolder : is_folder item = true) :
  (forall fuel, length st < fuel -> onTreeDrop fuel st item draggedId <> None)
  /\ (forall fuel outcome st',
        onTreeDrop fuel st item draggedId = Some (outcome, st') ->
        acyclic st' /\ map (set_parent "") st' = map (set_parent "") st).
Proof.
  unfold onTreeDrop. cbv zeta. rewrite Hfolder.
  destruct (find (fun b : Ref => id (snd b) =? draggedId) (indexed st))
    as [[k d]|] eqn:Hfind.
  2:{ split; [intros fuel _; discriminate|].
      intros fuel outcome st' [= _ <-]. auto. }
  apply find_indexed with (f := fun n => id n =? draggedId) in Hfind.
  destruct Hfind as [Hk _]. simpl fst. simpl snd.
  destruct (String.eqb_spec (id (snd item)) (id d)) as [Hself|Hself].
  { split; [intros fuel _; discriminate|].
    intros fuel outcome st' [= _ <-]. auto. }
  split.
  - intros fuel Hfuel.
    pose proof (@isDescendant_returns st fuel (id (snd item)) (id d)
                  Hacyclic Hfuel) as Hret.
    destruct (isDescendant fuel st (id (snd item)) (id d)) as [[|]|];
      [discriminate|discriminate|contradiction].
  - intros fuel outcome st'.
    destruct (isDescendant fuel st (id (snd item)) (id d)) as [[|]|] eqn:Hdesc;
      [intros [= _ <-]; auto | | discriminate].
    intros [= _ <-]. split.
    + apply (@reparent_acyclic st k d (id (snd item))
               (set_parent (id (snd item))) Hunique Hk);
        try assumption; try reflexivity.
      eapply isDescendant_false; eassumption.
    + apply update_at_map. intros x. reflexivity.
Qed.

(** X16. No drop adds or removes an object or touches anything but
    [parent] and [order]: after [onDrop] on any zone and after
    [onTreeDrop] the store holds the same objects in the same places
    with the same id, name, type, url and access time. *)
Theorem drops_keep_content (fuel : nat) (st : Store) (dz : DropZone)
        (item : Ref) (draggedId : string) :
  (forall outcome st', onDrop fuel st dz draggedId = Some (outcome, st') ->
                       map content st' = map content st)
  /\ (forall outcome st', onTreeDrop fuel st item draggedId = Some (outcome, st') ->
                          map content st' = map content st).
Proof.
  assert (Hmoved : forall k (g : Node -> Node),
             (forall x, content (g x) = content x) ->
             map content (update_at k g st) = map content st).
  { intros k g Hg. apply update_at_map, Hg. }
  assert (Hnumbered : forall rs j s, map content (assign_orders rs j s) = map content s).
  { induction rs as [|r rs IH]; intros j s; simpl; [reflexivity|].
    rewrite IH. apply update_at_map. intros x. reflexivity. }
  assert (Hreorder : forall a b p,
             map content (reorderBookmark st a b p) = map content st).
  { intros a b p. unfold reorderBookmark. cbv zeta.
    destruct (findIndex _ _); [|reflexivity].
    rewrite update_at_map by (intros x; reflexivity). apply Hnumbered. }
  split; intros outcome st'.
  - unfold onDrop. cbv zeta.
    destruct (find _ (indexed st)) as [[k d]|]; [|intros [= _ <-]; reflexivity].
    destruct (dz_item dz) as [it|].
    + destruct (id (snd it) =? id (snd (k, d))); [intros [= _ <-]; reflexivity|].
      destruct (if is_folder it then _ else _) as [[|]|];
        [intros [= _ <-]; reflexivity | | discriminate].
      destruct (_ =? _); intros [= _ <-];
        [apply Hreorder | apply Hmoved; intros x; reflexivity].
    + intros [= _ <-]. apply Hmoved. intros x. reflexivity.
  - unfold onTreeDrop. cbv zeta.
    destruct (find _ (indexed st)) as [[k d]|]; [|intros [= _ <-]; reflexivity].
    destruct (id (snd item) =? id (snd (k, d))); [intros [= _ <-]; reflexivity|].
    destruct (if is_folder item then _ else _) as [[|]|];
      [intros [= _ <-]; reflexivity | | discriminate].
    intros [= _ <-]. apply Hmoved. intros x. reflexivity.
Qed.

Lemma sample_tree_ids : forall n, In n sample_tree -> id n <> "".
Proof.
  intros n [<-|[<-|[<-|[]]]]; discriminate.
Qed.

Lemma onDrop_on_folder_acyclic_witness :
  (forall fuel, length sample_tree < fuel ->
     onDrop fuel sample_tree
            (setupDropZone "" (Some (0, mkNode "a" "Work" folder "" None None (Some 0%Z))))
            "abc" <> None)
  /\ (forall fuel outcome st',
        onDrop fuel sample_tree
               (setupDropZone "" (Some (0, mkNode "a" "Work" folder "" None None (Some 0%Z))))
               "abc"
        = Some (outcome, st') ->
        acyclic st').
Proof.
  apply (@onDrop_on_folder_acyclic sample_tree ""
           (0, mkNode "a" "Work" folder "" None None (Some 0%Z)) "abc"
           sample_tree_unique sample_tree_ids sample_tree_acyclic eq_refl).
Defined.

Lemma onTreeDrop_on_folder_acyclic_witness :
  (forall fuel, length sample_tree < fuel ->
     onTreeDrop fuel sample_tree
                (0, mkNode "a" "Work" folder "" None None (Some 0%Z)) "abc"
     <> None)
  /\ (forall fuel outcome st',
        onTreeDrop fuel sample_tree
                   (0, mkNode "a" "Work" folder "" None None (Some 0%Z)) "abc"
        = Some (outcome, st') ->
        acyclic st' /\ map (set_parent "") st' = map (set_parent "") sample_tree).
Proof.
  apply (@onTreeDrop_on_folder_acyclic sample_tree
           (0, mkNode "a" "Work" folder "" None None (Some 0%Z)) "abc"
           sample_tree_unique sample_tree_ids sample_tree_acyclic eq_refl).
Defined.

(** ** Where a reorder puts the dragged item *)

Section Numbering.

(** The store, a parent, and the children of the parent arranged in
    some sequence [arr]. *)
Variable st : Store.
Variable P : string.
Variable arr : list Ref.

Hypothesis arr_NoDup : NoDup (map fst arr).
Hypothesis arr_children :
  forall k n, In (k, n) arr <-> nth_error st k = Some n /\ parent n = P.

Lemma arr_in_store k n : In (k, n) arr -> nth_error st k = Some n.
Proof.
  intros H. apply arr_children in H. apply H.
Qed.

Lemma numbered_nth k n' :
  nth_error (assign_orders (map fst arr) 0 st) k = Some n' ->
  (exists p n, nth_error arr p = Some (k, n)
               /\ n' = set_order (Some (Z.of_nat p)) n)
  \/ (~ In k (map fst arr) /\ nth_error st k = Some n').
Proof.
  destruct (@assign_orders_spec arr 0 st arr_NoDup arr_in_store) as [Hout Hin].
  intros Hn'.
  destruct (in_dec Nat.eq_dec k (map fst arr)) as [Hk|Hk].
  - left. apply in_map_iff in Hk. destruct Hk as ([k0 n] & Hfst & Hk).
    simpl in Hfst. subst k0.
    apply In_nth_error in Hk. destruct Hk as (p & Hnth).
    exists p, n. split; [exact Hnth|].
    rewrite (Hin p k n Hnth) in Hn'. injection Hn' as <-. reflexivity.
  - right. split; [exact Hk|]. rewrite (Hout k Hk) in Hn'. exact Hn'.
Qed.

(** After the children of [P] have been numbered in the sequence
    [arr], the listing of [P] is [arr]. *)
Lemma children_numbered :
  getItemsByParent_refs (assign_orders (map fst arr) 0 st) P = renumber arr 0.
Proof.
  destruct (@assign_orders_spec arr 0 st arr_NoDup arr_in_store) as [Hout Hin].
  apply children_characterised.
  - rewrite renumber_fst. exact arr_NoDup.
  - apply renumber_sorted.
  - intros k n'. rewrite renumber_In. simpl. split.
    + intros (p & k0 & n & Hnth & Heq). injection Heq as -> ->.
      split; [apply (Hin p k0 n Hnth)|].
      apply nth_error_In, arr_children in Hnth. simpl. apply Hnth.
    + intros [Hn' Hp]. destruct (@numbered_nth k n' Hn') as [(p & n & Hnth & ->)|[Hk Hold]].
      * exists p, k, n. auto.
      * exfalso. apply Hk.
        apply (in_map fst arr (k, n')). apply arr_children. auto.
Qed.

(** The listing of any other parent is as it was. *)
Lemma others_numbered q :
  q <> P ->
  getItemsByParent_refs (assign_orders (map fst arr) 0 st) q
  = getItemsByParent_refs st q.
Proof.
  intros Hq.
  destruct (@assign_orders_spec arr 0 st arr_NoDup arr_in_store) as [Hout Hin].
  apply children_characterised.
  - apply siblings_NoDup.
  - apply children_sorted.
  - intros k n'. rewrite siblings_In. split.
    + intros [Hn' Hp]. split; [|exact Hp].
      rewrite Hout; [exact Hn'|].
      intros Hk. apply in_map_iff in Hk. destruct Hk as ([k0 n] & Hfst & Hk).
      simpl in Hfst. subst k0. apply arr_children in Hk.
      destruct Hk as [Hn HP]. rewrite Hn in Hn'. injection Hn' as <-.
      apply Hq. rewrite <- Hp, HP. reflexivity.
    + intros [Hn' Hp]. split; [|exact Hp].
      destruct (@numbered_nth k n' Hn') as [(p & n & Hnth & ->)|[Hk Hold]];
        [|exact Hold].
      exfalso. apply nth_error_In, arr_children in Hnth.
      simpl in Hp. apply Hq. rewrite <- Hp. apply Hnth.
Qed.

End Numbering.

(** X17. In a store with unique ids, let [d] and [t] be two children of
    [P]. Then [reorderBookmark(d, t, P)] lists [d] immediately before
    [t] and the other children of [P] in the sequence they had, writes
    the positions [0..n-1] into the [order] of the children, changes no
    other field of any object, and leaves the listing of every other
    parent as it was. *)
Theorem reorderBookmark_places (st : Store) (P : string) (d t : Ref)
        (Hunique : NoDup (map id st))
        (Hd : In d (getItemsByParent_refs st P))
        (Ht : In t (getItemsByParent_refs st P))
        (Hne : id (snd t) <> id (snd d)) :
  exists pre post,
    filter (fun s : Ref => negb (id (snd s) =? id (snd d)))
           (getItemsByParent_refs st P) = pre ++ t :: post
    /\ getItemsByParent_refs (reorderBookmark st d t P) P
       = renumber (pre ++ d :: t :: post) 0
    /\ map id (getItemsByParent (reorderBookmark st d t P) P)
       = map id (map snd (pre ++ d :: t :: post))
    /\ map (set_order None) (reorderBookmark st d t P) = map (set_order None) st
    /\ (forall q, q <> P ->
          getItemsByParent_refs (reorderBookmark st d t P) q
          = getItemsByParent_refs st q).
Proof.
  set (sib := getItemsByParent_refs st P) in *.
  set (rest := filter (fun s : Ref => negb (id (snd s) =? id (snd d))) sib).
  assert (Htin : In t rest).
  { apply filter_In. split; [exact Ht|].
    apply negb_true_iff, String.eqb_neq, Hne. }
  destruct (in_split t rest Htin) as (pre & post & Hrest).
  exists pre, post. split; [exact Hrest|].
  pose proof (@siblings_unique_ids st P Hunique) as Hids. fold sib in Hids.
  assert (Hrest_ids : NoDup (map (fun e : Ref => id (snd e)) (pre ++ t :: post))).
  { rewrite <- Hrest. apply NoDup_map_filter, Hids. }
  assert (Hpre : forall y, In y pre -> id (snd y) <> id (snd t)).
  { intros y Hy.
    apply (@NoDup_map_apart Ref string (fun e : Ref => id (snd e)) pre t post Hrest_ids).
    apply in_or_app. left. exact Hy. }
  assert (Hsame_id : forall x, In x sib -> id (snd x) = id (snd d) -> x = d).
  { intros x Hx Heq.
    assert (Hinj : forall (l : list Ref) a b,
               NoDup (map (fun e : Ref => id (snd e)) l) ->
               In a l -> In b l -> id (snd a) = id (snd b) -> a = b).
    { induction l as [|y l IH]; simpl; intros a b Hnd Ha Hb Hab; [contradiction|].
      inversion Hnd as [|y' l' Hnin Hnd']; subst.
      destruct Ha as [<-|Ha], Hb as [<-|Hb].
      - reflexivity.
      - exfalso. apply Hnin. rewrite Hab.
        apply (in_map (fun e : Ref => id (snd e)) l b Hb).
      - exfalso. apply Hnin. rewrite <- Hab.
        apply (in_map (fun e : Ref => id (snd e)) l a Ha).
      - apply IH; assumption. }
    apply (Hinj sib x d Hids Hx Hd Heq). }
  set (arr := pre ++ d :: t :: post).
  assert (Harr_in : forall x, In x arr <-> In x sib).
  { intros x. unfold arr.
    assert (Hmid : In x (pre ++ d :: t :: post) <-> x = d \/ In x (pre ++ t :: post)).
    { rewrite !in_app_iff. simpl. split.
      - intros [H|[H|H]]; [right; left; exact H | left; symmetry; exact H
                          | right; right; exact H].
      - intros [H|[H|H]]; [right; left; symmetry; exact H | left; exact H
                          | right; right; exact H]. }
    rewrite Hmid, <- Hrest. unfold rest. rewrite filter_In. split.
    - intros [->|[H _]]; assumption.
    - intros Hx. destruct (String.eqb_spec (id (snd x)) (id (snd d))) as [Heq|Hneq].
      + left. apply Hsame_id; assumption.
      + right. split; [exact Hx | reflexivity]. }
  assert (Harr_nd : NoDup (map fst arr)).
  { apply (Permutation_NoDup (l := map fst (d :: pre ++ t :: post))).
    - apply Permutation_map. unfold arr. apply Permutation_middle.
    - simpl. constructor.
      + intros Hin. apply in_map_iff in Hin. destruct Hin as (x & Hfst & Hx).
        rewrite <- Hrest in Hx. apply filter_In in Hx. destruct Hx as [Hx Hb].
        apply negb_true_iff, String.eqb_neq in Hb. apply Hb.
        rewrite (@NoDup_fst_inj sib x d (@siblings_NoDup st P) Hx Hd Hfst).
        reflexivity.
      + rewrite <- Hrest. apply NoDup_map_filter, siblings_NoDup. }
  assert (Harr_children :
            forall k n, In (k, n) arr <-> nth_error st k = Some n /\ parent n = P).
  { intros k n. rewrite Harr_in. apply siblings_In. }
  assert (Hrun : reorderBookmark st d t P = assign_orders (map fst arr) 0 st).
  { unfold reorderBookmark. cbv zeta. fold sib. fold rest. rewrite Hrest.
    rewrite (@findIndex_at Ref (fun s => id (snd s) =? id (snd t)) pre t post).
    - rewrite splice_insert_at. fold arr.
      destruct d as [kd nd].
      assert (Hdarr : In (kd, nd) arr) by (apply Harr_in, Hd).
      destruct (@assign_orders_spec arr 0 st Harr_nd) as [_ Hin].
      { intros k n Hkn. apply Harr_children in Hkn. apply Hkn. }
      pose proof Hdarr as Hpos. apply In_nth_error in Hpos.
      destruct Hpos as (p & Hp). simpl fst.
      eapply update_at_same; [apply (Hin p kd nd Hp)|].
      apply set_parent_same. simpl.
      apply Harr_children in Hdarr. apply Hdarr.
    - intros y Hy. apply String.eqb_neq, Hpre, Hy.
    - apply String.eqb_refl. }
  assert (Hrefs : getItemsByParent_refs (reorderBookmark st d t P) P
                  = renumber arr 0).
  { rewrite Hrun. apply (@children_numbered st P arr Harr_nd Harr_children). }
  split; [exact Hrefs|]. split; [|split].
  - unfold getItemsByParent. rewrite Hrefs. apply renumber_ids.
  - rewrite Hrun. apply assign_orders_erase.
  - intros q Hq. rewrite Hrun.
    apply (@others_numbered st P arr Harr_nd Harr_children q Hq).
Qed.

Lemma reorderBookmark_places_witness :
  exists pre post,
    filter (fun s : Ref => negb (id (snd s) =? "s3"))
           (getItemsByParent_refs sample_siblings "")
    = pre ++ (0, mkNode "s1" "One" bookmark "" (Some "https://one.test")
                        (Some 0%Z) (Some 5%Z)) :: post
    /\ map id (getItemsByParent
                 (reorderBookmark sample_siblings
                    (2, mkNode "s3" "Three" bookmark "" (Some "https://three.test")
                               (Some 0%Z) None)
                    (0, mkNode "s1" "One" bookmark "" (Some "https://one.test")
                               (Some 0%Z) (Some 5%Z)) "") "")
       = map id (map snd (pre ++ (2, mkNode "s3" "Three" bookmark ""
                                           (Some "https://three.test")
                                           (Some 0%Z) None)
                              :: (0, mkNode "s1" "One" bookmark ""
                                            (Some "https://one.test")
                                            (Some 0%Z) (Some 5%Z)) :: post)).
Proof.
  destruct (@reorderBookmark_places sample_siblings ""
              (2, mkNode "s3" "Three" bookmark "" (Some "https://three.test")
                         (Some 0%Z) None)
              (0, mkNode "s1" "One" bookmark "" (Some "https://one.test")
                         (Some 0%Z) (Some 5%Z))
              sample_siblings_unique)
    as (pre & post & Hrest & _ & Hids & _).
  - vm_compute. tauto.
  - vm_compute. tauto.
  - discriminate.
  - exists pre, post. split; [exact Hrest | exact Hids].
Defined.

(** ** Adding and editing through the dialog *)


Lemma update_at_Forall (A : Type) (Q : A -> Prop) (f : A -> A) l :
  (forall x, Q x -> Q (f x)) -> forall k, Forall Q l -> Forall Q (update_at k f l).
Proof.
  intros Hf. induction l as [|x l IH]; intros [|k] Hl; simpl; try exact Hl;
    inversion Hl as [|y l' Hx Hrest]; subst; constructor; auto.
Qed.

Section SaveItemSpec.

Variable toUpperCase : string -> string.
Variable hostname : string -> option string.


(** X19. The dialog keeps the store well formed: if every object has a
    name and every link an address, the same holds after
    [saveBookmarkItem], whatever the form holds and whichever object is
    being edited; and when the dialog asks for a URL or a name, the
    store is left as it was. *)
Theorem saveBookmarkItem_well_formed (pageTitle : option string) (newId : string)
        (st : Store) (editingItem : option Ref)
        (nameValue urlValue parentValue : string) (isFolder : bool)
        (Hwf : Forall well_formed st) :
  Forall well_formed
         (snd (saveBookmarkItem toUpperCase hostname pageTitle newId st editingItem
                                nameValue urlValue parentValue isFolder))
  /\ (fst (saveBookmarkItem toUpperCase hostname pageTitle newId st editingItem
                            nameValue urlValue parentValue isFolder)
      = SaveNeedsUrl
      \/ fst (saveBookmarkItem toUpperCase hostname pageTitle newId st editingItem
                               nameValue urlValue parentValue isFolder)
         = SaveNeedsName ->
      snd (saveBookmarkItem toUpperCase hostname pageTitle newId st editingItem
                            nameValue urlValue parentValue isFolder) = st).
Proof.
  unfold saveBookmarkItem. cbv zeta.
  destruct (negb isFolder && negb (truthy (trim urlValue))) eqn:Hurl;
    [split; [exact Hwf | reflexivity]|].
  destruct (truthy (resolved_name toUpperCase hostname pageTitle nameValue
                                  (trim urlValue) isFolder)) eqn:Hname;
    simpl negb; cbv iota; [|split; [exact Hwf | reflexivity]].
  apply truthy_true_iff in Hname.
  assert (Haddress : isFolder = false -> trim urlValue <> "").
  { intros ->. simpl in Hurl. apply negb_false_iff in Hurl.
    apply truthy_true_iff, Hurl. }
  destruct editingItem as [item|]; simpl fst; simpl snd.
  - split; [|intros [H|H]; discriminate H].
    apply update_at_Forall; [|exact Hwf].
    intros x [_ Hx]. destruct isFolder; (split; [exact Hname|]); simpl.
    + exact Hx.
    + intros _. exists (trim urlValue). split; [reflexivity | auto].
  - split; [|intros [H|H]; discriminate H].
    apply Forall_app. split; [exact Hwf|]. constructor; [|constructor].
    split; [exact Hname|]. simpl.
    destruct isFolder; [discriminate|].
    intros _. exists (trim urlValue). split; [reflexivity | auto].
Qed.

End SaveItemSpec.


Lemma sample_tree_well_formed : Forall well_formed sample_tree.
Proof.
  repeat constructor; try discriminate.
  intros _. exists "https://mail.test". split; [reflexivity | discriminate].
Qed.

Lemma saveBookmarkItem_well_formed_witness :
  Forall well_formed
         (snd (saveBookmarkItem (fun s => s) (fun _ => None) None "n1" sample_tree
                                (Some sample_link) "Inbox" " https://in.test " "a"
                                false)).
Proof.
  apply (@saveBookmarkItem_well_formed (fun s => s) (fun _ => None) None "n1"
           sample_tree (Some sample_link) "Inbox" " https://in.test " "a" false
           sample_tree_well_formed).
Defined.

(** ** What the markup import returns *)

Lemma for_each_invariant (A : Type) (Inv : ParserState -> Prop)
      (body : A -> Parser unit) (l : list A) :
  (forall x s u s', In x l -> Inv s -> body x s = Normal (u, s') -> Inv s') ->
  forall s u s', Inv s -> for_each l body s = Normal (u, s') -> Inv s'.
Proof.
  induction l as [|x l IH]; intros Hbody s u s' Hs Hrun; simpl in Hrun.
  - injection Hrun as _ <-. exact Hs.
  - unfold bind in Hrun.
    destruct (body x s) as [[u1 s1]| |] eqn:Hx; try discriminate Hrun.
    apply (IH (fun y t v t' Hy => Hbody y t v t' (or_intror Hy)) s1 u s');
      [|exact Hrun].
    apply (Hbody x s u1 s1 (or_introl eq_refl) Hs Hx).
Qed.

Section MarkupResult.

Variable parseFromString : string -> DomNode.
Variable stamp : nat -> string.

Lemma processDL_folders fuel : forall dlElement parentId s u s',
  Forall plain_folder (result s) ->
  processDL stamp fuel dlElement parentId s = Normal (u, s') ->
  Forall plain_folder (result s').
Proof.
  induction fuel as [|fuel IH]; intros dlElement parentId s u s' Hs Hrun;
    [discriminate Hrun|].
  simpl in Hrun. destruct dlElement as [dl|].
  2:{ injection Hrun as _ <-. exact Hs. }
  revert s u s' Hs Hrun.
  apply for_each_invariant with (Inv := fun t => Forall plain_folder (result t)).
  intros node s u s' _ Hs Hrun.
  destruct (negb (isElement node)); [injection Hrun as _ <-; exact Hs|].
  destruct (negb (tagName node =? "DT")); [injection Hrun as _ <-; exact Hs|].
  destruct (firstElementChild node) as [firstChild|];
    [|injection Hrun as _ <-; exact Hs].
  destruct (tagName firstChild =? "H3").
  - cbv zeta in Hrun.
    destruct (truthy (trim (textContent firstChild))) eqn:Hname;
      [|injection Hrun as _ <-; exact Hs].
    apply truthy_true_iff in Hname.
    unfold bind, generateId, push in Hrun. simpl in Hrun.
    match type of Hrun with
    | match ?nested with _ => _ end _ = _ =>
        destruct nested as [d|]
    end.
    + apply IH in Hrun; [exact Hrun|]. simpl.
      apply Forall_app. split; [exact Hs|].
      constructor; [|constructor]. repeat split. exact Hname.
    + injection Hrun as _ <-. simpl.
      apply Forall_app. split; [exact Hs|].
      constructor; [|constructor]. repeat split. exact Hname.
  - destruct (tagName firstChild =? "A");
      [|injection Hrun as _ <-; exact Hs].
    cbv zeta in Hrun.
    destruct (getAttribute firstChild "HREF") as [u0|];
      [|injection Hrun as _ <-; exact Hs].
    destruct (truthy u0 && truthy (trim (textContent firstChild)));
      [discriminate Hrun | injection Hrun as _ <-; exact Hs].
Qed.

Lemma parseChromeBookmarks_folders fuel htmlText imported :
  parseChromeBookmarks parseFromString stamp fuel htmlText = Normal imported ->
  Forall plain_folder imported.
Proof.
  intros Hreturns.
  unfold parseChromeBookmarks in Hreturns. cbv zeta in Hreturns.
  match type of Hreturns with
  | match ?run with _ => _ end = _ => destruct run as [[u s]| |] eqn:Hrun
  end; try discriminate Hreturns.
  injection Hreturns as <-.
  match type of Hrun with
  | match ?main with _ => _ end _ = _ => destruct main as [d|]
  end.
  - apply processDL_folders in Hrun; [exact Hrun | constructor].
  - injection Hrun as _ <-. constructor.
Qed.

(** X20. Whenever [parseChromeBookmarks] returns, what it returns holds
    folders only: every object has type [folder], a non-empty name and
    no url, access time or order. No link of the imported file is ever
    among the objects returned. *)
Theorem parseChromeBookmarks_only_folders (fuel : nat) (htmlText : string)
        (imported : Store)
        (Hreturns : parseChromeBookmarks parseFromString stamp fuel htmlText
                    = Normal imported) :
  Forall plain_folder imported
  /\ forall n, In n imported -> type n <> bookmark.
Proof.
  pose proof (parseChromeBookmarks_folders _ _ Hreturns) as Hall.
  split; [exact Hall|].
  intros n Hn. rewrite Forall_forall in Hall.
  destruct (Hall n Hn) as [Hty _]. rewrite Hty. discriminate.
Qed.


End MarkupResult.

Lemma parseChromeBookmarks_only_folders_witness :
  Forall plain_folder
         [ mkNode "s-1" "Work" folder "" None None None;
           mkNode "s-2" "Mail" folder "s-1" None None None ].
Proof.
  apply (@parseChromeBookmarks_only_folders
           (fun _ => sample_folders_document) (fun _ => "s") 3
           sample_folders_markup
           [ mkNode "s-1" "Work" folder "" None None None;
             mkNode "s-2" "Mail" folder "s-1" None None None ]).
  reflexivity.
Defined.

(** ** The options of the parent selector *)

Lemma forEach_folder_appends (Good : SelectOption -> Prop)
      (body : Node -> list SelectOption -> option (list SelectOption))
      (folders : list Node) :
  (forall f s s', In f folders -> body f s = Some s' ->
                  exists added, s' = s ++ added /\ Forall Good added) ->
  forall s s', forEach_folder body folders s = Some s' ->
               exists added, s' = s ++ added /\ Forall Good added.
Proof.
  induction folders as [|f folders IH]; intros Hbody s s' Hrun; simpl in Hrun.
  - injection Hrun as <-. exists []. rewrite app_nil_r. auto.
  - destruct (body f s) as [s1|] eqn:Hf; [|discriminate Hrun].
    destruct (Hbody f s s1 (or_introl eq_refl) Hf) as (a1 & -> & Ha1).
    destruct (IH (fun g t t' Hg => Hbody g t t' (or_intror Hg)) _ _ Hrun)
      as (a2 & -> & Ha2).
    exists (a1 ++ a2). rewrite app_assoc. split; [reflexivity|].
    apply Forall_app. auto.
Qed.

Section ParentSelect.

Variable st : Store.
Variable editingItem : option Node.
Variable fuelD : nat.

Lemma addFolderOptions_appends fuel : forall folders prefix select select',
  (forall f, In f folders -> In f st) ->
  addFolderOptions fuel fuelD st editingItem folders prefix select = Some select' ->
  exists added, select' = select ++ added /\ Forall (folder_option st editingItem) added.
Proof.
  induction fuel as [|fuel IH]; intros folders prefix select select' Hin Hrun;
    [discriminate Hrun|].
  simpl in Hrun. revert select select' Hrun.
  apply forEach_folder_appends.
  intros f s s' Hf Hbody.
  destruct (NodeType_eqb (type f) folder) eqn:Hty.
  2:{ injection Hbody as <-. exists []. rewrite app_nil_r. auto. }
  assert (Htype : type f = folder) by (destruct (type f); [reflexivity | discriminate Hty]).
  match type of Hbody with
  | match ?check with _ => _ end = _ => destruct check as [disabled|] eqn:Hcheck
  end; [|discriminate Hbody].
  cbv zeta in Hbody.
  set (o := {| opt_value := id f; opt_text := (prefix ++ name f)%string;
               opt_disabled := disabled |}) in *.
  assert (Ho : folder_option st editingItem o).
  { split.
    - exists f, prefix. repeat split; auto.
    - simpl. destruct editingItem as [e|].
      + destruct (String.eqb_spec (id e) (id f)) as [Heq|Hne].
        * injection Hcheck as <-. split; [|reflexivity].
          intros _. exists e. auto.
        * split.
          -- intros ->. exists e. split; [reflexivity|]. right.
             eapply isDescendant_true, Hcheck.
          -- intros (e' & [= <-] & [Heq|Hpath]); [contradiction|].
             destruct disabled; [reflexivity|].
             exfalso. eapply isDescendant_false; eassumption.
      + injection Hcheck as <-. split; [discriminate|].
        intros (e & He & _). discriminate He. }
  destruct (0 <? length _)%nat.
  - apply IH in Hbody.
    + destruct Hbody as (added & -> & Hadded).
      exists (o :: added). rewrite <- app_assoc. split; [reflexivity|].
      constructor; assumption.
    + intros c Hc. apply filter_In in Hc. destruct Hc as [Hc _].
      apply getItemsByParent_In in Hc. apply Hc.
  - injection Hbody as <-. exists [o]. split; [reflexivity|].
    constructor; [exact Ho | constructor].
Qed.

End ParentSelect.

(** X21. When [populateParentSelect] returns, the selector holds the
    option [Root], which is enabled, and after it options made for
    folders of the store. Such an option is disabled exactly when an
    item is being edited and the folder is that item or is met on the
    way up from it, that is, lies above it; with no item being edited
    every option is enabled. *)
Theorem populateParentSelect_disabled (fuel fuelD : nat) (st : Store)
        (editingItem : option Node) (options : list SelectOption)
        (Hreturns : populateParentSelect fuel fuelD st editingItem = Some options) :
  exists rest,
    options = {| opt_value := ""; opt_text := "Root"; opt_disabled := false |} :: rest
    /\ (forall o, In o rest ->
          (exists f p, In f st /\ type f = folder /\ opt_value o = id f
                       /\ opt_text o = (p ++ name f)%string)
          /\ (opt_disabled o = true
              <-> exists e, editingItem = Some e
                            /\ (id e = opt_value o
                                \/ clos_trans string (parent_step st)
                                              (id e) (opt_value o))))
    /\ (editingItem = None -> forall o, In o options -> opt_disabled o = false).
Proof.
  unfold populateParentSelect in Hreturns. cbv zeta in Hreturns.
  apply addFolderOptions_appends in Hreturns.
  - destruct Hreturns as (rest & -> & Hrest). exists rest.
    rewrite Forall_forall in Hrest.
    split; [reflexivity|]. split; [exact Hrest|].
    intros Hnone o [<-|Ho]; [reflexivity|].
    destruct (Hrest o Ho) as [_ Hdis].
    destruct (opt_disabled o); [|reflexivity].
    destruct (proj1 Hdis eq_refl) as (e & He & _). congruence.
  - intros c Hc. apply filter_In in Hc. destruct Hc as [Hc _].
    apply getItemsByParent_In in Hc. apply Hc.
Qed.

Lemma populateParentSelect_disabled_witness :
  exists rest,
    [ {| opt_value := ""; opt_text := "Root"; opt_disabled := false |};
      {| opt_value := "a"; opt_text := "Work"; opt_disabled := true |};
      {| opt_value := "ab"; opt_text := "Work / Mail"; opt_disabled := false |} ]
    = {| opt_value := ""; opt_text := "Root"; opt_disabled := false |} :: rest
    /\ (forall o, In o rest ->
          (exists f p, In f sample_tree /\ type f = folder /\ opt_value o = id f
                       /\ opt_text o = (p ++ name f)%string)
          /\ (opt_disabled o = true
              <-> exists e, Some (mkNode "a" "Work" folder "" None None (Some 0%Z))
                            = Some e
                            /\ (id e = opt_value o
                                \/ clos_trans string (parent_step sample_tree)
                                              (id e) (opt_value o))))
    /\ (Some (mkNode "a" "Work" folder "" None None (Some 0%Z)) = None ->
        forall o,
          In o [ {| opt_value := ""; opt_text := "Root"; opt_disabled := false |};
                 {| opt_value := "a"; opt_text := "Work"; opt_disabled := true |};
                 {| opt_value := "ab"; opt_text := "Work / Mail";
                    opt_disabled := false |} ] ->
          opt_disabled o = false).
Proof.
  apply (@populateParentSelect_disabled 3 3 sample_tree
           (Some (mkNode "a" "Work" folder "" None None (Some 0%Z)))).
  reflexivity.
Defined.

(** ** What a move does to the listings *)



Section Move.

(** The store, the object moved from the parent [p0] to another parent
    [p1], and the change made to it. *)
Variable st : Store.
Variable k : nat.
Variable d : Node.
Variable g : Node -> Node.
Variable p1 : string.

Hypothesis at_k : nth_error st k = Some d.
Hypothesis new_parent : parent (g d) = p1.
Hypothesis other_parent : parent d <> p1.





End Move.


